(** * switch-rom-packer: the on-device stubs and the forwarder

    A shallow embedding of the three C programs of the repository

    - [stub/source/main.c]       the single-ROM stub        ([Module Stub]),
    - the multi-ROM stub         (manifest copy engine)     ([Module MultiStub]),
    - [forwarder/source/main.c]  the chainload forwarder    ([Module Forwarder]),

    over a small model of the C library they call ([Module Libc]): a file
    store keyed by path, a set of directories, a count of open streams and a
    fault oracle that lets the storage medium refuse or cut short any
    operation that reaches it. *)

From Stdlib Require Import Ascii String ZArith HexadecimalString.
From stdpp Require Import gmap strings list fin_maps.

Set Warnings "-abstract-large-number".
Local Open Scope Z_scope.
Local Open Scope nat_scope.

(** C [char] arrays, C strings and file contents are lists of characters. *)
Abbreviation bytes := (list ascii).

(** A string literal of the C source. *)
Definition lit (s : string) : bytes := list_ascii_of_string s.

Definition NUL : ascii := "000"%char.
Definition TAB : ascii := "009"%char.
Definition LF : ascii := "010"%char.
Definition VT : ascii := "011"%char.
Definition FF : ascii := "012"%char.
Definition CR : ascii := "013"%char.
Definition SP : ascii := " "%char.
Definition SLASH : ascii := "/"%char.

(** ** C strings *)

(** The C string held by a buffer: the characters before the first NUL. *)
Fixpoint cstr (buf : bytes) : bytes :=
  match buf with
  | [] => []
  | c :: buf' => if Ascii.eqb c NUL then [] else c :: cstr buf'
  end.

(** [snprintf(buf, size, ...)] keeps at most [size - 1] characters. *)
Definition snprintf (size : nat) (s : bytes) : bytes := take (size - 1) s.

(** Index of the last ['/'] of a string ([strrchr(s, '/') - s]). *)
Fixpoint last_slash (s : bytes) : option nat :=
  match s with
  | [] => None
  | c :: s' =>
      match last_slash s' with
      | Some i => Some (S i)
      | None => if Ascii.eqb c SLASH then Some 0 else None
      end
  end.

(** The loop [while (n && p(s[n-1])) n--]: drop the trailing characters
    that satisfy [p]. *)
Fixpoint rtrim (p : ascii -> bool) (s : bytes) : bytes :=
  match s with
  | [] => []
  | c :: s' =>
      match rtrim p s' with
      | [] => if p c then [] else [c]
      | t => c :: t
      end
  end.

(** [isspace] in the C locale. *)
Definition isspace (c : ascii) : bool :=
  Ascii.eqb c SP || Ascii.eqb c TAB || Ascii.eqb c LF
  || Ascii.eqb c VT || Ascii.eqb c FF || Ascii.eqb c CR.

(** A [%N[...]] conversion of [sscanf]: the longest prefix of at most
    [width] characters that are all in the scan set, and the unread rest. *)
Fixpoint scanset (ok : ascii -> bool) (width : nat) (s : bytes) : bytes * bytes :=
  match width, s with
  | S width', c :: s' =>
      if ok c then let '(m, r) := scanset ok width' s' in (c :: m, r)
      else ([], s)
  | _, _ => ([], s)
  end.

(** A white-space directive of [sscanf]: skip any run of white space,
    the empty run included. *)
Fixpoint skip_space (s : bytes) : bytes :=
  match s with
  | c :: s' => if isspace c then skip_space s' else s
  | [] => []
  end.

(** [%x] of a [Result]. *)
Definition hex (z : Z) : bytes :=
  lit (NilZero.string_of_uint (N.to_hex_uint (Z.to_N z))).

(** ** libnx result codes ([switch/result.h])

    [Module_Libnx] and the two [LibnxError_] descriptions are libnx's own
    values.  The proofs use one fact about them: [Module_Libnx] is not a
    multiple of 512, so a result made with it is a failure whatever the
    description. *)

Definition MAKERESULT (module description : Z) : Z :=
  Z.lor (Z.land module 0x1FF) (Z.shiftl (Z.land description 0x1FFF) 9).
Definition R_FAILED (rc : Z) : bool := negb (Z.eqb rc 0).
Definition Module_Libnx : Z := 345.
Definition LibnxError_NotFound : Z := 9.
Definition LibnxError_IoError : Z := 10.
(** [HidNpadButton_Plus = BIT(10)] *)
Definition HidNpadButton_Plus : Z := Z.shiftl 1 10.

(** ** The C library and the storage behind it *)

Module Libc.

Inductive errno := EEXIST | ENOENT | ENOTDIR | EIO.

Definition errno_eqb (a b : errno) : bool :=
  match a, b with
  | EEXIST, EEXIST | ENOENT, ENOENT | ENOTDIR, ENOTDIR | EIO, EIO => true
  | _, _ => false
  end.

(** [w_files]: regular files and their contents, keyed by the path
    exactly as the program spells it (no normalisation of repeated
    slashes, [.] or [..]).  [w_dirs]: directories; the empty path stands
    for the root every path hangs from and always exists.  [w_open]:
    number of streams opened and not yet closed.  [w_quota]: the fault
    oracle: each operation that reaches the medium (creating a directory,
    creating or truncating a file, writing) takes the next entry [q] and
    the medium accepts at most [q] bytes of it; creation is refused when
    [q = 0].  Once the oracle is used up the medium accepts everything.
    [w_report]: stdio buffers, so the call of [fwrite] that hands over
    bytes the medium will not take need not be the call that reports it:
    for each chunk the medium takes short, the next entry of [w_report]
    is the count that call of [fwrite] returns (see [fwrite]).  Once it
    is used up, [fwrite] returns what the medium took. *)
Record World := mkState {
  w_files : gmap bytes bytes;
  w_dirs : gset bytes;
  w_open : nat;
  w_quota : list nat;
  w_report : list nat;
}.

(** A store in which every shortfall is reported by the call that meets
    it. *)
Definition mkWorld (f : gmap bytes bytes) (d : gset bytes) (n : nat)
    (q : list nat) : World :=
  mkState f d n q [].

Definition set_files (f : gmap bytes bytes) (w : World) : World :=
  mkState f (w_dirs w) (w_open w) (w_quota w) (w_report w).
Definition set_dirs (d : gset bytes) (w : World) : World :=
  mkState (w_files w) d (w_open w) (w_quota w) (w_report w).
Definition set_open (n : nat) (w : World) : World :=
  mkState (w_files w) (w_dirs w) n (w_quota w) (w_report w).
Definition set_quota (q : list nat) (w : World) : World :=
  mkState (w_files w) (w_dirs w) (w_open w) q (w_report w).
Definition set_report (r : list nat) (w : World) : World :=
  mkState (w_files w) (w_dirs w) (w_open w) (w_quota w) r.

Definition take_quota (w : World) : option nat * World :=
  match w_quota w with
  | [] => (None, w)
  | q :: qs => (Some q, set_quota qs w)
  end.

Definition take_report (w : World) : option nat * World :=
  match w_report w with
  | [] => (None, w)
  | r :: rs => (Some r, set_report rs w)
  end.

(** The directory part of a path: what precedes its last slash. *)
Definition dirname (p : bytes) : bytes :=
  match last_slash p with
  | Some i => take i p
  | None => []
  end.

Definition is_dir (w : World) (p : bytes) : bool :=
  bool_decide (p = []) || bool_decide (p ∈ w_dirs w).
Definition is_file (w : World) (p : bytes) : bool :=
  bool_decide (is_Some (w_files w !! p)).
Definition path_exists (w : World) (p : bytes) : bool :=
  is_dir w p || is_file w p.

(** [mkdir(p, 0777)]: the error is [errno] after a return of [-1]. *)
Definition mkdir (p : bytes) (w : World) : option errno * World :=
  if path_exists w p then (Some EEXIST, w)
  else if negb (is_dir w (dirname p))
       then (Some (if is_file w (dirname p) then ENOTDIR else ENOENT), w)
  else match take_quota w with
       | (Some 0, w') => (Some EIO, w')
       | (_, w') => (None, set_dirs ({[p]} ∪ w_dirs w') w')
       end.

(** A stream open for reading is the part of the file not read yet, as
    the file was when it was opened.  That is what the stream delivers
    as long as the file is not opened for writing in the meantime; the
    one place where a program does so, [copyFile] called with one path
    for both files, is handled there. *)
Definition fopen_rb (p : bytes) (w : World) : option bytes * World :=
  match w_files w !! p with
  | Some data => (Some data, set_open (S (w_open w)) w)
  | None => (None, w)
  end.

(** A stream open for writing is the path it writes to; [keep] is
    [false] for mode ["wb"] (truncate) and [true] for mode ["a"]. *)
Definition fopen_write (keep : bool) (p : bytes) (w : World) : option bytes * World :=
  if is_dir w p then (None, w)
  else if negb (is_dir w (dirname p)) then (None, w)
  else match take_quota w with
       | (Some 0, w') => (None, w')
       | (_, w') =>
           let old := if keep then default [] (w_files w' !! p) else [] in
           (Some p, set_open (S (w_open w')) (set_files (<[p := old]> (w_files w')) w'))
       end.
Definition fopen_wb := fopen_write false.
Definition fopen_a := fopen_write true.

(** What a stream open for reading on [p] has left to deliver once
    [fopen(p', "wb")] has succeeded: nothing when [p'] is the very path
    the stream reads, emptied by that call before anything was read. *)
Definition after_wb (p p' : bytes) (f : bytes) : bytes :=
  if bool_decide (p = p') then [] else f.

(** [fread(buf, 1, n, f)] *)
Definition fread (n : nat) (f : bytes) : bytes * bytes := (take n f, drop n f).

(** The successive non-empty results of [fread(buf, 1, n, f)]. *)
Fixpoint fread_fuel (fuel n : nat) (f : bytes) : list bytes :=
  match fuel with
  | 0 => []
  | S fuel' =>
      let '(buf, f') := fread n f in
      match buf with
      | [] => []
      | _ => buf :: fread_fuel fuel' n f'
      end
  end.
Definition fread_all (n : nat) (f : bytes) : list bytes :=
  fread_fuel (length f) n f.

(** [fwrite(buf, 1, n, f)]: the value returned, and the store.  The
    stream is buffered.  The oracle [w_quota] says how many of the [n]
    bytes reach the medium, be it during this call or when the buffer is
    flushed, by a later call or by [fclose]: those [k] bytes are what the
    file gains, the others are lost.  When nothing is lost the call
    returns [n].  When bytes are lost the value is the next entry of
    [w_report], cut to [n]: it is [n] itself when the bytes were only
    put in the buffer and the loss shows at the flush, and anything below
    [n] when this call meets the failure.  With [w_report] used up the
    value is [k]. *)
Definition fwrite (buf : bytes) (f : bytes) (w : World) : nat * World :=
  let '(q, w1) := take_quota w in
  let k := match q with Some q => min q (length buf) | None => length buf end in
  let old := default [] (w_files w1 !! f) in
  let w2 := set_files (<[f := old ++ take k buf]> (w_files w1)) w1 in
  if k =? length buf then (length buf, w2)
  else
    let '(r, w3) := take_report w2 in
    (match r with Some r => min r (length buf) | None => k end, w3).

(** [fclose(f)]: the stream is closed whatever becomes of the flush, and
    none of the three programs looks at the value.  The bytes a failing
    flush loses are those [fwrite] did not add to the file. *)
Definition fclose (w : World) : World := set_open (pred (w_open w)) w.

(** [fgets(line, size, f)]: at most [size - 1] characters, up to and
    including the first newline. *)
Fixpoint fgets_take (n : nat) (f : bytes) : bytes * bytes :=
  match n, f with
  | S n', c :: f' =>
      if Ascii.eqb c LF then ([c], f')
      else let '(l, r) := fgets_take n' f' in (c :: l, r)
  | _, _ => ([], f)
  end.
Definition fgets (size : nat) (f : bytes) : option (bytes * bytes) :=
  match f with
  | [] => None
  | _ => Some (fgets_take (size - 1) f)
  end.

(** The successive results of [fgets(line, size, f)] until it returns
    [NULL]. *)
Fixpoint fgets_fuel (fuel size : nat) (f : bytes) : list bytes :=
  match fuel with
  | 0 => []
  | S fuel' =>
      match fgets size f with
      | None => []
      | Some (l, f') => l :: fgets_fuel fuel' size f'
      end
  end.
Definition fgets_all (size : nat) (f : bytes) : list bytes :=
  fgets_fuel (length f) size f.

End Libc.

(** ** The multi-ROM stub: manifest-driven copy from RomFS to the SD card *)

Module MultiStub.
Import Libc.

Definition OUTPUT_BASE : bytes := lit "/roms/".
Definition FILELIST : bytes := lit "filelist.txt".

(** The [for] loop of [mkpath]: [pre] is [tmp] up to [p], [rest] is the
    string at [p]; every slash met cuts the path there for one [mkdir]
    whose outcome is dropped. *)
Fixpoint mkpath_walk (pre rest : bytes) (w : World) : World :=
  match rest with
  | [] => w
  | c :: rest' =>
      let w' := if Ascii.eqb c SLASH then snd (mkdir pre w) else w in
      mkpath_walk (pre ++ [c]) rest' w'
  end.

(** [mkdir -p]: [0], or [-1] when the last [mkdir] fails with anything
    but [EEXIST]. *)
Definition mkpath (path : bytes) (w : World) : Z * World :=
  let tmp := take 1023 path in
  match tmp with
  | [] => (0%Z, w)
  | c0 :: rest =>
      let w1 := mkpath_walk [c0] rest w in
      match mkdir tmp w1 with
      | (Some e, w2) => if errno_eqb e EEXIST then (0%Z, w2) else ((-1)%Z, w2)
      | (None, w2) => (0%Z, w2)
      end
  end.

(** The [while] loop of [copyFile] over the chunks [fread] delivers. *)
Fixpoint copy_loop (chunks : list bytes) (dst : bytes) (w : World) : Z * World :=
  match chunks with
  | [] => (0%Z, fclose (fclose w))
  | buf :: chunks' =>
      let '(n, w1) := fwrite buf dst w in
      if negb (n =? length buf)
      then (MAKERESULT Module_Libnx LibnxError_IoError, fclose (fclose w1))
      else copy_loop chunks' dst w1
  end.

(** "Ensure destination directory exists" of [copyFile]: [dir] is the
    copy of [dstPath] cut at its last slash; the value of [mkpath] is
    dropped. *)
Definition ensure_dir (dstPath : bytes) (w : World) : World :=
  let dir := take 1023 dstPath in
  match last_slash dir with
  | Some i => snd (mkpath (take i dir) w)
  | None => w
  end.

Definition copyFile (srcPath dstPath : bytes) (w : World) : Z * World :=
  match fopen_rb srcPath w with
  | (None, w0) => (MAKERESULT Module_Libnx LibnxError_NotFound, w0)
  | (Some src, w0) =>
      let w1 := ensure_dir dstPath w0 in
      match fopen_wb dstPath w1 with
      | (None, w2) => (MAKERESULT Module_Libnx LibnxError_IoError, fclose w2)
      | (Some dst, w2) =>
          copy_loop (fread_all 8192 (after_wb srcPath dstPath src)) dst w2
      end
  end.

(** What the stub prints, one constructor per [printf] of [main];
    [EvConsoleUpdate] is one idle frame of the input loop. *)
Inductive event :=
| EvRomfsInitFailed (rc : Z)
| EvMissingList
| EvBadLine (line : bytes)
| EvCopying (srcPath dstPath : bytes)
| EvCopyFailed (rc : Z)
| EvDone
| EvPressPlus
| EvConsoleUpdate.

(** The text each event puts on the console. *)
Definition render (e : event) : bytes :=
  match e with
  | EvRomfsInitFailed rc => lit "romfsInit failed: 0x" ++ hex rc ++ [LF]
  | EvMissingList => lit "Missing " ++ FILELIST ++ lit " in RomFS." ++ [LF]
  | EvBadLine line => lit "Bad manifest line: " ++ line ++ [LF]
  | EvCopying s d => lit "Copying " ++ s ++ lit " -> " ++ d ++ [LF]
  | EvCopyFailed rc => lit "  Copy failed: 0x" ++ hex rc ++ [LF]
  | EvDone => lit "  Done." ++ [LF]
  | EvPressPlus => lit "Press PLUS to exit." ++ [LF]
  | EvConsoleUpdate => []
  end.

Definition is_crlf (c : ascii) : bool := Ascii.eqb c LF || Ascii.eqb c CR.

(** [sscanf(line, "%159[^\t]\t%575[^\n]", platform, filename)]: the
    return value and the two buffers (zero-initialised by [main]). *)
Definition sscanf_line (line : bytes) : Z * bytes * bytes :=
  match line with
  | [] => ((-1)%Z, [], [])
  | _ =>
      let '(platform, r1) := scanset (fun c => negb (Ascii.eqb c TAB)) 159 line in
      match platform with
      | [] => (0%Z, [], [])
      | _ =>
          let r2 := skip_space r1 in
          let '(filename, _) := scanset (fun c => negb (Ascii.eqb c LF)) 575 r2 in
          match filename with
          | [] => (1%Z, platform, [])
          | _ => (2%Z, platform, filename)
          end
      end
  end.

(** The body of the [while (fgets(...))] loop for one buffer [raw]. *)
Definition process_line (raw : bytes) (w : World) : list event * World :=
  let line := rtrim is_crlf (cstr raw) in
  match line with
  | [] => ([], w)
  | _ =>
      let '(n, platform, filename) := sscanf_line line in
      if negb (Z.eqb n 2) then ([EvBadLine line], w)
      else
        let srcPath := snprintf 700 (lit "romfs:/" ++ filename) in
        let dstPath := snprintf 1100 (OUTPUT_BASE ++ platform ++ lit "/" ++ filename) in
        let '(rc, w1) := copyFile srcPath dstPath w in
        ([EvCopying srcPath dstPath;
          if R_FAILED rc then EvCopyFailed rc else EvDone], w1)
  end.

(** The [while (fgets(line, sizeof(line), list))] loop over the buffers
    [fgets] fills, one after the other; the body has no [break]. *)
Fixpoint main_loop (raws : list bytes) (w : World) : list event * World :=
  match raws with
  | [] => ([], w)
  | raw :: raws' =>
      let '(out1, w1) := process_line raw w in
      let '(out2, w2) := main_loop raws' w1 in
      (out1 ++ out2, w2)
  end.

(** The input loop: [pad] lists [padGetButtonsDown] for every frame in
    which [appletMainLoop()] is true; after them it is false. *)
Fixpoint pad_loop (pad : list Z) : list event :=
  match pad with
  | [] => []
  | kDown :: pad' =>
      if negb (Z.eqb (Z.land kDown HidNpadButton_Plus) 0) then []
      else EvConsoleUpdate :: pad_loop pad'
  end.

(** [main]: [romfs_rc] is what [romfsInit()] returns. *)
Definition main (romfs_rc : Z) (pad : list Z) (w : World) : Z * list event * World :=
  let '(out, w') :=
    if R_FAILED romfs_rc then ([EvRomfsInitFailed romfs_rc], w)
    else
      let listPath := snprintf 128 (lit "romfs:/" ++ FILELIST) in
      match fopen_rb listPath w with
      | (None, w0) => ([EvMissingList], w0)
      | (Some list, w0) =>
          let '(out, w1) := main_loop (fgets_all 768 list) w0 in
          (out, fclose w1)
      end in
  (0%Z, out ++ [EvPressPlus] ++ pad_loop pad, w').

End MultiStub.

(** ** The single-ROM stub ([stub/source/main.c]) *)

Module Stub.
Import Libc.

Definition OUTPUT_DIR : bytes := lit "/switch/roms/".
Definition ROM_NAME : bytes := lit "rom.bin".

(** The [while] loop of [copyFile]: the value of [fwrite] is dropped. *)
Fixpoint copy_loop (chunks : list bytes) (dst : bytes) (w : World) : World :=
  match chunks with
  | [] => w
  | buf :: chunks' => copy_loop chunks' dst (snd (fwrite buf dst w))
  end.

Definition copyFile (srcPath dstPath : bytes) (w : World) : Z * World :=
  match fopen_rb srcPath w with
  | (None, w0) => (MAKERESULT Module_Libnx LibnxError_NotFound, w0)
  | (Some src, w0) =>
      match fopen_wb dstPath w0 with
      | (None, w1) => (MAKERESULT Module_Libnx LibnxError_IoError, fclose w1)
      | (Some dst, w1) =>
          (0%Z, fclose (fclose (copy_loop (fread_all 8192 (after_wb srcPath dstPath src))
                                  dst w1)))
      end
  end.

Inductive event :=
| EvRomfsInitFailed (rc : Z)
| EvMounted
| EvCopying (srcPath dstPath : bytes)
| EvCopyFailed (rc : Z)
| EvCopyComplete
| EvPressPlus
| EvConsoleUpdate.

Fixpoint pad_loop (pad : list Z) : list event :=
  match pad with
  | [] => []
  | kDown :: pad' =>
      if negb (Z.eqb (Z.land kDown HidNpadButton_Plus) 0) then []
      else EvConsoleUpdate :: pad_loop pad'
  end.

Definition main (romfs_rc : Z) (pad : list Z) (w : World) : Z * list event * World :=
  let '(out, w') :=
    if R_FAILED romfs_rc then ([EvRomfsInitFailed romfs_rc], w)
    else
      let srcPath := snprintf 64 (lit "romfs:/" ++ ROM_NAME) in
      let dstPath := snprintf 256 (OUTPUT_DIR ++ ROM_NAME) in
      let '(rc, w1) := copyFile srcPath dstPath w in
      ([EvMounted; EvCopying srcPath dstPath;
        if R_FAILED rc then EvCopyFailed rc else EvCopyComplete], w1) in
  (0%Z, out ++ [EvPressPlus] ++ pad_loop pad, w').

End Stub.

(** ** The forwarder ([forwarder/source/main.c]) *)

Module Forwarder.
Import Libc.

Definition LOG_DIR : bytes := lit "sdmc:/switch-rom-packer".
Definition LOG_PATH : bytes := LOG_DIR ++ lit "/forwarder.log".
Definition ARG_FILE : bytes := lit "romfs:/nextArgv".
Definition NRO_FILE : bytes := lit "romfs:/nextNroPath".

Definition ensure_log_dir (w : World) : World := snd (mkdir LOG_DIR w).

(** [fprintf]/[vfprintf] of an already formatted text; the value is dropped. *)
Definition fprintf (text : bytes) (f : bytes) (w : World) : World :=
  snd (fwrite text f w).

Definition log_msg (s : bytes) (w : World) : World :=
  let w0 := ensure_log_dir w in
  match fopen_a LOG_PATH w0 with
  | (Some f, w1) => fclose (fprintf (s ++ [LF]) f w1)
  | (None, w1) => w1
  end.

(** [text] is the format with its arguments filled in. *)
Definition log_printf (text : bytes) (w : World) : World :=
  let w0 := ensure_log_dir w in
  match fopen_a LOG_PATH w0 with
  | (None, w1) => w1
  | (Some f, w1) => fclose (fprintf [LF] f (fprintf text f w1))
  end.

Definition is_trailing (c : ascii) : bool :=
  Ascii.eqb c LF || Ascii.eqb c CR || Ascii.eqb c SP || Ascii.eqb c TAB.

(** [read_text_file(path, out, outsz)]: the [n] characters of [out]
    before the terminating NUL the function stores at [out[n]]. *)
Definition read_text_file (path : bytes) (outsz : nat) (w : World) : bytes * World :=
  match fopen_rb path w with
  | (None, w0) => ([], w0)
  | (Some f, w0) =>
      let '(out, _) := fread (outsz - 1) f in
      (rtrim is_trailing out, fclose w0)
  end.

(** Placeholder of the source: a fixed non-zero code, whatever the
    arguments. *)
Definition chainload_nro (nroPath argvLine : bytes) : Z := MAKERESULT 346 1.

(** What [main] prints, one constructor per [printf]; [EvChainload] marks
    the call [chainload_nro(nroPath, argvLine)] and [EvConsoleUpdate] one
    idle frame of the input loop. *)
Inductive event :=
| EvBanner
| EvTargetMissing
| EvTarget (nroPath : bytes)
| EvChainload (nroPath argvLine : bytes)
| EvLaunchFailed (rc : Z)
| EvPressPlus
| EvConsoleUpdate.

Definition render (e : event) : bytes :=
  match e with
  | EvBanner => lit "Switch ROM Packer Forwarder" ++ [LF; LF]
  | EvTargetMissing => lit "Error: romfs:/nextNroPath missing" ++ [LF]
  | EvTarget p => lit "Target NRO:" ++ [LF] ++ p ++ [LF; LF]
  | EvChainload _ _ => []
  | EvLaunchFailed rc => lit "Launch not implemented yet (rc=0x" ++ hex rc ++ lit ")" ++ [LF]
  | EvPressPlus => [LF] ++ lit "Press + to exit." ++ [LF]
  | EvConsoleUpdate => []
  end.

Fixpoint pad_loop (pad : list Z) : list event :=
  match pad with
  | [] => []
  | kDown :: pad' =>
      if negb (Z.eqb (Z.land kDown HidNpadButton_Plus) 0) then []
      else EvConsoleUpdate :: pad_loop pad'
  end.

(** [s[0] ? s : "(missing)"] *)
Definition or_missing (s : bytes) : bytes :=
  match s with [] => lit "(missing)" | _ => s end.

(** The handoff of [main]: everything between the banner and the exit
    prompt. *)
Definition handoff (nroPath argvLine : bytes) (w : World) : list event * World :=
  match nroPath with
  | [] => ([EvTargetMissing], log_msg (lit "ERROR: nextNroPath missing") w)
  | _ =>
      let rc := chainload_nro nroPath argvLine in
      if R_FAILED rc
      then ([EvTarget nroPath; EvChainload nroPath argvLine; EvLaunchFailed rc],
            log_printf (lit "chainload_nro not implemented (rc=0x" ++ hex rc ++ lit ")") w)
      else ([EvTarget nroPath; EvChainload nroPath argvLine], w)
  end.

(** [main], on the store as it is once [fsdevMountSdmc()] and
    [romfsInit()] have run (their results are dropped by the source). *)
Definition main (pad : list Z) (w : World) : Z * list event * World :=
  let w0 := log_msg (lit "SRP forwarder start") w in
  let '(nroBuf, w1) := read_text_file NRO_FILE 512 w0 in
  let '(argvBuf, w2) := read_text_file ARG_FILE 768 w1 in
  let nroPath := cstr nroBuf in
  let argvLine := cstr argvBuf in
  let w3 := log_printf (lit "nextNroPath=" ++ or_missing nroPath) w2 in
  let w4 := log_printf (lit "nextArgv=" ++ or_missing argvLine) w3 in
  let '(out, w5) := handoff nroPath argvLine w4 in
  (0%Z, [EvBanner] ++ out ++ [EvPressPlus] ++ pad_loop pad, w5).

End Forwarder.

(** * Notions used by the statements *)

Module LibcSpec.
Import Libc.

(** A path that is not a directory and can never become one: it is a
    regular file, or it lies under such a path. *)
Inductive stuck (w : World) : bytes → Prop :=
| stuck_file p : is_dir w p = false → is_file w p = true → stuck w p
| stuck_under p : is_dir w p = false → stuck w (dirname p) → stuck w p.

(** Nothing is left to do for [mkdir -p] at [p]. *)
Definition settled (w : World) (p : bytes) : Prop :=
  is_dir w p = true ∨ stuck w p.

(** [w'] is a later state of the store [w]: nothing is ever removed. *)
Record grows (w w' : World) : Prop := mkGrows {
  grows_dirs : ∀ p, is_dir w p = true → is_dir w' p = true;
  grows_files : ∀ p, is_file w p = true → is_file w' p = true;
  grows_stuck : ∀ p, stuck w p → stuck w' p;
}.

(** No fault is pending: the medium accepts every operation. *)
Definition clean (w : World) : Prop := w_quota w = [].

End LibcSpec.

Module MultiStubSpec.
Import Libc MultiStub.

(** The paths [mkpath_walk] hands to [mkdir], in order. *)
Fixpoint walk_targets (pre rest : bytes) : list bytes :=
  match rest with
  | [] => []
  | c :: rest' =>
      (if Ascii.eqb c SLASH then [pre] else []) ++ walk_targets (pre ++ [c]) rest'
  end.

(** All the paths [mkpath] hands to [mkdir] for the buffer [tmp]. *)
Definition targets (tmp : bytes) : list bytes :=
  match tmp with
  | [] => []
  | c0 :: rest => walk_targets [c0] rest ++ [tmp]
  end.

(** A run of [mkdir] calls whose outcomes are dropped. *)
Definition mkdirs (ts : list bytes) (w : World) : World :=
  foldl (fun w p => snd (mkdir p w)) w ts.

(** Each path of the list lies directly in the one before it, the
    first one in [d]. *)
Fixpoint linked (d : bytes) (ts : list bytes) : Prop :=
  match ts with
  | [] => True
  | t :: ts' => dirname t = d ∧ linked t ts'
  end.

End MultiStubSpec.

Module ManifestSpec.
Import Libc MultiStub.

(** What the loop body makes of one buffer filled by [fgets]. *)
Inductive parsed :=
| Blank
| Bad (line : bytes)
| Entry (platform filename : bytes).

Definition parse_line (raw : bytes) : parsed :=
  let line := rtrim is_crlf (cstr raw) in
  match line with
  | [] => Blank
  | _ =>
      let '(n, platform, filename) := sscanf_line line in
      if negb (Z.eqb n 2) then Bad line else Entry platform filename
  end.

Definition srcPath_of (filename : bytes) : bytes := lit "romfs:/" ++ filename.
Definition dstPath_of (platform filename : bytes) : bytes :=
  OUTPUT_BASE ++ platform ++ lit "/" ++ filename.

Definition IoError : Z := MAKERESULT Module_Libnx LibnxError_IoError.
Definition NotFound : Z := MAKERESULT Module_Libnx LibnxError_NotFound.

(** The stub keeps no counters; what a run attempted, copied and failed
    to copy is read off what it printed: one "Copying" line per attempt,
    followed by "Done." or by "Copy failed". *)
Record Summary := mkSummary { attempted : nat; succeeded : nat; failed : nat }.

Definition is_copying (e : event) : bool :=
  match e with EvCopying _ _ => true | _ => false end.
Definition is_done (e : event) : bool :=
  match e with EvDone => true | _ => false end.
Definition is_copy_failed (e : event) : bool :=
  match e with EvCopyFailed _ => true | _ => false end.

Definition summary (out : list event) : Summary :=
  mkSummary (length (filter (fun e => is_copying e = true) out))
            (length (filter (fun e => is_done e = true) out))
            (length (filter (fun e => is_copy_failed e = true) out)).

End ManifestSpec.

Module RerunSpec.
Import Libc LibcSpec MultiStub.

(** How a second run, now in state [w'], relates to the first run when
    it was in state [w] at the same manifest line; [W] is the state the
    first run ended in. *)
Record sim (W w w' : World) : Prop := mkSim {
  sim_clean : clean w;
  sim_clean' : clean w';
  sim_dirs : w_dirs w' = w_dirs W;
  sim_dom : ∀ p, is_file w' p = is_file W p;
  sim_files : ∀ p, w_files w' !! p = w_files w !! p
                   ∨ w_files w' !! p = w_files W !! p;
}.

End RerunSpec.

Module ForwarderSpec.
Import Libc LibcSpec Forwarder.

(** What [read_text_file] makes of a file: [None] is a file that does
    not open. *)
Definition record (outsz : nat) (content : option bytes) : bytes :=
  match content with
  | Some data => rtrim is_trailing (take (outsz - 1) data)
  | None => []
  end.

(** The log can be written: the medium is healthy, no directory sits at
    the log's path, and the log directory is there or can be made. *)
Definition log_usable (w : World) : Prop :=
  clean w
  ∧ is_dir w LOG_PATH = false
  ∧ (is_dir w LOG_DIR = true
     ∨ (is_dir w (lit "sdmc:") = true ∧ is_file w LOG_DIR = false)).

(** The code this repository answers for a file that is not found
    ([copyFile]). *)
Definition not_found_code : Z := MAKERESULT Module_Libnx LibnxError_NotFound.

End ForwarderSpec.

Module HandoffSpec.
Import Libc Forwarder.

(** The two records as [main] reads them. *)
Definition nro_record (w : World) : bytes := (read_text_file NRO_FILE 512 w).1.
Definition argv_record (w : World) : bytes := (read_text_file ARG_FILE 768 w).1.

(** The store before the handoff: the start line and the two records
    are in the log. *)
Definition logged_records (w : World) : World :=
  log_printf (lit "nextArgv=" ++ or_missing (cstr (argv_record w)))
    (log_printf (lit "nextNroPath=" ++ or_missing (cstr (nro_record w)))
       (log_msg (lit "SRP forwarder start") w)).

(** Two stores whose target record names [sdmc:/switch/app.nro]: in the
    first no such file exists, in the second it does. *)
Definition w_no_target : World :=
  mkWorld {[ NRO_FILE := lit "sdmc:/switch/app.nro" ++ [LF] ]}
          {[ lit "sdmc:"; lit "sdmc:/switch" ]} 0 [].
Definition w_with_target : World :=
  mkWorld (<[ lit "sdmc:/switch/app.nro" := lit "NRO0" ]>
             {[ NRO_FILE := lit "sdmc:/switch/app.nro" ++ [LF] ]})
          {[ lit "sdmc:"; lit "sdmc:/switch" ]} 0 [].

End HandoffSpec.

Module StdioSpec.
Import Libc.

(** The store after [fwrite] was called on [f] for each chunk in turn. *)
Definition fwrites (chunks : list bytes) (f : bytes) (w : World) : World :=
  foldl (fun w buf => snd (fwrite buf f w)) w chunks.

(** The bytes of the chunks that reach the medium when the oracle reads
    [qs]: of each chunk as many as its entry allows, and all of it once
    the oracle is used up. *)
Fixpoint stored (qs : list nat) (chunks : list bytes) : bytes :=
  match chunks with
  | [] => []
  | buf :: chunks' =>
      take (match qs with [] => length buf | q :: _ => q end) buf
        ++ stored (tail qs) chunks'
  end.

End StdioSpec.

(** A line of 160 letters: no tab, hence no second field. *)
Definition tabless_line : bytes := repeat "a"%char 160.

(** Concrete stores the theorems are run on. *)
Module Demo.
Import Libc.

Definition manifest : bytes :=
  lit "snes" ++ [TAB] ++ lit "game.sfc" ++ [LF]
    ++ lit "no tab here" ++ [CR; LF] ++ [LF]
    ++ lit "gb" ++ [TAB] ++ lit "missing.gb" ++ [LF].

Definition romfs : gmap bytes bytes :=
  <[ lit "romfs:/filelist.txt" := manifest ]>
    {[ lit "romfs:/game.sfc" := lit "ROMDATA" ]}.

Definition entry_line : bytes := lit "snes" ++ [TAB] ++ lit "game.sfc" ++ [LF].

(** An empty, healthy card. *)
Definition w_card : World := mkWorld romfs ∅ 0 [].
(** The two [mkdir] and the [fopen] go through, the first [fwrite]
    takes 3 bytes of 7. *)
Definition w_short : World := mkWorld romfs ∅ 0 [1; 1; 1; 3].
(** The first [mkdir] is refused. *)
Definition w_refused : World := mkWorld romfs ∅ 0 [0].
(** No manifest in the RomFS. *)
Definition w_bare : World := mkWorld ∅ ∅ 0 [].
(** One manifest line, its source in the RomFS, output root [/roms]. *)
Definition w_scenario : World :=
  mkWorld (<[ lit "romfs:/filelist.txt"
                := lit "snes" ++ [TAB] ++ lit "super_game.sfc" ++ [LF] ]>
             {[ lit "romfs:/super_game.sfc" := lit "ROMDATA" ]})
          ∅ 0 [].
(** A target record made of white space only. *)
Definition w_blank_target : World :=
  mkWorld {[ Forwarder.NRO_FILE := [SP; LF] ]} {[ lit "sdmc:" ]} 0 [].
(** The single-ROM stub: [fopen] goes through, [fwrite] takes 3 bytes
    of 7. *)
Definition w_stub_short : World :=
  mkWorld {[ lit "romfs:/rom.bin" := lit "ROMDATA" ]}
          {[ lit "/switch"; lit "/switch/roms" ]} 0 [1; 3].

End Demo.

(** The log of the forwarder. *)
Module LogSpec.
Import Libc Forwarder.

(** The file at [p] has only been added to: what it held in [w] opens
    what it holds in [w']. *)
Definition appended (p : bytes) (w w' : World) : Prop :=
  ∀ old, w_files w !! p = Some old →
         ∃ more, w_files w' !! p = Some (old ++ more).

(** The last line [main] hands to the log. *)
Definition verdict (nroPath : bytes) : bytes :=
  match nroPath with
  | [] => lit "ERROR: nextNroPath missing"
  | _ => lit "chainload_nro not implemented (rc=0x35a)"
  end.

(** What one call of a logging helper may do to the store: add to the
    log, make the log's directory, and nothing else. *)
Definition log_step (w w' : World) : Prop :=
  appended LOG_PATH w w'
  ∧ w_open w' = w_open w
  ∧ w_dirs w ⊆ w_dirs w'
  ∧ ∀ p, p ∈ w_dirs w' → p ∈ w_dirs w ∨ p = LOG_DIR.

End LogSpec.

(** A ROM of more than one chunk, and stores whose medium takes three
    bytes of its first chunk. *)
Module Chunks.
Import Libc.

Definition rom : bytes := repeat "R"%char 8192 ++ lit "TAIL".

Definition romfs : gmap bytes bytes := {[ lit "romfs:/game.sfc" := rom ]}.

(** The two [mkdir] and the [fopen] go through; of the first chunk the
    medium takes 3 bytes, and [fwrite] returns 3. *)
Definition w_short : World := mkWorld romfs ∅ 0 [1; 1; 1; 3].

(** The store [Demo.w_short] behind a buffer: the medium takes 3 bytes
    of the 7 but [fwrite] returns 7, and the loss shows when the buffer
    is flushed. *)
Definition w_late : World := mkState Demo.romfs ∅ 0 [1; 1; 1; 3] [7].

End Chunks.

(** Where the paths of the manifest lead. *)
Module PathSpec.
Import Libc MultiStub ManifestSpec.

(** The segments of a path: what stands between its slashes. *)
Fixpoint segments_from (cur s : bytes) : list bytes :=
  match s with
  | [] => [cur]
  | c :: s' =>
      if Ascii.eqb c SLASH then cur :: segments_from [] s'
      else segments_from (cur ++ [c]) s'
  end.
Definition segments (p : bytes) : list bytes := segments_from [] p.

(** One step of path resolution from the directory [dir], given by its
    names from the root: an empty segment and [.] stay, [..] goes to the
    parent (the root is its own), a name goes down. *)
Definition step (dir : list bytes) (seg : bytes) : list bytes :=
  if bool_decide (seg = [] ∨ seg = lit ".") then dir
  else if bool_decide (seg = lit "..") then removelast dir
  else dir ++ [seg].

(** Where an absolute path leads. *)
Definition resolve (p : bytes) : list bytes := foldl step [] (segments p).

(** The path leads to [/roms] or below. *)
Definition under_roms (p : bytes) : Prop := head (resolve p) = Some (lit "roms").

(** The destination of the line, if it is an entry, has no [..] among
    its segments. *)
Definition no_dotdot (raw : bytes) : Prop :=
  ∀ platform filename,
    parse_line raw = Entry platform filename →
    lit ".." ∉ segments (dstPath_of platform filename).

End PathSpec.

(** * Proofs *)

Module CStringFacts.

Lemma last_slash_lt s i : last_slash s = Some i → i < length s.
Proof.
  revert i. induction s as [|c s IH]; intros i; simpl; [done|].
  destruct (last_slash s) as [j|].
  - intros [= <-]. specialize (IH j eq_refl). lia.
  - destruct (Ascii.eqb c SLASH); [intros [= <-]; lia | done].
Qed.

Lemma last_slash_snoc s c :
  last_slash (s ++ [c]) = if Ascii.eqb c SLASH then Some (length s) else last_slash s.
Proof.
  induction s as [|a s IH]; simpl.
  - by destruct (Ascii.eqb c SLASH).
  - rewrite IH. destruct (Ascii.eqb c SLASH); [done|].
    by destruct (last_slash s).
Qed.

Lemma dirname_snoc_slash s : Libc.dirname (s ++ [SLASH]) = s.
Proof.
  unfold Libc.dirname. rewrite last_slash_snoc. simpl.
  by rewrite take_app_length.
Qed.

Lemma dirname_snoc_other s c :
  Ascii.eqb c SLASH = false → Libc.dirname (s ++ [c]) = Libc.dirname s.
Proof.
  intros Hc. unfold Libc.dirname. rewrite last_slash_snoc, Hc.
  destruct (last_slash s) as [i|] eqn:Hi; [|done].
  apply last_slash_lt in Hi. rewrite take_app_le; [done|lia].
Qed.

Lemma dirname_single c : Libc.dirname [c] = [].
Proof. unfold Libc.dirname. simpl. by destruct (Ascii.eqb c SLASH). Qed.

Lemma dirname_length p : length (Libc.dirname p) ≤ length p.
Proof.
  unfold Libc.dirname. destruct (last_slash p); simpl; [|lia].
  rewrite length_take. lia.
Qed.

(** [rtrim] removes a suffix made of trimmed characters only, and what
    is left does not end in one. *)
Lemma rtrim_split p s : ∃ t, s = rtrim p s ++ t ∧ forallb p t = true.
Proof.
  induction s as [|c s (t & Hs & Ht)]; simpl.
  - by exists [].
  - destruct (rtrim p s) as [|a r] eqn:Hr.
    + destruct (p c) eqn:Hc.
      * exists (c :: t). simpl in *. rewrite Hc, Ht. by rewrite Hs at 1.
      * exists t. simpl in *. by rewrite Hs at 1.
    + exists t. split; [|done]. simpl. by rewrite Hs at 1.
Qed.

Lemma rtrim_last p s c : last (rtrim p s) = Some c → p c = false.
Proof.
  revert c. induction s as [|a s IH]; intros c; simpl; [done|].
  destruct (rtrim p s) as [|b r] eqn:Hr.
  - destruct (p a) eqn:Ha; simpl; [done|]. by intros [= <-].
  - intros H. apply IH. exact H.
Qed.

Lemma rtrim_length p s : length (rtrim p s) ≤ length s.
Proof.
  destruct (rtrim_split p s) as (t & Hs & _).
  rewrite Hs at 2. rewrite length_app. lia.
Qed.

Lemma rtrim_id p s c : last s = Some c → p c = false → rtrim p s = s.
Proof.
  revert c. induction s as [|a s IH]; intros c; simpl; [done|].
  destruct s as [|b s].
  - simpl. intros [= <-] ->. done.
  - intros Hl Hc. rewrite (IH c); [done|exact Hl|done].
Qed.

Lemma scanset_spec ok width s m r :
  scanset ok width s = (m, r) →
  s = m ++ r ∧ length m ≤ width ∧ forallb ok m = true.
Proof.
  revert s m r. induction width as [|n IH]; intros s m r; simpl.
  - destruct s; intros [= <- <-]; simpl; auto with lia.
  - destruct s as [|c s]; [intros [= <- <-]; simpl; auto with lia|].
    destruct (ok c) eqn:Hc; [|intros [= <- <-]; simpl; auto with lia].
    destruct (scanset ok n s) as [m' r'] eqn:E. intros [= <- <-].
    destruct (IH _ _ _ E) as (-> & Hl & Hf). simpl. rewrite Hc, Hf.
    auto with lia.
Qed.

(** A run of accepted characters no longer than the width, followed by
    a refused character or the end, is read in full. *)
Lemma scanset_exact ok width m r :
  forallb ok m = true → length m ≤ width →
  match r with [] => True | c :: _ => ok c = false end →
  scanset ok width (m ++ r) = (m, r).
Proof.
  revert width. induction m as [|a m IH]; intros width Hm Hl Hr; simpl in *.
  - destruct width, r; simpl; try done. by rewrite Hr.
  - destruct width; [lia|]. apply andb_true_iff in Hm as [Ha Hm].
    simpl. rewrite Ha, IH; [done|done|lia|done].
Qed.

Lemma cstr_no_nul buf : NUL ∉ cstr buf.
Proof.
  induction buf as [|c buf IH]; simpl; [apply not_elem_of_nil|].
  destruct (Ascii.eqb_spec c NUL); [apply not_elem_of_nil|].
  apply not_elem_of_cons. split; [congruence|done].
Qed.

Lemma cstr_id buf : NUL ∉ buf → cstr buf = buf.
Proof.
  induction buf as [|c buf IH]; simpl; [done|].
  intros [Hc Hb]%not_elem_of_cons.
  destruct (Ascii.eqb_spec c NUL); [congruence|]. by rewrite IH.
Qed.

Lemma cstr_length buf : length (cstr buf) ≤ length buf.
Proof.
  induction buf as [|c buf IH]; simpl; [done|].
  destruct (Ascii.eqb c NUL); simpl; lia.
Qed.

End CStringFacts.

Module LibcFacts.
Import Libc LibcSpec CStringFacts.

Lemma is_dir_true w p : is_dir w p = true ↔ p = [] ∨ p ∈ w_dirs w.
Proof.
  unfold is_dir. rewrite orb_true_iff, !bool_decide_eq_true. done.
Qed.

Lemma is_dir_false w p : is_dir w p = false ↔ p ≠ [] ∧ p ∉ w_dirs w.
Proof.
  unfold is_dir. rewrite orb_false_iff, !bool_decide_eq_false. done.
Qed.

Lemma is_file_true w p : is_file w p = true ↔ is_Some (w_files w !! p).
Proof. unfold is_file. by rewrite bool_decide_eq_true. Qed.

Lemma is_file_false w p : is_file w p = false ↔ w_files w !! p = None.
Proof.
  unfold is_file. rewrite bool_decide_eq_false. by rewrite eq_None_not_Some.
Qed.

Lemma is_dir_ext w w' p : w_dirs w' = w_dirs w → is_dir w' p = is_dir w p.
Proof. unfold is_dir. by intros ->. Qed.

Lemma is_file_ext w w' p : w_files w' = w_files w → is_file w' p = is_file w p.
Proof. unfold is_file. by intros ->. Qed.

Lemma stuck_not_dir w p : stuck w p → is_dir w p = false.
Proof. by intros []. Qed.

Lemma stuck_inv w p :
  stuck w p → is_dir w p = false ∧ (is_file w p = true ∨ is_dir w (dirname p) = false).
Proof.
  intros [q Hd Hf|q Hd Hs]; split; auto using stuck_not_dir.
Qed.

(** ** The store only grows *)

Lemma grows_refl w : grows w w.
Proof. by split. Qed.

Lemma grows_trans w1 w2 w3 : grows w1 w2 → grows w2 w3 → grows w1 w3.
Proof. intros [] []. split; auto. Qed.

Lemma settled_grows w w' p : grows w w' → settled w p → settled w' p.
Proof. intros [] [|]; [left|right]; auto. Qed.

Lemma grows_same_dirs w w' :
  w_dirs w' = w_dirs w →
  (∀ p, is_file w p = true → is_file w' p = true) →
  grows w w'.
Proof.
  intros Hd Hf. split; [|done|].
  - intros p. by rewrite (is_dir_ext w w').
  - intros p Hs. induction Hs as [p H1 H2|p H1 _ IH].
    + apply stuck_file; [by rewrite (is_dir_ext w w')|auto].
    + apply stuck_under; [by rewrite (is_dir_ext w w')|done].
Qed.

Lemma grows_same_fs w w' :
  w_dirs w' = w_dirs w → w_files w' = w_files w → grows w w'.
Proof.
  intros Hd Hf. apply grows_same_dirs; [done|].
  intros p. by rewrite (is_file_ext w w').
Qed.

Lemma take_quota_fs w q w' :
  take_quota w = (q, w') →
  w_dirs w' = w_dirs w ∧ w_files w' = w_files w ∧ w_open w' = w_open w.
Proof.
  unfold take_quota. destruct (w_quota w); intros [= <- <-]; done.
Qed.

Lemma take_quota_clean w : clean w → take_quota w = (None, w).
Proof. unfold clean, take_quota. by intros ->. Qed.

(** Case analysis on what the oracle answers at [w]: [q] is the answer,
    [w'] the state after it, and the pattern names what [take_quota_fs]
    says of [w']. *)
Tactic Notation "ask_medium" constr(w) "as" simple_intropattern(pat) :=
  let E := fresh "E" in
  destruct (take_quota w) as [q w'] eqn:E;
  apply take_quota_fs in E as pat.

(** ** [mkdir] *)

Lemma mkdir_files p w : w_files (mkdir p w).2 = w_files w.
Proof.
  unfold mkdir. destruct (path_exists w p); [done|].
  destruct (negb (is_dir w (dirname p))); [done|].
  ask_medium w as (_ & ? & _). by destruct q as [[|?]|].
Qed.

Lemma mkdir_open p w : w_open (mkdir p w).2 = w_open w.
Proof.
  unfold mkdir. destruct (path_exists w p); [done|].
  destruct (negb (is_dir w (dirname p))); [done|].
  ask_medium w as (_ & _ & ?). by destruct q as [[|?]|].
Qed.

Lemma mkdir_noop p w :
  path_exists w p = true ∨ is_dir w (dirname p) = false → (mkdir p w).2 = w.
Proof.
  unfold mkdir. intros [->| ->]; [done|]. by destruct (path_exists w p).
Qed.

Lemma mkdir_clean p w : clean w → clean (mkdir p w).2.
Proof.
  intros Hc. unfold mkdir. destruct (path_exists w p); [done|].
  destruct (negb (is_dir w (dirname p))); [done|].
  by rewrite take_quota_clean.
Qed.

(** A fresh directory under an existing one unsticks nothing. *)
Lemma grows_add_dir p w w' :
  path_exists w p = false → is_dir w (dirname p) = true →
  w_files w' = w_files w → w_dirs w' = {[p]} ∪ w_dirs w →
  grows w w'.
Proof.
  intros Hex Hpar Hf Hd. apply orb_false_iff in Hex as [Hnd Hnf].
  assert (∀ q, is_file w' q = is_file w q) as Hfile
    by (intros q; by apply is_file_ext).
  assert (∀ q, q ≠ p → is_dir w' q = is_dir w q) as Hdir.
  { intros q Hq. unfold is_dir. rewrite Hd. f_equal.
    apply bool_decide_ext. rewrite elem_of_union, elem_of_singleton. tauto. }
  split.
  - intros q. rewrite !is_dir_true, Hd, elem_of_union. tauto.
  - intros q. by rewrite Hfile.
  - intros q Hs. induction Hs as [q H1 H2|q H1 Hs IH].
    + apply stuck_file; [|by rewrite Hfile].
      rewrite Hdir; [done|]. intros ->. congruence.
    + apply stuck_under; [|done].
      rewrite Hdir; [done|]. intros ->. apply stuck_not_dir in Hs. congruence.
Qed.

Lemma mkdir_grows p w : grows w (mkdir p w).2.
Proof.
  unfold mkdir. destruct (path_exists w p) eqn:Hex; [apply grows_refl|].
  destruct (is_dir w (dirname p)) eqn:Hpar; simpl; [|apply grows_refl].
  ask_medium w as (Hd & Hf & _).
  destruct q as [[|?]|]; simpl; try (by apply grows_same_fs).
  all: apply (grows_add_dir p); simpl; try done; by rewrite Hd.
Qed.

Lemma mkdir_settled p w :
  clean w → settled w (dirname p) → settled (mkdir p w).2 p.
Proof.
  intros Hc Hpar. unfold mkdir.
  destruct (path_exists w p) eqn:Hex; simpl.
  { unfold path_exists in Hex. destruct (is_dir w p) eqn:Hd; [by left|].
    right. by apply stuck_file. }
  apply orb_false_iff in Hex as [Hnd Hnf].
  destruct (is_dir w (dirname p)) eqn:Hd; simpl.
  - rewrite take_quota_clean by done. left. apply is_dir_true. simpl.
    right. apply elem_of_union_l. by apply elem_of_singleton.
  - right. destruct Hpar as [?|Hs]; [congruence|]. by apply stuck_under.
Qed.

(** ** Opening, writing, closing *)

Lemma fopen_rb_spec p w :
  fopen_rb p w =
    match w_files w !! p with
    | Some data => (Some data, set_open (S (w_open w)) w)
    | None => (None, w)
    end.
Proof. done. Qed.

Lemma fopen_write_grows keep p w : grows w (fopen_write keep p w).2.
Proof.
  unfold fopen_write. destruct (is_dir w p); [apply grows_refl|].
  destruct (negb (is_dir w (dirname p))); [apply grows_refl|].
  ask_medium w as (Hd & Hf & _).
  destruct q as [[|?]|]; simpl; try (by apply grows_same_fs).
  all: apply grows_same_dirs; [done|].
  all: intros q; rewrite !is_file_true; simpl; rewrite <- Hf.
  all: destruct (decide (p = q)) as [->|];
    [rewrite lookup_insert_eq | rewrite lookup_insert_ne by done]; eauto.
Qed.

Lemma fopen_write_clean keep p w : clean w → clean (fopen_write keep p w).2.
Proof.
  intros Hc. unfold fopen_write. destruct (is_dir w p); [done|].
  destruct (negb (is_dir w (dirname p))); [done|].
  by rewrite take_quota_clean.
Qed.

(** On a medium without pending faults, opening for writing fails only
    on a directory or under a missing directory. *)
Lemma fopen_write_clean_spec keep p w :
  clean w →
  fopen_write keep p w =
    if is_dir w p || negb (is_dir w (dirname p)) then (None, w)
    else (Some p, set_open (S (w_open w))
            (set_files (<[p := if keep then default [] (w_files w !! p) else []]>
                          (w_files w)) w)).
Proof.
  intros Hc. unfold fopen_write. destruct (is_dir w p); [done|].
  destruct (negb (is_dir w (dirname p))); [done|].
  by rewrite take_quota_clean.
Qed.

(** What one [fwrite] does to the store: the file gains the [k] bytes
    the medium takes, and nothing else changes but the oracles. *)
Lemma fwrite_store buf f w :
  let k := match w_quota w with
           | [] => length buf
           | q :: _ => min q (length buf)
           end in
  w_files (fwrite buf f w).2
  = <[f := default [] (w_files w !! f) ++ take k buf]> (w_files w)
  ∧ w_dirs (fwrite buf f w).2 = w_dirs w
  ∧ w_open (fwrite buf f w).2 = w_open w
  ∧ w_quota (fwrite buf f w).2 = tail (w_quota w)
  ∧ (fwrite buf f w).1 ≤ length buf
  ∧ (k = length buf →
     (fwrite buf f w).1 = length buf
     ∧ w_report (fwrite buf f w).2 = w_report w).
Proof.
  unfold fwrite, take_quota, take_report.
  destruct (w_quota w) as [|q qs] eqn:Hq; cbn zeta.
  - rewrite Nat.eqb_refl. cbn. by rewrite Hq.
  - cbn [w_files set_quota set_files w_quota w_report].
    destruct (Nat.eqb_spec (min q (length buf)) (length buf)) as [E|E].
    + cbn. done.
    + destruct (w_report w) as [|r rs]; cbn; (repeat split; try done; try lia).
Qed.

Lemma fwrite_grows buf f w : grows w (fwrite buf f w).2.
Proof.
  destruct (fwrite_store buf f w) as (Hf & Hd & _).
  apply grows_same_dirs; [done|].
  intros p; rewrite !is_file_true, Hf.
  destruct (decide (f = p)) as [->|];
    [rewrite lookup_insert_eq | rewrite lookup_insert_ne by done]; eauto.
Qed.

Lemma fwrite_clean_spec buf f w :
  clean w →
  fwrite buf f w =
    (length buf,
     set_files (<[f := default [] (w_files w !! f) ++ buf]> (w_files w)) w).
Proof.
  intros Hc. unfold fwrite. rewrite take_quota_clean by done.
  by rewrite Nat.eqb_refl, firstn_all.
Qed.

Lemma fwrite_le buf f w : (fwrite buf f w).1 ≤ length buf.
Proof. by destruct (fwrite_store buf f w) as (_ & _ & _ & _ & ? & _). Qed.

Lemma fclose_grows w : grows w (fclose w).
Proof. by apply grows_same_fs. Qed.

(** ** Reading a stream to its end *)

Lemma fread_fuel_concat fuel n f :
  0 < n → length f ≤ fuel → concat (fread_fuel fuel n f) = f.
Proof.
  intros Hn. revert f. induction fuel as [|fuel IH]; intros f Hf; simpl.
  - by destruct f; [|simpl in Hf; lia].
  - unfold fread. destruct (take n f) as [|c buf] eqn:E.
    + destruct f, n; simpl in *; try done; lia.
    + cbn [concat]. rewrite IH.
      * rewrite <- E. apply take_drop.
      * rewrite length_drop. destruct f as [|a f]; [by destruct n|].
        destruct n; [lia|]. simpl in *. lia.
Qed.

Lemma fread_all_concat n f : 0 < n → concat (fread_all n f) = f.
Proof. intros. by apply fread_fuel_concat. Qed.

(** Extra fuel changes nothing: the recursion stops at the end of the
    stream. *)
Lemma fread_fuel_irrel fuel1 fuel2 n f :
  0 < n → length f ≤ fuel1 → length f ≤ fuel2 →
  fread_fuel fuel1 n f = fread_fuel fuel2 n f.
Proof.
  intros Hn. revert fuel2 f.
  induction fuel1 as [|fuel1 IH]; intros fuel2 f H1 H2.
  - destruct f; [|simpl in H1; lia]. destruct fuel2; [done|].
    simpl. by destruct n.
  - destruct fuel2 as [|fuel2].
    + destruct f; [|simpl in H2; lia]. simpl. by destruct n.
    + cbn [fread_fuel]. unfold fread.
      destruct (take n f) as [|c buf] eqn:E; [done|]. f_equal.
      assert (length (drop n f) < length f).
      { rewrite length_drop. destruct f; [by destruct n|]. simpl. lia. }
      apply IH; lia.
Qed.

Lemma fread_fuel_enough fuel n f :
  0 < n → length f ≤ fuel → fread_fuel fuel n f = fread_all n f.
Proof. intros. by apply fread_fuel_irrel. Qed.

(** [fread_all] is the loop [while ((n = fread(...)) > 0)]. *)
Lemma fread_all_unfold n f :
  0 < n →
  fread_all n f =
    match fread n f with
    | ([], _) => []
    | (buf, f') => buf :: fread_all n f'
    end.
Proof.
  intros Hn. unfold fread_all at 1. destruct f as [|c f]; simpl.
  { by destruct n. }
  destruct n as [|n]; [lia|]. simpl. f_equal.
  apply fread_fuel_enough; [lia|]. rewrite length_drop. lia.
Qed.

Lemma fgets_take_spec n f l r :
  fgets_take n f = (l, r) → f = l ++ r ∧ length l ≤ n.
Proof.
  revert f l r. induction n as [|n IH]; intros f l r; simpl.
  - destruct f; intros [= <- <-]; simpl; auto with lia.
  - destruct f as [|c f]; [intros [= <- <-]; simpl; auto with lia|].
    destruct (Ascii.eqb c LF); [intros [= <- <-]; simpl; auto with lia|].
    destruct (fgets_take n f) as [l' r'] eqn:E. intros [= <- <-].
    destruct (IH _ _ _ E) as [-> ?]. simpl. auto with lia.
Qed.

Lemma fgets_take_progress n c f : (fgets_take (S n) (c :: f)).1 ≠ [].
Proof.
  simpl. destruct (Ascii.eqb c LF); [done|].
  by destruct (fgets_take n f).
Qed.

Lemma fgets_take_shorter size c f :
  2 ≤ size → length (fgets_take (size - 1) (c :: f)).2 ≤ length f.
Proof.
  intros Hn. destruct (fgets_take (size - 1) (c :: f)) as [l r] eqn:E.
  pose proof (fgets_take_progress (size - 2) c f) as Hp.
  replace (S (size - 2)) with (size - 1) in Hp by lia.
  rewrite E in Hp. simpl in Hp.
  apply fgets_take_spec in E as [E _].
  apply (f_equal length) in E. rewrite length_app in E.
  simpl in *. destruct l; [done|]. simpl in *. lia.
Qed.

Lemma fgets_fuel_irrel fuel1 fuel2 size f :
  2 ≤ size → length f ≤ fuel1 → length f ≤ fuel2 →
  fgets_fuel fuel1 size f = fgets_fuel fuel2 size f.
Proof.
  intros Hn. revert fuel2 f.
  induction fuel1 as [|fuel1 IH]; intros fuel2 f H1 H2.
  - destruct f; [|simpl in H1; lia]. by destruct fuel2.
  - destruct fuel2 as [|fuel2].
    + by destruct f; [|simpl in H2; lia].
    + destruct f as [|c f]; [done|]. cbn [fgets_fuel fgets].
      pose proof (fgets_take_shorter size c f Hn) as Hs.
      destruct (fgets_take (size - 1) (c :: f)) as [l r].
      f_equal. simpl in *. apply IH; lia.
Qed.

Lemma fgets_fuel_enough fuel size f :
  2 ≤ size → length f ≤ fuel → fgets_fuel fuel size f = fgets_all size f.
Proof. intros. by apply fgets_fuel_irrel. Qed.

(** [fgets_all] is the loop [while (fgets(line, size, f))]. *)
Lemma fgets_all_unfold size f :
  2 ≤ size →
  fgets_all size f =
    match fgets size f with
    | None => []
    | Some (l, f') => l :: fgets_all size f'
    end.
Proof.
  intros Hn. unfold fgets_all at 1. destruct f as [|c f]; [done|].
  cbn [length fgets_fuel fgets].
  pose proof (fgets_take_shorter size c f Hn) as Hs.
  destruct (fgets_take (size - 1) (c :: f)) as [l r].
  f_equal. by apply fgets_fuel_enough.
Qed.

End LibcFacts.

Module MkpathFacts.
Import Libc LibcSpec LibcFacts CStringFacts MultiStub MultiStubSpec.

Lemma mkpath_walk_mkdirs pre rest w :
  mkpath_walk pre rest w = mkdirs (walk_targets pre rest) w.
Proof.
  revert pre w. induction rest as [|c rest IH]; intros pre w; simpl; [done|].
  rewrite IH. by destruct (Ascii.eqb c SLASH).
Qed.

Lemma mkdirs_app ts1 ts2 w : mkdirs (ts1 ++ ts2) w = mkdirs ts2 (mkdirs ts1 w).
Proof. apply foldl_app. Qed.

Lemma mkpath_world path w :
  (mkpath path w).2 = mkdirs (targets (take 1023 path)) w.
Proof.
  unfold mkpath, targets. destruct (take 1023 path) as [|c0 rest]; [done|].
  rewrite mkdirs_app, mkpath_walk_mkdirs. simpl.
  destruct (mkdir _ _) as [[e|] w2]; [|done]. by destruct (errno_eqb e EEXIST).
Qed.

Lemma linked_walk pre rest :
  linked (dirname pre) (walk_targets pre rest ++ [pre ++ rest]).
Proof.
  revert pre. induction rest as [|c rest IH]; intros pre; simpl.
  - by rewrite app_nil_r.
  - specialize (IH (pre ++ [c])). rewrite <- app_assoc in IH. simpl in IH.
    destruct (Ascii.eqb c SLASH) eqn:Hc; simpl.
    + apply Ascii.eqb_eq in Hc as ->. rewrite dirname_snoc_slash in IH. done.
    + by rewrite dirname_snoc_other in IH.
Qed.

Lemma linked_targets tmp : linked [] (targets tmp).
Proof.
  destruct tmp as [|c0 rest]; [done|]. unfold targets.
  pose proof (linked_walk [c0] rest) as H.
  by rewrite dirname_single in H.
Qed.

Lemma last_targets tmp : tmp ≠ [] → last (targets tmp) = Some tmp.
Proof. destruct tmp; [done|]. intros _. unfold targets. apply last_snoc. Qed.

Lemma mkdirs_grows ts w : grows w (mkdirs ts w).
Proof.
  revert w. induction ts as [|t ts IH]; intros w; simpl; [apply grows_refl|].
  eapply grows_trans; [apply mkdir_grows|apply IH].
Qed.

Lemma mkdirs_clean ts w : clean w → clean (mkdirs ts w).
Proof.
  revert w. induction ts as [|t ts IH]; intros w Hc; simpl; [done|].
  apply IH. by apply mkdir_clean.
Qed.

Lemma mkdirs_files ts w : w_files (mkdirs ts w) = w_files w.
Proof.
  revert w. induction ts as [|t ts IH]; intros w; simpl; [done|].
  by rewrite IH, mkdir_files.
Qed.

Lemma mkdirs_open ts w : w_open (mkdirs ts w) = w_open w.
Proof.
  revert w. induction ts as [|t ts IH]; intros w; simpl; [done|].
  by rewrite IH, mkdir_open.
Qed.

(** On a medium without pending faults, [mkdir -p] leaves nothing to
    do: every path of the chain is a directory or can never be one. *)
Lemma mkdirs_settled ts d w :
  clean w → linked d ts → settled w d → Forall (settled (mkdirs ts w)) ts.
Proof.
  revert d w. induction ts as [|t ts IH]; intros d w Hc Hl Hd; simpl; [done|].
  destruct Hl as [Ht Hl].
  assert (settled (mkdir t w).2 t) as Hst.
  { apply mkdir_settled; [done|]. by rewrite Ht. }
  constructor.
  - eapply settled_grows; [apply mkdirs_grows|done].
  - apply (IH t); [by apply mkdir_clean|done|done].
Qed.

Lemma mkdirs_noop ts w :
  Forall (fun t => path_exists w t = true ∨ is_dir w (dirname t) = false) ts →
  mkdirs ts w = w.
Proof.
  induction 1 as [|t ts Ht _ IH]; simpl; [done|].
  by rewrite mkdir_noop.
Qed.

(** [mkpath] answers [-1] only when the directory is not there. *)
Lemma mkpath_failed path w w1 :
  mkpath path w = ((-1)%Z, w1) →
  take 1023 path ≠ [] ∧ is_dir w1 (take 1023 path) = false.
Proof.
  unfold mkpath. destruct (take 1023 path) as [|c0 rest] eqn:E; [done|].
  set (w0 := mkpath_walk [c0] rest w). unfold mkdir.
  destruct (path_exists w0 (c0 :: rest)) eqn:Hex; [simpl; done|].
  apply orb_false_iff in Hex as [Hnd _].
  destruct (negb (is_dir w0 (dirname (c0 :: rest)))).
  { destruct (is_file w0 _); simpl; intros [= <-]; done. }
  ask_medium w0 as (Hd & _ & _).
  destruct q as [[|?]|]; simpl; try done.
  intros [= <-]. split; [done|]. by rewrite (is_dir_ext w0 w').
Qed.

(** An "already exists" answer is a success, for every segment. *)
Lemma mkpath_exists path w :
  Forall (fun t => path_exists w t = true) (targets (take 1023 path)) →
  mkpath path w = (0%Z, w).
Proof.
  intros Hall. unfold mkpath.
  destruct (take 1023 path) as [|c0 rest] eqn:E; [done|].
  unfold targets in Hall. apply Forall_app in Hall as [Hwalk Hlast].
  rewrite mkpath_walk_mkdirs, mkdirs_noop.
  - rewrite Forall_singleton in Hlast. unfold mkdir. by rewrite Hlast.
  - eapply Forall_impl; [exact Hwalk|]. simpl. auto.
Qed.

End MkpathFacts.

Module CopyFacts.
Import Libc LibcSpec LibcFacts CStringFacts StdioSpec.
Import MultiStub MultiStubSpec MkpathFacts ManifestSpec.

Lemma R_FAILED_libnx d : R_FAILED (MAKERESULT Module_Libnx d) = true.
Proof.
  unfold R_FAILED, MAKERESULT. apply negb_true_iff, Z.eqb_neq.
  intros H. apply Z.lor_eq_0_iff in H as [H _]. by vm_compute in H.
Qed.

(** ** Opening the destination *)

Lemma fopen_wb_some p w f w' :
  fopen_wb p w = (Some f, w') →
  f = p ∧ is_dir w p = false ∧ is_dir w (dirname p) = true
  ∧ w_files w' = <[p := []]> (w_files w) ∧ w_dirs w' = w_dirs w
  ∧ w_open w' = S (w_open w) ∧ w_quota w' = tail (w_quota w).
Proof.
  unfold fopen_wb, fopen_write. destruct (is_dir w p) eqn:Hd; [done|].
  destruct (is_dir w (dirname p)) eqn:Hp; [simpl|done].
  unfold take_quota. destruct (w_quota w) as [|[|q] qs] eqn:Hq; try done.
  all: intros [= <- <-]; simpl; by rewrite ?Hq.
Qed.

Lemma fopen_wb_none p w w' :
  fopen_wb p w = (None, w') →
  w_files w' = w_files w ∧ w_dirs w' = w_dirs w ∧ w_open w' = w_open w.
Proof.
  unfold fopen_wb, fopen_write. destruct (is_dir w p); [by intros [= <-]|].
  destruct (negb (is_dir w (dirname p))); [by intros [= <-]|].
  unfold take_quota. destruct (w_quota w) as [|[|q] qs]; try done.
  by intros [= <-].
Qed.

(** ** The chunk loop *)

Lemma copy_loop_frame chunks dst w :
  let w' := (copy_loop chunks dst w).2 in
  w_dirs w' = w_dirs w
  ∧ w_open w' = pred (pred (w_open w))
  ∧ (∀ p, p ≠ dst → w_files w' !! p = w_files w !! p)
  ∧ grows w w'.
Proof.
  revert w. induction chunks as [|buf chunks IH]; intros w; simpl.
  { repeat split; try done. by apply grows_same_fs. }
  destruct (fwrite buf dst w) as [n w1] eqn:E.
  assert (w_dirs w1 = w_dirs w ∧ w_open w1 = w_open w
          ∧ (∀ p, p ≠ dst → w_files w1 !! p = w_files w !! p)
          ∧ grows w w1) as (Hd & Ho & Hf & Hg).
  { pose proof (fwrite_grows buf dst w) as Hg.
    destruct (fwrite_store buf dst w) as (Hf & Hd & Ho & _).
    rewrite E in Hg, Hf, Hd, Ho. cbn [snd] in *.
    split; [done|]. split; [done|]. split; [|done].
    intros p Hp. by rewrite Hf, lookup_insert_ne. }
  destruct (negb (n =? length buf)); simpl.
  - split; [done|]. split; [by rewrite Ho|]. split; [done|].
    eapply grows_trans; [exact Hg|]. by apply grows_same_fs.
  - destruct (IH w1) as (Hd' & Ho' & Hf' & Hg').
    split; [congruence|]. split; [congruence|]. split.
    + intros p Hp. rewrite Hf', Hf; done.
    + eapply grows_trans; done.
Qed.

(** Without faults every chunk is written in full and the copy succeeds. *)
Lemma copy_loop_clean chunks dst w old :
  clean w → w_files w !! dst = Some old →
  copy_loop chunks dst w =
    (0%Z, fclose (fclose (set_files (<[dst := old ++ concat chunks]> (w_files w)) w))).
Proof.
  revert w old. induction chunks as [|buf chunks IH]; intros w old Hc Ho; simpl.
  { rewrite app_nil_r, insert_id by done. by destruct w. }
  rewrite fwrite_clean_spec by done. rewrite Nat.eqb_refl. simpl.
  rewrite Ho. simpl. erewrite IH; [|done|by simpl; rewrite lookup_insert_eq].
  simpl. by rewrite insert_insert_eq, <- app_assoc.
Qed.

(** ** What a run of [fwrite] leaves behind *)

Lemma take_min_length {A} (q : nat) (l : list A) : take (min q (length l)) l = take q l.
Proof.
  destruct (decide (q ≤ length l)); [by rewrite Nat.min_l|].
  rewrite Nat.min_r, firstn_all, firstn_all2 by lia. done.
Qed.

Lemma fwrites_cons buf chunks f w :
  fwrites (buf :: chunks) f w = fwrites chunks f (fwrite buf f w).2.
Proof. done. Qed.

Lemma fwrites_snoc chunks buf f w :
  fwrites (chunks ++ [buf]) f w = (fwrite buf f (fwrites chunks f w)).2.
Proof. unfold fwrites. by rewrite foldl_app. Qed.

Lemma fwrites_store chunks f w :
  w_dirs (fwrites chunks f w) = w_dirs w
  ∧ w_open (fwrites chunks f w) = w_open w
  ∧ w_quota (fwrites chunks f w) = drop (length chunks) (w_quota w)
  ∧ (∀ p, p ≠ f → w_files (fwrites chunks f w) !! p = w_files w !! p)
  ∧ (∀ old, w_files w !! f = Some old →
       w_files (fwrites chunks f w) !! f
       = Some (old ++ stored (w_quota w) chunks)).
Proof.
  revert w. induction chunks as [|buf chunks IH]; intros w.
  { cbn. repeat split; try done. intros old ->. by rewrite app_nil_r. }
  rewrite fwrites_cons.
  destruct (fwrite_store buf f w) as (Hf & Hd & Ho & Hq & _). cbn zeta in Hf.
  destruct (IH (fwrite buf f w).2) as (Hd' & Ho' & Hq' & Hf' & Hold').
  split; [congruence|]. split; [congruence|]. split.
  { rewrite Hq', Hq. destruct (w_quota w); [simpl; by rewrite drop_nil|done]. }
  split.
  { intros p Hp. by rewrite Hf', Hf, lookup_insert_ne. }
  intros old Hold.
  erewrite Hold'; [|by rewrite Hf, lookup_insert_eq, Hold].
  cbn [default stored]. rewrite Hq, <- app_assoc. do 3 f_equal.
  destruct (w_quota w) as [|q qs]; [by rewrite firstn_all|apply take_min_length].
Qed.

Lemma stored_length qs chunks : length (stored qs chunks) ≤ length (concat chunks).
Proof.
  revert qs. induction chunks as [|buf chunks IH]; intros qs; [done|].
  cbn [stored concat]. rewrite !length_app, length_take.
  specialize (IH (tail qs)). lia.
Qed.

(** One chunk the medium takes short leaves the file short. *)
Lemma stored_short qs chunks i buf q :
  chunks !! i = Some buf → qs !! i = Some q → q < length buf →
  length (stored qs chunks) < length (concat chunks).
Proof.
  revert qs i. induction chunks as [|b chunks IH]; intros qs i Hi Hq Hlt; [done|].
  cbn [stored concat]. rewrite !length_app, length_take.
  destruct i as [|i].
  - cbn in Hi. injection Hi as ->. destruct qs as [|q0 qs]; [done|].
    cbn in Hq. injection Hq as ->.
    pose proof (stored_length (tail (q :: qs)) chunks). lia.
  - destruct qs as [|q0 qs]; [done|]. cbn in Hi, Hq.
    specialize (IH qs i Hi Hq Hlt). cbn [tail]. lia.
Qed.

Lemma stored_full chunks : stored [] chunks = concat chunks.
Proof.
  induction chunks as [|buf chunks IH]; [done|].
  cbn [stored concat tail]. by rewrite firstn_all, IH.
Qed.

(** A call of [fwrite] that does not return the length of the chunk
    has lost bytes of it. *)
Lemma fwrite_short_lost buf f w :
  (fwrite buf f w).1 ≠ length buf →
  ∃ q, head (w_quota w) = Some q ∧ q < length buf.
Proof.
  intros Hn. destruct (fwrite_store buf f w) as (_ & _ & _ & _ & _ & Hfull).
  cbn zeta in Hfull. destruct (w_quota w) as [|q qs].
  { by destruct Hfull. }
  exists q. split; [done|].
  destruct (decide (q < length buf)); [done|].
  destruct Hfull as [Hfull _]; [lia|done].
Qed.

(** ** Where the chunk loop stops *)

(** As long as [fwrite] returns the length of the chunk the loop goes
    on; when it has done so for every chunk the value is [0]. *)
Lemma copy_loop_through chunks dst w :
  (∀ j b, chunks !! j = Some b →
          (fwrite b dst (fwrites (take j chunks) dst w)).1 = length b) →
  copy_loop chunks dst w = (0%Z, fclose (fclose (fwrites chunks dst w))).
Proof.
  revert w. induction chunks as [|buf chunks IH]; intros w Hall; [done|].
  cbn [copy_loop]. pose proof (Hall 0 buf eq_refl) as H0. cbn in H0.
  destruct (fwrite buf dst w) as [n w1] eqn:E. cbn [fst] in H0. subst n.
  rewrite Nat.eqb_refl. cbn [negb]. rewrite fwrites_cons, E. cbn [snd].
  apply IH. intros j b Hj. specialize (Hall (S j) b Hj).
  cbn [take] in Hall. by rewrite fwrites_cons, E in Hall.
Qed.

(** The first call of [fwrite] that returns anything else ends the
    loop: the value is the I/O error, both streams are closed, the chunks
    that follow are never written and what the calls so far added to the
    destination stays there. *)
Lemma copy_loop_stop pre buf post dst w :
  (∀ j b, pre !! j = Some b →
          (fwrite b dst (fwrites (take j pre) dst w)).1 = length b) →
  (fwrite buf dst (fwrites pre dst w)).1 ≠ length buf →
  copy_loop (pre ++ buf :: post) dst w
  = (IoError, fclose (fclose (fwrites (pre ++ [buf]) dst w))).
Proof.
  revert w. induction pre as [|b pre IH]; intros w Hall Hshort.
  - cbn [app copy_loop]. cbn in Hshort.
    destruct (fwrite buf dst w) as [n w1] eqn:E. cbn [fst] in Hshort.
    apply Nat.eqb_neq in Hshort. rewrite Hshort. cbn [negb].
    by rewrite fwrites_cons, E.
  - cbn [app copy_loop]. pose proof (Hall 0 b eq_refl) as H0. cbn in H0.
    rewrite fwrites_cons in Hshort.
    destruct (fwrite b dst w) as [n w1] eqn:E. cbn [fst snd] in *. subst n.
    rewrite Nat.eqb_refl. cbn [negb]. rewrite fwrites_cons, E. cbn [snd].
    apply IH; [|done]. intros j b' Hj. specialize (Hall (S j) b' Hj).
    cbn [take] in Hall. by rewrite fwrites_cons, E in Hall.
Qed.

(** ** Preparing the destination directory *)

Lemma ensure_dir_mkdirs dstPath w :
  ∃ ts, ensure_dir dstPath w = mkdirs ts w.
Proof.
  unfold ensure_dir. destruct (last_slash _); [|by exists []].
  eexists. apply mkpath_world.
Qed.

Lemma ensure_dir_files dstPath w : w_files (ensure_dir dstPath w) = w_files w.
Proof. destruct (ensure_dir_mkdirs dstPath w) as [ts ->]. apply mkdirs_files. Qed.

Lemma ensure_dir_open dstPath w : w_open (ensure_dir dstPath w) = w_open w.
Proof. destruct (ensure_dir_mkdirs dstPath w) as [ts ->]. apply mkdirs_open. Qed.

Lemma ensure_dir_grows dstPath w : grows w (ensure_dir dstPath w).
Proof. destruct (ensure_dir_mkdirs dstPath w) as [ts ->]. apply mkdirs_grows. Qed.

Lemma ensure_dir_clean dstPath w : clean w → clean (ensure_dir dstPath w).
Proof. destruct (ensure_dir_mkdirs dstPath w) as [ts ->]. apply mkdirs_clean. Qed.

(** For a path that fits the buffers, [ensure_dir] is [mkdir -p] of
    its directory part. *)
Lemma ensure_dir_short dstPath w :
  length dstPath ≤ 1023 →
  ensure_dir dstPath w = mkdirs (targets (dirname dstPath)) w.
Proof.
  intros Hl. unfold ensure_dir, dirname.
  rewrite (firstn_all2 dstPath) by lia.
  destruct (last_slash dstPath) as [i|] eqn:Hi; [|done].
  rewrite mkpath_world. rewrite (firstn_all2 (take i dstPath)); [done|].
  rewrite length_take. lia.
Qed.

Lemma ensure_dir_settled dstPath w :
  length dstPath ≤ 1023 → clean w →
  Forall (settled (ensure_dir dstPath w)) (targets (dirname dstPath))
  ∧ settled (ensure_dir dstPath w) (dirname dstPath).
Proof.
  intros Hl Hc. rewrite ensure_dir_short by done.
  assert (Forall (settled (mkdirs (targets (dirname dstPath)) w))
            (targets (dirname dstPath))) as Hall.
  { apply (mkdirs_settled _ []); [done|apply linked_targets|by left]. }
  split; [done|].
  destruct (decide (dirname dstPath = [])) as [->|Hne]; [by left|].
  apply last_targets in Hne. apply last_Some_elem_of in Hne.
  by eapply Forall_forall in Hall.
Qed.

End CopyFacts.

Module ManifestFacts.
Import Libc LibcSpec LibcFacts CStringFacts.
Import MultiStub MultiStubSpec MkpathFacts ManifestSpec CopyFacts.

Lemma sscanf_line_bounds line n platform filename :
  sscanf_line line = (n, platform, filename) →
  length platform ≤ 159 ∧ length filename ≤ 575.
Proof.
  unfold sscanf_line. destruct line as [|c line]; [intros [= <- <- <-]; simpl; lia|].
  destruct (scanset _ 159 _) as [p r1] eqn:E1.
  apply scanset_spec in E1 as (_ & Hp & _).
  destruct p as [|a p]; [intros [= <- <- <-]; simpl; lia|].
  destruct (scanset _ 575 _) as [f r2] eqn:E2.
  apply scanset_spec in E2 as (_ & Hf & _).
  destruct f; intros [= <- <- <-]; simpl in *; lia.
Qed.

(** Two conversions mean two non-empty fields. *)
Lemma sscanf_line_fields line platform filename :
  sscanf_line line = (2%Z, platform, filename) →
  platform ≠ [] ∧ filename ≠ [] ∧ TAB ∉ platform.
Proof.
  unfold sscanf_line. destruct line as [|c line]; [done|].
  destruct (scanset _ 159 _) as [p r1] eqn:E1.
  apply scanset_spec in E1 as (_ & _ & Hp).
  destruct p as [|a p]; [done|].
  destruct (scanset _ 575 _) as [f r2] eqn:E2.
  destruct f; [done|]. intros [= <- <-]. repeat split; try done.
  intros Hin. rewrite forallb_forall in Hp.
  apply list_elem_of_In, Hp in Hin. by vm_compute in Hin.
Qed.

(** A category and a file name within the widths, one tab between
    them, no white space opening the file name: both are read back as
    they stand. *)
Lemma sscanf_line_wellformed platform filename :
  platform ≠ [] → TAB ∉ platform → length platform ≤ 159 →
  filename ≠ [] → LF ∉ filename → length filename ≤ 575 →
  (∀ c, head filename = Some c → isspace c = false) →
  sscanf_line (platform ++ TAB :: filename) = (2%Z, platform, filename).
Proof.
  intros Hp Htab Hlp Hf Hlf Hlf' Hhd. unfold sscanf_line.
  destruct (platform ++ TAB :: filename) eqn:E; [by destruct platform|].
  rewrite <- E. clear E.
  rewrite (scanset_exact _ 159 platform (TAB :: filename)); [..|reflexivity].
  - destruct platform; [done|].
    destruct filename as [|c filename]; [done|].
    cbn [skip_space]. change (isspace TAB) with true. cbn [skip_space].
    rewrite (Hhd c eq_refl).
    rewrite <- (app_nil_r (c :: filename)) at 1.
    rewrite (scanset_exact _ 575 (c :: filename) []); [done| |done|done].
    apply forallb_forall. intros d Hd. apply list_elem_of_In in Hd.
    apply negb_true_iff, Ascii.eqb_neq. by intros ->.
  - apply forallb_forall. intros c Hc. apply list_elem_of_In in Hc.
    apply negb_true_iff, Ascii.eqb_neq. by intros ->.
  - done.
Qed.

Lemma parse_line_entry raw platform filename :
  parse_line raw = Entry platform filename →
  platform ≠ [] ∧ filename ≠ [] ∧ (TAB ∉ platform)
  ∧ length platform ≤ 159 ∧ length filename ≤ 575.
Proof.
  unfold parse_line. destruct (rtrim is_crlf (cstr raw)) as [|c l]; [done|].
  destruct (sscanf_line (c :: l)) as [[n p] f] eqn:E.
  destruct (Z.eqb_spec n 2) as [->|]; [|done]. intros [= <- <-].
  destruct (sscanf_line_fields _ _ _ E) as (? & ? & ?).
  destruct (sscanf_line_bounds _ _ _ _ E). done.
Qed.

Lemma dstPath_length platform filename :
  length (dstPath_of platform filename)
  = 7 + length platform + length filename.
Proof. unfold dstPath_of. rewrite !length_app. simpl. lia. Qed.

(** The paths fit their buffers: [snprintf] truncates nothing. *)
Lemma process_line_parse raw w :
  process_line raw w =
    match parse_line raw with
    | Blank => ([], w)
    | Bad line => ([EvBadLine line], w)
    | Entry platform filename =>
        let srcPath := srcPath_of filename in
        let dstPath := dstPath_of platform filename in
        let '(rc, w1) := copyFile srcPath dstPath w in
        ([EvCopying srcPath dstPath;
          if R_FAILED rc then EvCopyFailed rc else EvDone], w1)
    end.
Proof.
  unfold process_line, parse_line.
  destruct (rtrim is_crlf (cstr raw)) as [|c l]; [done|].
  destruct (sscanf_line (c :: l)) as [[n p] f] eqn:E.
  destruct (negb (n =? 2)%Z); [done|].
  destruct (sscanf_line_bounds _ _ _ _ E) as [Hp Hf].
  unfold snprintf. rewrite !firstn_all2; [done|..].
  - fold (dstPath_of p f). rewrite dstPath_length. lia.
  - rewrite length_app. simpl. lia.
Qed.

(** A blank or malformed line leaves the store alone, and the loop goes
    on with the next line whatever the line was. *)
Lemma main_loop_cons raw raws w :
  main_loop (raw :: raws) w =
    ((process_line raw w).1 ++ (main_loop raws (process_line raw w).2).1,
     (main_loop raws (process_line raw w).2).2).
Proof.
  simpl. destruct (process_line raw w) as [o1 w1]. simpl.
  by destruct (main_loop raws w1).
Qed.

Lemma main_loop_bad raw raws w line :
  parse_line raw = Bad line →
  main_loop (raw :: raws) w =
    (EvBadLine line :: (main_loop raws w).1, (main_loop raws w).2).
Proof. intros H. by rewrite main_loop_cons, process_line_parse, H. Qed.

(** The line printed for a malformed line is the line as read, less its
    trailing CR and LF. *)
Lemma parse_line_bad raw line :
  parse_line raw = Bad line → line = rtrim is_crlf (cstr raw) ∧ line ≠ [].
Proof.
  unfold parse_line. destruct (rtrim is_crlf (cstr raw)) as [|c l]; [done|].
  destruct (sscanf_line (c :: l)) as [[n p] f].
  destruct (negb (n =? 2)%Z); [|done]. by intros [= <-].
Qed.

Lemma main_loop_blank raw raws w :
  parse_line raw = Blank → main_loop (raw :: raws) w = main_loop raws w.
Proof.
  intros H. rewrite main_loop_cons, process_line_parse, H. simpl.
  by destruct (main_loop raws w).
Qed.

Lemma summary_app out1 out2 :
  summary (out1 ++ out2) =
    mkSummary (attempted (summary out1) + attempted (summary out2))
              (succeeded (summary out1) + succeeded (summary out2))
              (failed (summary out1) + failed (summary out2)).
Proof. unfold summary. simpl. by rewrite !filter_app, !length_app. Qed.

End ManifestFacts.

Module EngineFacts.
Import Libc LibcSpec LibcFacts CStringFacts StdioSpec.
Import MultiStub MultiStubSpec MkpathFacts ManifestSpec CopyFacts ManifestFacts.

Lemma chunk_pos : 0 < 8192.
Proof. apply Nat.ltb_lt. vm_compute. reflexivity. Qed.

Lemma R_FAILED_IoError : R_FAILED IoError = true.
Proof. apply R_FAILED_libnx. Qed.

Lemma R_FAILED_NotFound : R_FAILED NotFound = true.
Proof. apply R_FAILED_libnx. Qed.

Lemma listPath_eq : snprintf 128 (lit "romfs:/" ++ FILELIST) = lit "romfs:/filelist.txt".
Proof. reflexivity. Qed.

Lemma main_mounted romfs_rc pad w list :
  R_FAILED romfs_rc = false →
  w_files w !! lit "romfs:/filelist.txt" = Some list →
  main romfs_rc pad w =
    (0%Z,
     (main_loop (fgets_all 768 list) (set_open (S (w_open w)) w)).1
       ++ [EvPressPlus] ++ pad_loop pad,
     fclose (main_loop (fgets_all 768 list) (set_open (S (w_open w)) w)).2).
Proof.
  intros Hrc Hl. unfold main. rewrite Hrc, listPath_eq.
  unfold fopen_rb. rewrite Hl. by destruct (main_loop _ _).
Qed.

Lemma summary_pad_loop pad : summary (pad_loop pad) = mkSummary 0 0 0.
Proof.
  induction pad as [|k pad IH]; [done|]. simpl.
  destruct (negb _); [done|]. unfold summary in *. simpl.
  rewrite !filter_cons_False by done. exact IH.
Qed.

Lemma copyFile_src_open srcPath dstPath w src :
  w_files w !! srcPath = Some src →
  copyFile srcPath dstPath w =
    let w0 := set_open (S (w_open w)) w in
    match fopen_wb dstPath (ensure_dir dstPath w0) with
    | (None, w2) => (IoError, fclose w2)
    | (Some dst, w2) =>
        copy_loop (fread_all 8192 (after_wb srcPath dstPath src)) dst w2
    end.
Proof. intros H. unfold copyFile, fopen_rb. by rewrite H. Qed.

Lemma after_wb_ne p p' f : p ≠ p' → after_wb p p' f = f.
Proof. intros H. unfold after_wb. by rewrite bool_decide_eq_false_2. Qed.

(** The source of an entry is not its destination: the one is spelled
    with [romfs:/], the other with [/roms/]. *)
Lemma srcPath_dstPath_ne platform filename :
  srcPath_of filename ≠ dstPath_of platform filename.
Proof. done. Qed.

Lemma after_wb_entry platform filename f :
  after_wb (srcPath_of filename) (dstPath_of platform filename) f = f.
Proof. apply after_wb_ne, srcPath_dstPath_ne. Qed.

Lemma copyFile_src_missing srcPath dstPath w :
  w_files w !! srcPath = None → copyFile srcPath dstPath w = (NotFound, w).
Proof. intros H. unfold copyFile, fopen_rb. by rewrite H. Qed.

Lemma fopen_rb_some p w f w0 :
  fopen_rb p w = (Some f, w0) →
  w_files w !! p = Some f ∧ w0 = set_open (S (w_open w)) w.
Proof. unfold fopen_rb. destruct (w_files w !! p); by intros [= <- <-]. Qed.

Lemma main_loop_entry raw raws w platform filename rc w1 :
  parse_line raw = Entry platform filename →
  copyFile (srcPath_of filename) (dstPath_of platform filename) w = (rc, w1) →
  main_loop (raw :: raws) w =
    (EvCopying (srcPath_of filename) (dstPath_of platform filename)
       :: (if R_FAILED rc then EvCopyFailed rc else EvDone)
       :: (main_loop raws w1).1,
     (main_loop raws w1).2).
Proof.
  intros Hp Hc. by rewrite main_loop_cons, process_line_parse, Hp; simpl; rewrite Hc.
Qed.

Lemma ensure_dir_mkpath dstPath w :
  length dstPath ≤ 1023 →
  ensure_dir dstPath w = (mkpath (dirname dstPath) w).2.
Proof.
  intros Hl. unfold ensure_dir, dirname. rewrite (firstn_all2 dstPath) by lia.
  by destruct (last_slash dstPath).
Qed.

(** Claim C2.  A short write aborts the copy of that one file.  Take a
    manifest line that parses to an entry whose source and destination
    both open, and let [buf] be the first chunk for which [fwrite] does
    not return the number of bytes read: for the chunks before it,
    [pre], every call returned the length of its chunk.  Then [copyFile]
    answers the I/O error and every stream it opened is closed again
    ([w_open] is back at its value).  The destination is still there and
    holds exactly what the medium took of the chunks up to and including
    [buf], which is less than the source holds: nothing of it is taken
    back, and the chunks after [buf] are never written.  No other file is
    touched, and the loop prints "Copy failed" and goes on with the lines
    that follow. *)
Theorem short_write_aborts_entry raw raws w platform filename src w0 dst w2
    pre buf post :
  parse_line raw = Entry platform filename →
  fopen_rb (srcPath_of filename) w = (Some src, w0) →
  fopen_wb (dstPath_of platform filename)
           (ensure_dir (dstPath_of platform filename) w0) = (Some dst, w2) →
  fread_all 8192 src = pre ++ buf :: post →
  (∀ j b, pre !! j = Some b →
          (fwrite b dst (fwrites (take j pre) dst w2)).1 = length b) →
  (fwrite buf dst (fwrites pre dst w2)).1 ≠ length buf →
  ∃ w3,
    copyFile (srcPath_of filename) (dstPath_of platform filename) w = (IoError, w3)
    ∧ w_open w3 = w_open w
    ∧ w_files w3 !! dstPath_of platform filename
      = Some (stored (w_quota w2) (pre ++ [buf]))
    ∧ length (stored (w_quota w2) (pre ++ [buf])) < length src
    ∧ (∀ p, p ≠ dstPath_of platform filename → w_files w3 !! p = w_files w !! p)
    ∧ main_loop (raw :: raws) w =
        (EvCopying (srcPath_of filename) (dstPath_of platform filename)
           :: EvCopyFailed IoError :: (main_loop raws w3).1,
         (main_loop raws w3).2).
Proof.
  intros Hparse Hsrc Hdst Hchunks Hpre Hshort.
  apply fopen_rb_some in Hsrc as [Hsrc ->].
  pose proof (copy_loop_stop pre buf post dst w2 Hpre Hshort) as Hrun.
  pose proof Hdst as Hdst'.
  apply fopen_wb_some in Hdst' as (-> & _ & _ & Hf2 & _ & Ho2 & _).
  set (d := dstPath_of platform filename) in *.
  set (w3 := fclose (fclose (fwrites (pre ++ [buf]) d w2))) in *.
  destruct (fwrites_store (pre ++ [buf]) d w2) as (_ & Ho3 & _ & Hf3 & Hold3).
  assert (copyFile (srcPath_of filename) d w = (IoError, w3)) as Hcopy.
  { rewrite (copyFile_src_open _ _ _ src) by done. cbn zeta.
    rewrite Hdst. unfold d. by rewrite after_wb_entry, Hchunks. }
  exists w3. split; [done|]. split.
  { cbn [w3 fclose set_open w_open]. rewrite Ho3, Ho2, ensure_dir_open. done. }
  split.
  { cbn [w3 fclose set_open w_files]. rewrite (Hold3 []); [done|].
    by rewrite Hf2, lookup_insert_eq. }
  split.
  { destruct (fwrite_short_lost _ _ _ Hshort) as (q & Hq & Hlt).
    destruct (fwrites_store pre d w2) as (_ & _ & Hq3 & _). rewrite Hq3 in Hq.
    assert (w_quota w2 !! length pre = Some q) as Hq'.
    { rewrite <- Hq. destruct (drop (length pre) (w_quota w2)) as [|q0 qs] eqn:E.
      - rewrite <- (Nat.add_0_r (length pre)), <- lookup_drop, E. done.
      - rewrite <- (Nat.add_0_r (length pre)), <- lookup_drop, E. done. }
    assert (length (concat (pre ++ [buf])) ≤ length src) as Hle.
    { rewrite <- (fread_all_concat 8192 src) by apply chunk_pos.
      rewrite Hchunks, !concat_app, !length_app. cbn [concat].
      rewrite app_nil_r, !length_app. lia. }
    pose proof (stored_short (w_quota w2) (pre ++ [buf]) (length pre) buf q) as Hs.
    rewrite lookup_app_r, Nat.sub_diag in Hs by lia.
    specialize (Hs eq_refl Hq' Hlt). lia. }
  split.
  { intros p Hp. cbn [w3 fclose set_open w_files]. rewrite Hf3 by done.
    rewrite Hf2, lookup_insert_ne by done.
    by rewrite ensure_dir_files. }
  rewrite (main_loop_entry _ _ _ _ _ _ _ Hparse Hcopy).
  by rewrite R_FAILED_IoError.
Qed.

Lemma short_write_aborts_entry_witness :
  parse_line Demo.entry_line = Entry (lit "snes") (lit "game.sfc")
  ∧ ∃ w3,
      copyFile (lit "romfs:/game.sfc") (lit "/roms/snes/game.sfc") Chunks.w_short
        = (IoError, w3)
      ∧ w_open w3 = w_open Chunks.w_short
      ∧ w_files w3 !! lit "/roms/snes/game.sfc" = Some (lit "RRR")
      ∧ main_loop [Demo.entry_line] Chunks.w_short =
          (EvCopying (lit "romfs:/game.sfc") (lit "/roms/snes/game.sfc")
             :: EvCopyFailed IoError :: (main_loop [] w3).1,
           (main_loop [] w3).2).
Proof.
  split; [vm_compute; reflexivity|].
  destruct (short_write_aborts_entry Demo.entry_line [] Chunks.w_short
              (lit "snes") (lit "game.sfc") Chunks.rom
              (set_open 1 Chunks.w_short) (lit "/roms/snes/game.sfc")
              (fopen_wb (lit "/roms/snes/game.sfc")
                 (ensure_dir (lit "/roms/snes/game.sfc")
                    (set_open 1 Chunks.w_short))).2
              [] (repeat "R"%char 8192) [lit "TAIL"])
    as (w3 & H1 & H2 & H3 & _ & _ & H6).
  - vm_compute; reflexivity.
  - vm_compute; reflexivity.
  - vm_compute; reflexivity.
  - vm_compute; reflexivity.
  - intros j b Hj. done.
  - apply Nat.eqb_neq. vm_compute. reflexivity.
  - exists w3. split; [exact H1|]. split; [exact H2|]. split; [|exact H6].
    refine (eq_trans H3 _). vm_compute. reflexivity.
Defined.

(** Claim C8.  A directory that cannot be made fails the entry, not the
    batch.  Take a manifest line that parses to an entry whose source
    opens.  If [mkpath] on the directory of the destination answers
    [-1], that is if the last [mkdir] failed with anything but
    [EEXIST], then the destination does not open, [copyFile] answers
    the I/O error with the source stream closed and no file changed,
    the loop prints "Copy failed" (one more failed entry in the counts
    read off the console) and goes on with the lines that follow. *)
Theorem mkdir_failure_fails_entry raw raws w platform filename src w0 w1 :
  parse_line raw = Entry platform filename →
  fopen_rb (srcPath_of filename) w = (Some src, w0) →
  mkpath (dirname (dstPath_of platform filename)) w0 = ((-1)%Z, w1) →
  copyFile (srcPath_of filename) (dstPath_of platform filename) w
    = (IoError, fclose w1)
  ∧ w_files (fclose w1) = w_files w
  ∧ w_open (fclose w1) = w_open w
  ∧ main_loop (raw :: raws) w =
      (EvCopying (srcPath_of filename) (dstPath_of platform filename)
         :: EvCopyFailed IoError :: (main_loop raws (fclose w1)).1,
       (main_loop raws (fclose w1)).2)
  ∧ failed (summary (main_loop (raw :: raws) w).1)
    = S (failed (summary (main_loop raws (fclose w1)).1)).
Proof.
  intros Hparse Hsrc Hmk.
  apply fopen_rb_some in Hsrc as [Hsrc ->].
  destruct (parse_line_entry _ _ _ Hparse) as (_ & _ & _ & Hlp & Hlf).
  assert (length (dstPath_of platform filename) ≤ 1023) as Hlen.
  { rewrite dstPath_length. lia. }
  pose proof (mkpath_failed _ _ _ Hmk) as [Hne Hnd].
  rewrite firstn_all2 in Hnd
    by (pose proof (dirname_length (dstPath_of platform filename)); lia).
  assert (copyFile (srcPath_of filename) (dstPath_of platform filename) w
          = (IoError, fclose w1)) as Hcopy.
  { rewrite (copyFile_src_open _ _ _ src) by done. simpl.
    rewrite ensure_dir_mkpath, Hmk by done. simpl.
    unfold fopen_wb, fopen_write. rewrite Hnd. cbn [negb].
    destruct (is_dir w1 (dstPath_of platform filename)); reflexivity. }
  split; [done|].
  assert (w1 = (mkpath (dirname (dstPath_of platform filename))
                  (set_open (S (w_open w)) w)).2) as Hw1 by (by rewrite Hmk).
  rewrite mkpath_world in Hw1.
  split; [simpl; by rewrite Hw1, mkdirs_files|].
  split; [simpl; by rewrite Hw1, mkdirs_open|].
  rewrite (main_loop_entry _ _ _ _ _ _ _ Hparse Hcopy).
  rewrite R_FAILED_IoError. split; [done|].
  reflexivity.
Qed.

Lemma mkdir_failure_fails_entry_witness :
  mkpath (lit "/roms/snes") (set_open 1 Demo.w_refused)
    = ((-1)%Z, mkWorld Demo.romfs ∅ 1 [])
  ∧ copyFile (lit "romfs:/game.sfc") (lit "/roms/snes/game.sfc") Demo.w_refused
      = (IoError, fclose (mkWorld Demo.romfs ∅ 1 []))
  ∧ failed (summary (main_loop [Demo.entry_line] Demo.w_refused).1)
    = S (failed (summary (main_loop [] (fclose (mkWorld Demo.romfs ∅ 1 []))).1)).
Proof.
  split; [vm_compute; reflexivity|].
  destruct (mkdir_failure_fails_entry Demo.entry_line [] Demo.w_refused
              (lit "snes") (lit "game.sfc") (lit "ROMDATA")
              (set_open 1 Demo.w_refused) (mkWorld Demo.romfs ∅ 1 []))
    as (H1 & _ & _ & _ & H5).
  - vm_compute; reflexivity.
  - vm_compute; reflexivity.
  - vm_compute; reflexivity.
  - split; [exact H1|exact H5].
Defined.

Lemma main_missing romfs_rc pad w :
  R_FAILED romfs_rc = false →
  w_files w !! lit "romfs:/filelist.txt" = None →
  main romfs_rc pad w = (0%Z, [EvMissingList; EvPressPlus] ++ pad_loop pad, w).
Proof.
  intros Hrc Hl. unfold main. rewrite Hrc, listPath_eq.
  unfold fopen_rb. by rewrite Hl.
Qed.

(** Claim C4.  When [romfs:/filelist.txt] does not open, [main] prints
    the one line "Missing filelist.txt in RomFS." (then the exit prompt
    and the input loop), attempts no copy, so that the counts read off
    the console are all zero, and hands back the store exactly as it
    found it: no file or directory is created or modified. *)
Theorem missing_manifest_touches_nothing romfs_rc pad w :
  R_FAILED romfs_rc = false →
  w_files w !! lit "romfs:/filelist.txt" = None →
  main romfs_rc pad w = (0%Z, [EvMissingList; EvPressPlus] ++ pad_loop pad, w)
  ∧ summary (main romfs_rc pad w).1.2 = mkSummary 0 0 0.
Proof.
  intros Hrc Hl. rewrite (main_missing romfs_rc pad w Hrc Hl).
  split; [done|]. cbn [fst snd].
  by rewrite (summary_app [EvMissingList; EvPressPlus]), summary_pad_loop.
Qed.

Lemma missing_manifest_touches_nothing_witness :
  w_files Demo.w_bare !! lit "romfs:/filelist.txt" = None
  ∧ main 0 [] Demo.w_bare
    = (0%Z, [EvMissingList; EvPressPlus] ++ pad_loop [], Demo.w_bare)
  ∧ summary (main 0 [] Demo.w_bare).1.2 = mkSummary 0 0 0.
Proof.
  split; [reflexivity|].
  apply (missing_manifest_touches_nothing 0 [] Demo.w_bare); reflexivity.
Defined.

(** Claim C1, at the input where the code leaves it.  A line of 160
    letters has no tab, hence not the two-field shape, yet [sscanf]
    reports two conversions: the first stops at its width of 159, the
    white-space directive matches the empty run, and the last letter
    becomes the file name.  The loop does not print "Bad manifest
    line"; it goes on to copy [romfs:/a]. *)
Theorem tabless_line_accepted :
  (TAB ∉ tabless_line)
  ∧ sscanf_line tabless_line = (2%Z, repeat "a"%char 159, ["a"%char])
  ∧ ∀ w, ∃ rc,
      (process_line (tabless_line ++ [LF]) w).1
      = [EvCopying (lit "romfs:/a")
                   (lit "/roms/" ++ repeat "a"%char 159 ++ lit "/a");
         if R_FAILED rc then EvCopyFailed rc else EvDone].
Proof.
  split; [|split].
  - intros Hin. apply list_elem_of_In, repeat_spec in Hin. discriminate.
  - vm_compute. reflexivity.
  - intros w. rewrite process_line_parse.
    assert (parse_line (tabless_line ++ [LF])
            = Entry (repeat "a"%char 159) ["a"%char]) as -> by (vm_compute; reflexivity).
    simpl. destruct (copyFile _ _ w) as [rc w1]. by exists rc.
Qed.

End EngineFacts.

Module RerunFacts.
Import Libc LibcSpec LibcFacts CStringFacts.
Import MultiStub MultiStubSpec MkpathFacts ManifestSpec CopyFacts ManifestFacts.
Import EngineFacts RerunSpec.

(** ** What one copy does to the store, faults or not *)

Lemma set_open_grows n w : grows w (set_open n w).
Proof. by apply grows_same_fs. Qed.

Lemma copyFile_from_dir srcPath dstPath w src :
  w_files w !! srcPath = Some src →
  let wm := ensure_dir dstPath (set_open (S (w_open w)) w) in
  let w' := (copyFile srcPath dstPath w).2 in
  grows wm w'
  ∧ w_dirs w' = w_dirs wm
  ∧ w_open w' = w_open w
  ∧ ∀ p, p ≠ dstPath → w_files w' !! p = w_files w !! p.
Proof.
  intros Hsrc. cbn zeta. rewrite (copyFile_src_open _ _ _ src) by done.
  cbn zeta. set (wm := ensure_dir dstPath (set_open (S (w_open w)) w)).
  assert (w_files wm = w_files w) as Hfm by (unfold wm; by rewrite ensure_dir_files).
  assert (w_open wm = S (w_open w)) as Hom by (unfold wm; by rewrite ensure_dir_open).
  destruct (fopen_wb dstPath wm) as [[dst|] w2] eqn:E.
  - pose proof (fopen_write_grows false dstPath wm) as Hg.
    fold fopen_wb in Hg. rewrite E in Hg.
    apply fopen_wb_some in E as (-> & _ & _ & Hf2 & Hd2 & Ho2 & _).
    destruct (copy_loop_frame (fread_all 8192 (after_wb srcPath dstPath src))
                dstPath w2) as (Hd3 & Ho3 & Hf3 & Hg3).
    split; [by eapply grows_trans|]. split; [congruence|].
    split; [rewrite Ho3, Ho2, Hom; done|].
    intros p Hp. rewrite Hf3, Hf2, lookup_insert_ne by done. by rewrite Hfm.
  - pose proof (fopen_write_grows false dstPath wm) as Hg.
    fold fopen_wb in Hg. rewrite E in Hg.
    apply fopen_wb_none in E as (Hf2 & Hd2 & Ho2). simpl.
    split; [eapply grows_trans; [exact Hg|apply fclose_grows]|].
    split; [done|]. split; [by rewrite Ho2, Hom|].
    intros p _. by rewrite Hf2, Hfm.
Qed.

Lemma copyFile_frame srcPath dstPath w :
  let w' := (copyFile srcPath dstPath w).2 in
  grows w w' ∧ w_open w' = w_open w
  ∧ ∀ p, p ≠ dstPath → w_files w' !! p = w_files w !! p.
Proof.
  cbn zeta. destruct (w_files w !! srcPath) as [src|] eqn:Hsrc.
  - destruct (copyFile_from_dir srcPath dstPath w src Hsrc) as (Hg & _ & Ho & Hf).
    split; [|done].
    eapply grows_trans; [apply set_open_grows|].
    eapply grows_trans; [apply ensure_dir_grows|exact Hg].
  - rewrite copyFile_src_missing by done. split; [apply grows_refl|done].
Qed.

(** A destination path never names a file of the RomFS. *)
Lemma dstPath_head platform filename :
  head (dstPath_of platform filename) = Some SLASH.
Proof. done. Qed.

Lemma process_line_frame raw w :
  let w' := (process_line raw w).2 in
  grows w w' ∧ w_open w' = w_open w
  ∧ ∀ p, head p ≠ Some SLASH → w_files w' !! p = w_files w !! p.
Proof.
  cbn zeta. rewrite process_line_parse.
  destruct (parse_line raw) as [|line|platform filename];
    try (split; [apply grows_refl|done]).
  cbn zeta.
  destruct (copyFile_frame (srcPath_of filename) (dstPath_of platform filename) w)
    as (Hg & Ho & Hf).
  destruct (copyFile _ _ w) as [rc w1]. simpl in *.
  split; [done|]. split; [done|].
  intros p Hp. apply Hf. intros ->. by rewrite dstPath_head in Hp.
Qed.

Lemma main_loop_frame raws w :
  let w' := (main_loop raws w).2 in
  grows w w' ∧ w_open w' = w_open w
  ∧ ∀ p, head p ≠ Some SLASH → w_files w' !! p = w_files w !! p.
Proof.
  cbn zeta. revert w. induction raws as [|raw raws IH]; intros w.
  { split; [apply grows_refl|done]. }
  rewrite main_loop_cons. cbn [snd].
  destruct (process_line_frame raw w) as (Hg & Ho & Hf).
  destruct (IH (process_line raw w).2) as (Hg' & Ho' & Hf').
  split; [by eapply grows_trans|]. split; [congruence|].
  intros p Hp. by rewrite Hf', Hf.
Qed.

(** ** One copy on a medium without pending faults *)

Lemma copy_loop_clean_world chunks dst w :
  clean w → clean (copy_loop chunks dst w).2.
Proof.
  revert w. induction chunks as [|buf chunks IH]; intros w Hc; simpl; [done|].
  rewrite fwrite_clean_spec by done. rewrite Nat.eqb_refl. simpl.
  by apply IH.
Qed.

Lemma copyFile_clean srcPath dstPath w src :
  clean w → w_files w !! srcPath = Some src →
  let wm := ensure_dir dstPath (set_open (S (w_open w)) w) in
  let r := copyFile srcPath dstPath w in
  clean r.2 ∧ w_dirs r.2 = w_dirs wm
  ∧ if is_dir wm dstPath || negb (is_dir wm (dirname dstPath))
    then r.1 = IoError ∧ w_files r.2 = w_files w
    else r.1 = 0%Z
         ∧ w_files r.2 = <[dstPath := after_wb srcPath dstPath src]> (w_files w).
Proof.
  intros Hc Hsrc. cbn zeta. rewrite (copyFile_src_open _ _ _ src) by done.
  cbn zeta. set (wm := ensure_dir dstPath (set_open (S (w_open w)) w)).
  assert (clean wm) as Hcm by (by apply ensure_dir_clean).
  assert (w_files wm = w_files w) as Hfm by (unfold wm; by rewrite ensure_dir_files).
  fold fopen_wb. unfold fopen_wb. rewrite fopen_write_clean_spec by done.
  destruct (is_dir wm dstPath || negb (is_dir wm (dirname dstPath))); simpl.
  { by rewrite Hfm. }
  erewrite copy_loop_clean; [|done|by simpl; rewrite lookup_insert_eq].
  simpl. rewrite fread_all_concat by apply chunk_pos.
  by rewrite insert_insert_eq, Hfm.
Qed.

Lemma process_line_clean raw w : clean w → clean (process_line raw w).2.
Proof.
  intros Hc. rewrite process_line_parse.
  destruct (parse_line raw) as [|line|platform filename]; try done.
  cbn zeta. set (s := srcPath_of filename). set (d := dstPath_of platform filename).
  destruct (w_files w !! s) as [src|] eqn:Hsrc.
  - destruct (copyFile_clean s d w src Hc Hsrc) as (H & _).
    by destruct (copyFile s d w).
  - by rewrite copyFile_src_missing.
Qed.

Lemma main_loop_clean raws w : clean w → clean (main_loop raws w).2.
Proof.
  revert w. induction raws as [|raw raws IH]; intros w Hc; [done|].
  rewrite main_loop_cons. apply IH. by apply process_line_clean.
Qed.

End RerunFacts.

Module RerunProof.
Import Libc LibcSpec LibcFacts CStringFacts.
Import MultiStub MultiStubSpec MkpathFacts ManifestSpec CopyFacts ManifestFacts.
Import EngineFacts RerunSpec RerunFacts.

Lemma main_loop_snd_cons raw raws w :
  (main_loop (raw :: raws) w).2 = (main_loop raws (process_line raw w).2).2.
Proof. by rewrite main_loop_cons. Qed.

(** In the final state of the first run there is nothing left to
    create at a settled path. *)
Lemma settled_noop W w' t :
  w_dirs w' = w_dirs W → (∀ p, is_file w' p = is_file W p) →
  settled W t →
  path_exists w' t = true ∨ is_dir w' (dirname t) = false.
Proof.
  intros Hd Hf [Hdir|Hs]; unfold path_exists.
  - left. by rewrite (is_dir_ext W w'), Hdir.
  - apply stuck_inv in Hs as [_ [Hfile|Hpar]].
    + left. rewrite Hf, Hfile. apply orb_true_r.
    + right. by rewrite (is_dir_ext W w').
Qed.

Lemma is_file_insert w p q data f :
  w_files w = <[p := data]> f →
  is_file w q = bool_decide (p = q) || bool_decide (is_Some (f !! q)).
Proof.
  intros Hw. unfold is_file. rewrite Hw.
  destruct (decide (p = q)) as [->|Hne].
  - rewrite lookup_insert_eq, bool_decide_eq_true_2 by done.
    by rewrite bool_decide_eq_true_2.
  - rewrite lookup_insert_ne by done.
    by rewrite (bool_decide_eq_false_2 (p = q)).
Qed.

Lemma sim_step raw raws w w' :
  sim (main_loop (raw :: raws) w).2 w w' →
  (process_line raw w').1 = (process_line raw w).1
  ∧ sim (main_loop (raw :: raws) w).2 (process_line raw w).2 (process_line raw w').2.
Proof.
  set (W := (main_loop (raw :: raws) w).2). intros [Hc Hc' Hdirs Hdom Hfiles].
  assert (grows (process_line raw w).2 W) as HgW.
  { unfold W. rewrite main_loop_snd_cons. apply main_loop_frame. }
  assert (∀ p, head p ≠ Some SLASH → w_files w' !! p = w_files w !! p) as Hrom.
  { intros p Hp. destruct (Hfiles p) as [->| ->]; [done|].
    unfold W. by apply main_loop_frame. }
  revert HgW. rewrite !process_line_parse.
  destruct (parse_line raw) as [|line|platform filename] eqn:Hparse;
    try (intros _; split; [done|by split]).
  cbn zeta. set (s := srcPath_of filename). set (d := dstPath_of platform filename).
  assert (w_files w' !! s = w_files w !! s) as Hs by (by apply Hrom).
  destruct (w_files w !! s) as [src|] eqn:Hsrc.
  2:{ rewrite !copyFile_src_missing by done. intros _. split; [done|by split]. }
  destruct (parse_line_entry _ _ _ Hparse) as (_ & _ & _ & Hlp & Hlf).
  assert (length d ≤ 1023) as Hlen by (unfold d; rewrite dstPath_length; lia).
  (* the first run *)
  destruct (copyFile_clean s d w src Hc Hsrc) as (Hc1 & Hd1 & Hcase1).
  destruct (copyFile_from_dir s d w src Hsrc) as (Hg1 & _).
  set (wm := ensure_dir d (set_open (S (w_open w)) w)) in *.
  destruct (ensure_dir_settled d (set_open (S (w_open w)) w) Hlen Hc)
    as [Hall Hlast]. fold wm in Hall, Hlast.
  (* the second run finds every directory in place *)
  destruct (copyFile_clean s d w' src Hc' Hs) as (Hc2 & Hd2 & Hcase2).
  set (wm' := ensure_dir d (set_open (S (w_open w')) w')) in *.
  destruct (copyFile s d w) as [rc1 w1] eqn:E1.
  destruct (copyFile s d w') as [rc2 w2] eqn:E2.
  cbn [fst snd] in *. intros HgW.
  assert (grows wm W) as HgmW by (by eapply grows_trans).
  assert (wm' = set_open (S (w_open w')) w') as Hwm'.
  { unfold wm'. rewrite ensure_dir_short by done. apply mkdirs_noop.
    eapply Forall_impl; [exact Hall|]. intros t Ht.
    apply (settled_noop W); [done|done|]. by eapply settled_grows. }
  assert (w_dirs wm' = w_dirs W) as Hdm' by (by rewrite Hwm').
  assert (is_dir wm' d || negb (is_dir wm' (dirname d))
          = is_dir wm d || negb (is_dir wm (dirname d))) as Hcond.
  { rewrite !(is_dir_ext W wm') by done.
    destruct (is_dir wm d) eqn:Hdd.
    { by rewrite (grows_dirs _ _ HgmW d Hdd). }
    destruct (is_dir wm (dirname d)) eqn:Hdp; simpl.
    - rewrite (grows_dirs _ _ HgmW _ Hdp), orb_false_r.
      simpl in Hcase1. destruct Hcase1 as [_ Hf1].
      apply (stuck_not_dir W), (grows_stuck _ _ HgW), stuck_file.
      + by rewrite (is_dir_ext wm w1).
      + rewrite (is_file_insert w1 d d src (w_files w)) by done.
        by rewrite bool_decide_eq_true_2.
    - destruct Hlast as [?|Hstuck]; [congruence|].
      apply (grows_stuck _ _ HgmW), stuck_not_dir in Hstuck.
      rewrite Hstuck. apply orb_true_r. }
  rewrite Hcond in Hcase2.
  destruct (is_dir wm d || negb (is_dir wm (dirname d))).
  - destruct Hcase1 as [-> Hf1], Hcase2 as [-> Hf2]. split; [done|].
    split; try done.
    + congruence.
    + intros p. unfold is_file. rewrite Hf2. apply Hdom.
    + intros p. rewrite Hf1, Hf2. apply Hfiles.
  - destruct Hcase1 as [-> Hf1], Hcase2 as [-> Hf2]. split; [done|].
    split; try done.
    + congruence.
    + intros p. rewrite (is_file_insert w2 d p src (w_files w')) by done.
      destruct (decide (d = p)) as [<-|Hne].
      * rewrite bool_decide_eq_true_2 by done. symmetry.
        apply (grows_files _ _ HgW).
        rewrite (is_file_insert w1 d d src (w_files w)) by done.
        by rewrite bool_decide_eq_true_2.
      * rewrite (bool_decide_eq_false_2 (d = p)) by done. apply Hdom.
    + intros p. rewrite Hf1, Hf2.
      destruct (decide (d = p)) as [<-|Hne].
      * left. by rewrite !lookup_insert_eq.
      * rewrite !lookup_insert_ne by done. apply Hfiles.
Qed.

Lemma sim_run raws w w' :
  sim (main_loop raws w).2 w w' →
  (main_loop raws w').1 = (main_loop raws w).1
  ∧ w_files (main_loop raws w').2 = w_files (main_loop raws w).2
  ∧ w_dirs (main_loop raws w').2 = w_dirs (main_loop raws w).2.
Proof.
  revert w w'. induction raws as [|raw raws IH]; intros w w' Hsim.
  - destruct Hsim as [_ _ Hd _ Hf]. simpl in *. split; [done|]. split; [|done].
    apply map_eq. intros p. by destruct (Hf p).
  - destruct (sim_step raw raws w w' Hsim) as [Hout Hsim'].
    rewrite main_loop_snd_cons in Hsim'.
    destruct (IH _ _ Hsim') as (Ho & Hf & Hd).
    rewrite !main_loop_cons. cbn [fst snd]. by rewrite Hout, Ho.
Qed.

Lemma main_unmounted romfs_rc pad w :
  R_FAILED romfs_rc = true →
  main romfs_rc pad w
  = (0%Z, [EvRomfsInitFailed romfs_rc; EvPressPlus] ++ pad_loop pad, w).
Proof. intros Hrc. unfold main. by rewrite Hrc. Qed.

Lemma main_twice romfs_rc pad w :
  clean w →
  let r1 := main romfs_rc pad w in
  let r2 := main romfs_rc pad r1.2 in
  w_files r2.2 = w_files r1.2 ∧ w_dirs r2.2 = w_dirs r1.2 ∧ r2.1 = r1.1.
Proof.
  intros Hc. cbn zeta. destruct (R_FAILED romfs_rc) eqn:Hrc.
  { rewrite (main_unmounted romfs_rc pad w) by done. cbn [fst snd].
    by rewrite main_unmounted. }
  destruct (w_files w !! lit "romfs:/filelist.txt") as [list|] eqn:Hl.
  2:{ pose proof (main_missing romfs_rc pad w Hrc Hl) as Hm.
      rewrite Hm. cbn [fst snd]. by rewrite Hm. }
  rewrite (main_mounted romfs_rc pad w list) by done. cbn [fst snd].
  set (w0 := set_open (S (w_open w)) w).
  set (w1 := (main_loop (fgets_all 768 list) w0).2).
  assert (w_files (fclose w1) !! lit "romfs:/filelist.txt" = Some list) as Hl'.
  { simpl. unfold w1.
    rewrite (proj2 (proj2 (main_loop_frame _ w0))) by done. exact Hl. }
  rewrite (main_mounted romfs_rc pad (fclose w1) list) by done. cbn [fst snd].
  set (w0' := set_open (S (w_open (fclose w1))) (fclose w1)).
  assert (sim (main_loop (fgets_all 768 list) w0).2 w0 w0') as Hsim.
  { split; try done; [by apply (main_loop_clean _ w0)|by right]. }
  destruct (sim_run _ _ _ Hsim) as (Ho & Hf & Hd).
  split; [done|]. split; [done|]. by rewrite Ho.
Qed.

(** Claim C3.  Running the stub twice is running it once.  On a medium
    without pending faults, a second run of [main] over the store the
    first run left ends with the same files, byte for byte, and the same
    directories, and prints what the first run printed: no entry fails
    in the second run that did not fail in the first.  For [mkpath]
    itself: when every segment of the path already exists, every
    [mkdir] answers [EEXIST], the value is [0] and the store is left as
    it was. *)
Theorem rerun_is_idempotent romfs_rc pad w :
  clean w →
  w_files (main romfs_rc pad (main romfs_rc pad w).2).2
    = w_files (main romfs_rc pad w).2
  ∧ w_dirs (main romfs_rc pad (main romfs_rc pad w).2).2
    = w_dirs (main romfs_rc pad w).2
  ∧ (main romfs_rc pad (main romfs_rc pad w).2).1 = (main romfs_rc pad w).1
  ∧ ∀ path w0,
      Forall (fun t => path_exists w0 t = true) (targets (take 1023 path)) →
      mkpath path w0 = (0%Z, w0).
Proof.
  intros Hc. destruct (main_twice romfs_rc pad w Hc) as (Hf & Hd & Ho).
  repeat split; try done. apply mkpath_exists.
Qed.

Lemma rerun_is_idempotent_witness :
  clean Demo.w_card
  ∧ w_files (main 0 [] (main 0 [] Demo.w_card).2).2
    = w_files (main 0 [] Demo.w_card).2
  ∧ w_dirs (main 0 [] (main 0 [] Demo.w_card).2).2
    = w_dirs (main 0 [] Demo.w_card).2
  ∧ (main 0 [] (main 0 [] Demo.w_card).2).1 = (main 0 [] Demo.w_card).1.
Proof.
  split; [reflexivity|].
  destruct (rerun_is_idempotent 0 [] Demo.w_card eq_refl) as (H1 & H2 & H3 & _).
  auto.
Defined.

End RerunProof.

Module ScenarioFacts.
Import Libc LibcSpec LibcFacts CStringFacts.
Import MultiStub MultiStubSpec MkpathFacts ManifestSpec CopyFacts ManifestFacts.
Import EngineFacts RerunSpec RerunFacts.

Lemma mkdir_dirs t w p :
  p ∈ w_dirs (mkdir t w).2 → p ∈ w_dirs w ∨ p = t.
Proof.
  unfold mkdir. destruct (path_exists w t); [by left|].
  destruct (negb (is_dir w (dirname t))); [by left|].
  ask_medium w as (Hd & _ & _).
  destruct q as [[|?]|]; simpl; rewrite ?Hd; try (by left).
  all: rewrite elem_of_union, elem_of_singleton; tauto.
Qed.

Lemma mkdirs_dirs ts w p :
  p ∈ w_dirs (mkdirs ts w) → p ∈ w_dirs w ∨ p ∈ ts.
Proof.
  revert w. induction ts as [|t ts IH]; intros w; simpl; [by left|].
  intros [H|H]%IH.
  - apply mkdir_dirs in H as [?| ->]; [by left|right; apply list_elem_of_here].
  - right. by apply list_elem_of_further.
Qed.

Lemma walk_targets_length pre rest t :
  t ∈ walk_targets pre rest → length t ≤ length pre + length rest.
Proof.
  revert pre. induction rest as [|c rest IH]; intros pre; simpl.
  { by intros ?%elem_of_nil. }
  rewrite elem_of_app. intros [H|H].
  - destruct (Ascii.eqb c SLASH); [|by apply elem_of_nil in H].
    apply list_elem_of_singleton in H as ->. lia.
  - apply IH in H. rewrite length_app in H. simpl in H. lia.
Qed.

Lemma targets_length tmp t : t ∈ targets tmp → length t ≤ length tmp.
Proof.
  destruct tmp as [|c0 rest]; [by intros ?%elem_of_nil|]. unfold targets.
  rewrite elem_of_app. intros [H|H].
  - apply walk_targets_length in H. simpl in *. lia.
  - by apply list_elem_of_singleton in H as ->.
Qed.

Lemma dirname_shorter p : p ≠ [] → length (dirname p) < length p.
Proof.
  intros Hp. unfold dirname. destruct (last_slash p) as [i|] eqn:Hi.
  - apply last_slash_lt in Hi. rewrite length_take. lia.
  - destruct p; [done|]. simpl. lia.
Qed.

(** Where no regular file lies in the way, nothing is stuck. *)
Lemma linked_not_stuck w d ts :
  linked d ts → ¬ stuck w d →
  Forall (fun t => is_file w t = false) ts →
  Forall (fun t => ¬ stuck w t) ts.
Proof.
  revert d. induction ts as [|t ts IH]; intros d Hl Hd Hall; [done|].
  destruct Hl as [Ht Hl]. apply Forall_cons in Hall as [Hf Hall].
  assert (¬ stuck w t) as Hns.
  { intros Hs. inversion Hs as [? ? Hfile|? ? Hpar]; [congruence|].
    by rewrite Ht in Hpar. }
  constructor; [done|]. by apply (IH t).
Qed.

Lemma root_not_stuck w : ¬ stuck w [].
Proof. by intros Hs%stuck_not_dir. Qed.

(** A copy succeeds, byte for byte, when the medium is healthy, the
    source exists and is not the destination, no regular file sits where
    a directory of the destination has to be, and the destination is not
    a directory. *)
Lemma copy_succeeds srcPath dstPath w src :
  clean w → w_files w !! srcPath = Some src →
  srcPath ≠ dstPath →
  length dstPath ≤ 1023 →
  Forall (fun t => is_file w t = false) (targets (dirname dstPath)) →
  is_dir w dstPath = false →
  (copyFile srcPath dstPath w).1 = 0%Z
  ∧ w_files (copyFile srcPath dstPath w).2 = <[dstPath := src]> (w_files w).
Proof.
  intros Hc Hsrc Hne Hlen Hnf Hnd.
  destruct (copyFile_clean srcPath dstPath w src Hc Hsrc) as (_ & _ & Hcase).
  rewrite (after_wb_ne _ _ _ Hne) in Hcase. clear Hne.
  set (w0 := set_open (S (w_open w)) w) in *.
  set (wm := ensure_dir dstPath w0) in *.
  destruct (ensure_dir_settled dstPath w0 Hlen Hc) as [Hall Hlast].
  fold wm in Hall, Hlast.
  assert (is_dir wm (dirname dstPath) = true) as Hpar.
  { destruct Hlast as [?|Hs]; [done|]. exfalso.
    destruct (decide (dirname dstPath = [])) as [E|Hne].
    { rewrite E in Hs. by apply root_not_stuck in Hs. }
    assert (Forall (fun t => ¬ stuck wm t) (targets (dirname dstPath))) as Hns.
    { apply (linked_not_stuck wm []); [apply linked_targets|apply root_not_stuck|].
      eapply Forall_impl; [exact Hnf|]. intros t Ht. simpl.
      rewrite <- Ht. apply is_file_ext. unfold wm. by rewrite ensure_dir_files. }
    apply last_targets, last_Some_elem_of in Hne.
    by eapply Forall_forall in Hns. }
  assert (is_dir wm dstPath = false) as Hdst.
  { apply is_dir_false in Hnd as [Hne Hnd]. apply is_dir_false. split; [done|].
    unfold wm. rewrite ensure_dir_short by done. intros [H|H]%mkdirs_dirs.
    - done.
    - apply targets_length in H. apply dirname_shorter in Hne. lia. }
  rewrite Hdst, Hpar in Hcase. exact Hcase.
Qed.

(** Claim C5.  For every line that parses to an entry, the copy goes
    from ["romfs:/" ++ filename] to
    [OUTPUT_BASE ++ platform ++ "/" ++ filename] with
    [OUTPUT_BASE = "/roms/"].  In particular, with the one manifest line
    ["snes\tsuper_game.sfc"] (ended by nothing, LF or CR LF), the source
    in the RomFS, a healthy medium, no regular file in the place of
    [/roms] or [/roms/snes] and no directory in the place of the
    destination, [main] prints "Copying ... Done." and
    [/roms/snes/super_game.sfc] holds the bytes of the source. *)
Theorem manifest_entry_paths w data eol pad :
  clean w →
  eol = [] ∨ eol = [LF] ∨ eol = [CR; LF] →
  w_files w !! lit "romfs:/filelist.txt"
    = Some (lit "snes" ++ [TAB] ++ lit "super_game.sfc" ++ eol) →
  w_files w !! lit "romfs:/super_game.sfc" = Some data →
  is_file w (lit "/roms") = false →
  is_file w (lit "/roms/snes") = false →
  is_dir w (lit "/roms/snes/super_game.sfc") = false →
  (main 0 pad w).1
    = (0%Z, [EvCopying (lit "romfs:/super_game.sfc")
                       (lit "/roms/snes/super_game.sfc");
             EvDone; EvPressPlus] ++ pad_loop pad)
  ∧ w_files (main 0 pad w).2 !! lit "/roms/snes/super_game.sfc" = Some data
  ∧ ∀ raw w' platform filename,
      parse_line raw = Entry platform filename →
      ∃ rc,
        process_line raw w'
        = ([EvCopying (lit "romfs:/" ++ filename)
                      (OUTPUT_BASE ++ platform ++ lit "/" ++ filename);
            if R_FAILED rc then EvCopyFailed rc else EvDone],
           (copyFile (lit "romfs:/" ++ filename)
                     (OUTPUT_BASE ++ platform ++ lit "/" ++ filename) w').2)
        ∧ rc = (copyFile (lit "romfs:/" ++ filename)
                         (OUTPUT_BASE ++ platform ++ lit "/" ++ filename) w').1.
Proof.
  intros Hc Heol Hlist Hrom Hf1 Hf2 Hd.
  assert (∀ raw w' platform filename,
      parse_line raw = Entry platform filename →
      ∃ rc,
        process_line raw w'
        = ([EvCopying (srcPath_of filename) (dstPath_of platform filename);
            if R_FAILED rc then EvCopyFailed rc else EvDone],
           (copyFile (srcPath_of filename) (dstPath_of platform filename) w').2)
        ∧ rc = (copyFile (srcPath_of filename)
                         (dstPath_of platform filename) w').1) as Hgen.
  { intros raw w' platform filename Hp. rewrite process_line_parse, Hp.
    cbn zeta. destruct (copyFile _ _ w') as [rc w1]. by exists rc. }
  split; [|split; [|exact Hgen]].
  all: rewrite (main_mounted 0 pad w _ eq_refl Hlist); cbn [fst snd].
  all: set (w0 := set_open (S (w_open w)) w).
  all: set (raw := lit "snes" ++ [TAB] ++ lit "super_game.sfc" ++ eol).
  all: assert (fgets_all 768 raw = [raw]) as ->
      by (unfold raw; destruct Heol as [->|[->| ->]]; vm_compute; reflexivity).
  all: assert (parse_line raw = Entry (lit "snes") (lit "super_game.sfc")) as Hparse
      by (unfold raw; destruct Heol as [->|[->| ->]]; vm_compute; reflexivity).
  all: destruct (copy_succeeds (lit "romfs:/super_game.sfc")
                   (lit "/roms/snes/super_game.sfc") w0 data) as [Hrc Hfiles];
    [done|done|done|vm_compute; lia| |done|].
  1,3: repeat constructor; done.
  all: destruct (copyFile (lit "romfs:/super_game.sfc")
                   (lit "/roms/snes/super_game.sfc") w0) as [rc w1] eqn:Hcopy.
  all: rewrite (main_loop_entry raw [] w0 _ _ rc w1 Hparse Hcopy).
  all: simpl in Hrc, Hfiles; subst rc.
  - done.
  - simpl. by rewrite Hfiles, lookup_insert_eq.
Qed.

Lemma manifest_entry_paths_witness :
  (main 0 [] Demo.w_scenario).1
    = (0%Z, [EvCopying (lit "romfs:/super_game.sfc")
                       (lit "/roms/snes/super_game.sfc");
             EvDone; EvPressPlus])
  ∧ w_files (main 0 [] Demo.w_scenario).2 !! lit "/roms/snes/super_game.sfc"
    = Some (lit "ROMDATA").
Proof.
  destruct (manifest_entry_paths Demo.w_scenario (lit "ROMDATA") [LF] [])
    as (H1 & H2 & _); try (vm_compute; reflexivity).
  - right. left. reflexivity.
  - split; [exact H1|exact H2].
Defined.

End ScenarioFacts.

Module StubFacts.
Import Libc LibcSpec LibcFacts CStringFacts.

(** What one [fwrite] does, field by field. *)
Lemma fwrite_fields buf f w :
  let k := match w_quota w with
           | [] => length buf
           | q :: _ => min q (length buf)
           end in
  (fwrite buf f w).1 ≤ length buf
  ∧ w_files (fwrite buf f w).2
    = <[f := default [] (w_files w !! f) ++ take k buf]> (w_files w)
  ∧ w_quota (fwrite buf f w).2 = tail (w_quota w)
  ∧ w_dirs (fwrite buf f w).2 = w_dirs w
  ∧ w_open (fwrite buf f w).2 = w_open w.
Proof.
  cbn zeta. by destruct (fwrite_store buf f w) as (? & ? & ? & ? & ? & _).
Qed.

Lemma copy_loop_written chunks dst w old :
  w_files w !! dst = Some old →
  ∃ written,
    w_files (Stub.copy_loop chunks dst w) !! dst = Some (old ++ written)
    ∧ length written ≤ length (concat chunks).
Proof.
  revert w old. induction chunks as [|b chunks IH]; intros w old Hold; simpl.
  { exists []. by rewrite app_nil_r. }
  destruct (fwrite_fields b dst w) as (_ & Hf & _). cbn zeta in Hf.
  set (k := match w_quota w with [] => length b | q :: _ => min q (length b) end) in *.
  rewrite Hold in Hf. simpl in Hf.
  destruct (IH (fwrite b dst w).2 (old ++ take k b)) as (written & Hw & Hl).
  { by rewrite Hf, lookup_insert_eq. }
  exists (take k b ++ written). rewrite Hw, <- app_assoc. split; [done|].
  rewrite !length_app, length_take. lia.
Qed.

(** After one short write the destination is shorter than the source,
    whatever happens to the later chunks. *)
Lemma copy_loop_lossy chunks dst w old i buf q :
  w_files w !! dst = Some old →
  chunks !! i = Some buf → w_quota w !! i = Some q → q < length buf →
  ∃ written,
    w_files (Stub.copy_loop chunks dst w) !! dst = Some (old ++ written)
    ∧ length written < length (concat chunks).
Proof.
  revert i w old. induction chunks as [|b chunks IH]; intros i w old Hold Hi Hq Hlt;
    [done|].
  cbn [Stub.copy_loop].
  destruct (fwrite_fields b dst w) as (_ & Hf & Hquota & _). cbn zeta in Hf.
  set (k := match w_quota w with [] => length b | q :: _ => min q (length b) end) in *.
  rewrite Hold in Hf. simpl in Hf.
  assert (w_files (fwrite b dst w).2 !! dst = Some (old ++ take k b)) as Hnew
    by (by rewrite Hf, lookup_insert_eq).
  destruct i as [|i].
  - destruct (copy_loop_written chunks dst _ _ Hnew) as (written & Hw & Hl).
    exists (take k b ++ written). rewrite Hw, <- app_assoc. split; [done|].
    simpl in Hi. injection Hi as ->.
    assert (k = q) as ->.
    { unfold k. destruct (w_quota w); simpl in Hq; [done|]. injection Hq as ->. lia. }
    cbn [concat]. rewrite !length_app, length_take. lia.
  - destruct (IH i (fwrite b dst w).2 (old ++ take k b)) as (written & Hw & Hl);
      [done|done| |done|].
    { rewrite Hquota. destruct (w_quota w); [done|]. done. }
    exists (take k b ++ written). rewrite Hw, <- app_assoc. split; [done|].
    cbn [concat]. rewrite !length_app, length_take. lia.
Qed.

(** Claim C10.  In the single-ROM stub, once both files are open the
    value of [copyFile] is [0], even when for some chunk the medium
    accepted fewer bytes than were read: the destination then holds
    fewer bytes than the source and the copy is still reported as a
    success. *)
Theorem stub_copy_hides_short_write srcPath dstPath w src w0 dst w1 i buf q :
  fopen_rb srcPath w = (Some src, w0) →
  fopen_wb dstPath w0 = (Some dst, w1) →
  fread_all 8192 src !! i = Some buf →
  w_quota w1 !! i = Some q →
  q < length buf →
  (Stub.copyFile srcPath dstPath w).1 = 0%Z
  ∧ ∃ written,
      w_files (Stub.copyFile srcPath dstPath w).2 !! dstPath = Some written
      ∧ length written < length src.
Proof.
  intros Hsrc Hdst Hi Hq Hlt. unfold Stub.copyFile. rewrite Hsrc, Hdst.
  split; [done|]. cbn [snd].
  apply CopyFacts.fopen_wb_some in Hdst as (-> & _ & _ & Hf & _).
  destruct (copy_loop_lossy (fread_all 8192 src) dstPath w1 [] i buf q)
    as (written & Hw & Hl); [by rewrite Hf, lookup_insert_eq|done..|].
  rewrite fread_all_concat in Hl by apply EngineFacts.chunk_pos.
  unfold after_wb. destruct (decide (srcPath = dstPath)) as [E|E].
  - rewrite bool_decide_eq_true_2 by done. exists []. split; [|simpl; lia].
    cbn. by rewrite Hf, lookup_insert_eq.
  - rewrite bool_decide_eq_false_2 by done. by exists written.
Qed.

Lemma stub_copy_hides_short_write_witness :
  (Stub.copyFile (lit "romfs:/rom.bin") (lit "/switch/roms/rom.bin")
     Demo.w_stub_short).1 = 0%Z
  ∧ ∃ written,
      w_files (Stub.copyFile (lit "romfs:/rom.bin") (lit "/switch/roms/rom.bin")
                 Demo.w_stub_short).2 !! lit "/switch/roms/rom.bin"
      = Some written
      ∧ length written < length (lit "ROMDATA").
Proof.
  apply (stub_copy_hides_short_write
           (lit "romfs:/rom.bin") (lit "/switch/roms/rom.bin")
           Demo.w_stub_short (lit "ROMDATA") (set_open 1 Demo.w_stub_short)
           (lit "/switch/roms/rom.bin")
           (fopen_wb (lit "/switch/roms/rom.bin")
              (set_open 1 Demo.w_stub_short)).2
           0 (lit "ROMDATA") 3).
  - vm_compute; reflexivity.
  - vm_compute; reflexivity.
  - vm_compute; reflexivity.
  - vm_compute; reflexivity.
  - vm_compute; lia.
Defined.

(** The same holds without any short write: the value is [0] as soon
    as both files open. *)
Lemma stub_copy_value srcPath dstPath w src w0 dst w1 :
  fopen_rb srcPath w = (Some src, w0) →
  fopen_wb dstPath w0 = (Some dst, w1) →
  (Stub.copyFile srcPath dstPath w).1 = 0%Z.
Proof. intros Hsrc Hdst. unfold Stub.copyFile. by rewrite Hsrc, Hdst. Qed.

End StubFacts.

Module ForwarderFacts.
Import Libc LibcSpec LibcFacts CStringFacts StubFacts.
Import Forwarder ForwarderSpec.

Lemma world_eta w : set_open (w_open w) w = w.
Proof. by destruct w. Qed.

Lemma read_text_file_spec path outsz w :
  read_text_file path outsz w = (record outsz (w_files w !! path), w).
Proof.
  unfold read_text_file, fopen_rb, record.
  destruct (w_files w !! path) as [data|]; [|done].
  unfold fread, fclose. simpl. by destruct w.
Qed.

Lemma is_trailing_spec c :
  is_trailing c = true ↔ c = SP ∨ c = TAB ∨ c = CR ∨ c = LF.
Proof.
  unfold is_trailing. rewrite !orb_true_iff, !Ascii.eqb_eq. tauto.
Qed.

Lemma record_length outsz content : length (record outsz content) ≤ outsz - 1.
Proof.
  destruct content as [data|]; simpl; [|lia].
  etrans; [apply rtrim_length|]. rewrite length_take. lia.
Qed.

(** ** The log *)

Lemma fopen_a_frame p w :
  w_dirs (fopen_a p w).2 = w_dirs w
  ∧ ∀ q, q ≠ p → w_files (fopen_a p w).2 !! q = w_files w !! q.
Proof.
  unfold fopen_a, fopen_write. destruct (is_dir w p); [done|].
  destruct (negb (is_dir w (dirname p))); [done|].
  ask_medium w as (Hd & Hf & _).
  destruct q as [[|?]|]; simpl; rewrite ?Hd, ?Hf; split; try done.
  all: intros q Hq; by rewrite lookup_insert_ne.
Qed.

Lemma fprintf_frame text f w :
  w_dirs (fprintf text f w) = w_dirs w
  ∧ ∀ q, q ≠ f → w_files (fprintf text f w) !! q = w_files w !! q.
Proof.
  unfold fprintf. destruct (fwrite_fields text f w) as (_ & Hf & _ & Hd & _).
  split; [done|]. intros q Hq. by rewrite Hf, lookup_insert_ne.
Qed.

Lemma fopen_a_handle p w f w' : fopen_a p w = (Some f, w') → f = p.
Proof.
  unfold fopen_a, fopen_write. destruct (is_dir w p); [done|].
  destruct (negb (is_dir w (dirname p))); [done|].
  destruct (take_quota w) as [[[|?]|] ?]; by intros [= <- <-].
Qed.

(** Logging touches no file but the log. *)
Lemma log_msg_frame s w p :
  p ≠ LOG_PATH → w_files (log_msg s w) !! p = w_files w !! p.
Proof.
  intros Hp. unfold log_msg, ensure_log_dir.
  destruct (fopen_a_frame LOG_PATH (mkdir LOG_DIR w).2) as [_ Hf].
  destruct (fopen_a LOG_PATH (mkdir LOG_DIR w).2) as [[f|] w1] eqn:E; simpl in *.
  - apply fopen_a_handle in E as ->.
    rewrite (proj2 (fprintf_frame _ _ _)) by done.
    by rewrite Hf, mkdir_files.
  - by rewrite Hf, mkdir_files.
Qed.

Lemma log_printf_frame s w p :
  p ≠ LOG_PATH → w_files (log_printf s w) !! p = w_files w !! p.
Proof.
  intros Hp. unfold log_printf, ensure_log_dir.
  destruct (fopen_a_frame LOG_PATH (mkdir LOG_DIR w).2) as [_ Hf].
  destruct (fopen_a LOG_PATH (mkdir LOG_DIR w).2) as [[f|] w1] eqn:E; simpl in *.
  - apply fopen_a_handle in E as ->.
    rewrite !(proj2 (fprintf_frame _ _ _)) by done.
    by rewrite Hf, mkdir_files.
  - by rewrite Hf, mkdir_files.
Qed.

Lemma log_dir_made w :
  log_usable w →
  let w0 := ensure_log_dir w in
  clean w0 ∧ is_dir w0 LOG_PATH = false ∧ is_dir w0 LOG_DIR = true
  ∧ w_files w0 = w_files w.
Proof.
  intros (Hc & Hp & Hd). cbn zeta. unfold ensure_log_dir.
  split; [by apply mkdir_clean|]. split; [|split; [|apply mkdir_files]].
  - apply is_dir_false in Hp as [Hne Hp]. apply is_dir_false. split; [done|].
    intros [H|H]%ScenarioFacts.mkdir_dirs; [done|]. by vm_compute in H.
  - destruct Hd as [Hd|[Hpar Hnf]].
    + by apply (grows_dirs _ _ (mkdir_grows LOG_DIR w)).
    + unfold mkdir, path_exists. rewrite Hnf, orb_false_r.
      destruct (is_dir w LOG_DIR) eqn:E; [done|].
      change (dirname LOG_DIR) with (lit "sdmc:"). rewrite Hpar. simpl.
      rewrite take_quota_clean by done. apply is_dir_true. simpl.
      right. apply elem_of_union_l. by apply elem_of_singleton.
Qed.

Lemma log_usable_files w w' :
  clean w' → w_dirs w' = w_dirs w → is_dir w LOG_PATH = false →
  is_dir w LOG_DIR = true → log_usable w'.
Proof.
  intros Hc Hd Hp Hl. split; [done|].
  split; [by rewrite (is_dir_ext w w')|left; by rewrite (is_dir_ext w w')].
Qed.

(** On a usable log, a message is one more line at the end of the file. *)
Lemma log_msg_append text w :
  log_usable w →
  log_usable (log_msg text w)
  ∧ w_files (log_msg text w) !! LOG_PATH
    = Some (default [] (w_files w !! LOG_PATH) ++ text ++ [LF]).
Proof.
  intros Hu. destruct (log_dir_made w Hu) as (Hc & Hp & Hd & Hf).
  unfold log_msg. set (w0 := ensure_log_dir w) in *.
  unfold fopen_a. rewrite fopen_write_clean_spec by done.
  change (dirname LOG_PATH) with LOG_DIR. rewrite Hp, Hd. cbn [negb orb].
  unfold fprintf. rewrite fwrite_clean_spec by exact Hc. cbn [fst snd].
  split.
  - by apply (log_usable_files w0).
  - cbn [fclose set_open set_files w_files].
    rewrite !lookup_insert_eq. cbn [default]. by rewrite Hf.
Qed.

Lemma log_printf_append text w :
  log_usable w →
  log_usable (log_printf text w)
  ∧ w_files (log_printf text w) !! LOG_PATH
    = Some (default [] (w_files w !! LOG_PATH) ++ text ++ [LF]).
Proof.
  intros Hu. destruct (log_dir_made w Hu) as (Hc & Hp & Hd & Hf).
  unfold log_printf. set (w0 := ensure_log_dir w) in *.
  unfold fopen_a. rewrite fopen_write_clean_spec by done.
  change (dirname LOG_PATH) with LOG_DIR. rewrite Hp, Hd. cbn [negb orb].
  unfold fprintf. rewrite (fwrite_clean_spec text) by exact Hc. cbn [fst snd].
  rewrite (fwrite_clean_spec [LF]) by exact Hc. cbn [fst snd].
  split.
  - by apply (log_usable_files w0).
  - cbn [fclose set_open set_files w_files].
    rewrite !lookup_insert_eq. cbn [default]. unfold id.
    by rewrite <- app_assoc, Hf.
Qed.

End ForwarderFacts.

Module HandoffFacts.
Import Libc LibcSpec LibcFacts CStringFacts.
Import Forwarder ForwarderSpec ForwarderFacts HandoffSpec.

Lemma main_spec pad w :
  main pad w =
    (0%Z,
     [EvBanner]
       ++ (handoff (cstr (nro_record w)) (cstr (argv_record w)) (logged_records w)).1
       ++ [EvPressPlus] ++ pad_loop pad,
     (handoff (cstr (nro_record w)) (cstr (argv_record w)) (logged_records w)).2).
Proof.
  unfold main, logged_records, nro_record, argv_record.
  rewrite !read_text_file_spec. cbn [fst snd].
  rewrite !log_msg_frame by done.
  by destruct (handoff _ _ _).
Qed.

Lemma pad_loop_updates pad e : e ∈ pad_loop pad → e = EvConsoleUpdate.
Proof.
  induction pad as [|k pad IH]; simpl; [by intros ?%elem_of_nil|].
  destruct (negb _); [by intros ?%elem_of_nil|].
  intros [->|H]%elem_of_cons; auto.
Qed.

(** While PLUS is not pressed the process stays in its input loop, one
    console refresh per frame. *)
Lemma pad_loop_idle pad :
  Forall (fun k => Z.land k HidNpadButton_Plus = 0%Z) pad →
  pad_loop pad = repeat EvConsoleUpdate (length pad).
Proof.
  induction 1 as [|k pad Hk _ IH]; simpl; [done|].
  by rewrite Hk, IH.
Qed.

Lemma logged_records_usable w : log_usable w → log_usable (logged_records w).
Proof.
  intros Hu. unfold logged_records.
  apply log_printf_append, log_printf_append, log_msg_append, Hu.
Qed.

(** Claim C6.  When the target record is empty (the file is missing, or
    nothing is left of it after trimming, so that [nroPath[0]] is NUL),
    [main] prints "Error: romfs:/nextNroPath missing", never calls
    [chainload_nro], and hands "ERROR: nextNroPath missing" to the log:
    on a usable log that line ends the log file. *)
Theorem empty_target_never_chainloads pad w :
  cstr (nro_record w) = [] →
  (main pad w).1 = (0%Z, [EvBanner; EvTargetMissing; EvPressPlus] ++ pad_loop pad)
  ∧ (∀ p a, EvChainload p a ∉ (main pad w).1.2)
  ∧ (log_usable w →
     ∃ old, w_files (main pad w).2 !! LOG_PATH
            = Some (old ++ lit "ERROR: nextNroPath missing" ++ [LF])).
Proof.
  intros Hempty. rewrite main_spec, Hempty. cbn [handoff fst snd].
  split; [done|]. split.
  - intros p a. rewrite !elem_of_app, !list_elem_of_singleton.
    intros [?|[?|[?|H]]]; try done. by apply pad_loop_updates in H.
  - intros Hu. eexists.
    by apply log_msg_append, logged_records_usable.
Qed.

Lemma log_usable_blank_target : log_usable Demo.w_blank_target.
Proof.
  split; [reflexivity|]. split; [vm_compute; reflexivity|].
  right. split; vm_compute; reflexivity.
Qed.

Lemma empty_target_never_chainloads_witness :
  nro_record Demo.w_blank_target = []
  ∧ (main [] Demo.w_blank_target).1
    = (0%Z, [EvBanner; EvTargetMissing; EvPressPlus])
  ∧ (∀ p a, EvChainload p a ∉ (main [] Demo.w_blank_target).1.2)
  ∧ ∃ old, w_files (main [] Demo.w_blank_target).2 !! LOG_PATH
           = Some (old ++ lit "ERROR: nextNroPath missing" ++ [LF]).
Proof.
  split; [vm_compute; reflexivity|].
  destruct (empty_target_never_chainloads [] Demo.w_blank_target)
    as (H1 & H2 & H3).
  - vm_compute; reflexivity.
  - split; [exact H1|]. split; [exact H2|].
    exact (H3 log_usable_blank_target).
Defined.

(** Claim C7, as the code has it.  With a non-empty target record,
    [main] calls [chainload_nro] once; the placeholder answers the fixed
    code [MAKERESULT(346, 1)] whether the target exists or not; [main]
    prints the failure with the code, hands "chainload_nro not
    implemented (rc=0x35a)" to the log (on a usable log that line ends
    the log file), prints the exit prompt and stays in its input loop,
    refreshing the console once per frame until PLUS is pressed. *)
Theorem chainload_placeholder_fails pad w :
  cstr (nro_record w) ≠ [] →
  (main pad w).1
    = (0%Z, [EvBanner; EvTarget (cstr (nro_record w));
             EvChainload (cstr (nro_record w)) (cstr (argv_record w));
             EvLaunchFailed (MAKERESULT 346 1); EvPressPlus] ++ pad_loop pad)
  ∧ R_FAILED (MAKERESULT 346 1) = true
  ∧ (log_usable w →
     ∃ old, w_files (main pad w).2 !! LOG_PATH
            = Some (old ++ lit "chainload_nro not implemented (rc=0x35a)" ++ [LF]))
  ∧ (Forall (fun k => Z.land k HidNpadButton_Plus = 0%Z) pad →
     pad_loop pad = repeat EvConsoleUpdate (length pad)).
Proof.
  intros Hne. rewrite main_spec. unfold handoff.
  destruct (cstr (nro_record w)) as [|c p] eqn:E; [done|].
  change (R_FAILED (chainload_nro (c :: p) (cstr (argv_record w)))) with true.
  cbn [fst snd]. repeat split; try done.
  - intros Hu. eexists.
    by apply log_printf_append, logged_records_usable.
  - apply pad_loop_idle.
Qed.

Lemma log_usable_with_target : log_usable w_with_target.
Proof.
  split; [reflexivity|]. split; [vm_compute; reflexivity|].
  right. split; vm_compute; reflexivity.
Qed.

Lemma chainload_placeholder_fails_witness :
  cstr (nro_record w_with_target) = lit "sdmc:/switch/app.nro"
  ∧ (main [0%Z] w_with_target).1
    = (0%Z, [EvBanner; EvTarget (lit "sdmc:/switch/app.nro");
             EvChainload (lit "sdmc:/switch/app.nro") [];
             EvLaunchFailed 858; EvPressPlus; EvConsoleUpdate])
  ∧ ∃ old, w_files (main [0%Z] w_with_target).2 !! LOG_PATH
           = Some (old ++ lit "chainload_nro not implemented (rc=0x35a)" ++ [LF]).
Proof.
  split; [vm_compute; reflexivity|].
  destruct (chainload_placeholder_fails [0%Z] w_with_target) as (H1 & _ & H3 & _).
  - vm_compute. discriminate.
  - split; [exact H1|]. exact (H3 log_usable_with_target).
Defined.

(** Claim C7 as stated fails.  The target record names
    [sdmc:/switch/app.nro] and no such file exists; the failure [main]
    reports carries the code 858 = [MAKERESULT(346, 1)], which is not
    the code this repository uses for a missing file, and it is the very
    same report when the file exists: nothing in it says that the target
    was not found. *)
Lemma target_not_found_is_not_reported :
  w_files w_no_target !! lit "sdmc:/switch/app.nro" = None
  ∧ (main [] w_no_target).1.2
    = [EvBanner; EvTarget (lit "sdmc:/switch/app.nro");
       EvChainload (lit "sdmc:/switch/app.nro") [];
       EvLaunchFailed 858; EvPressPlus]
  ∧ 858%Z ≠ not_found_code
  ∧ w_files w_with_target !! lit "sdmc:/switch/app.nro" = Some (lit "NRO0")
  ∧ (main [] w_with_target).1.2 = (main [] w_no_target).1.2.
Proof. vm_compute. repeat split; done. Qed.

(** Claim C9.  The target record as [main] holds it has at most 511
    characters and the argument record at most 767; neither ends in a
    space, a tab, a CR or a LF; each is what [fread] delivered (at most
    511, at most 767 characters of the file) less a trailing run of such
    characters; and [main] uses nothing but these two buffers for the
    handoff. *)
Theorem records_bounded_and_trimmed pad w :
  length (nro_record w) ≤ 511
  ∧ length (argv_record w) ≤ 767
  ∧ (∀ c, last (nro_record w) = Some c → c ≠ SP ∧ c ≠ TAB ∧ c ≠ CR ∧ c ≠ LF)
  ∧ (∀ c, last (argv_record w) = Some c → c ≠ SP ∧ c ≠ TAB ∧ c ≠ CR ∧ c ≠ LF)
  ∧ (∀ data, w_files w !! NRO_FILE = Some data →
       ∃ ws, take 511 data = nro_record w ++ ws
             ∧ Forall (fun c => c = SP ∨ c = TAB ∨ c = CR ∨ c = LF) ws)
  ∧ (∀ data, w_files w !! ARG_FILE = Some data →
       ∃ ws, take 767 data = argv_record w ++ ws
             ∧ Forall (fun c => c = SP ∨ c = TAB ∨ c = CR ∨ c = LF) ws)
  ∧ main pad w =
      (0%Z,
       [EvBanner]
         ++ (handoff (cstr (nro_record w)) (cstr (argv_record w))
               (logged_records w)).1
         ++ [EvPressPlus] ++ pad_loop pad,
       (handoff (cstr (nro_record w)) (cstr (argv_record w))
          (logged_records w)).2).
Proof.
  assert (∀ path outsz c,
    last (read_text_file path outsz w).1 = Some c →
    c ≠ SP ∧ c ≠ TAB ∧ c ≠ CR ∧ c ≠ LF) as Hlast.
  { intros path outsz c. rewrite read_text_file_spec. cbn [fst]. unfold record.
    destruct (w_files w !! path); [|done].
    intros Hc%rtrim_last.
    repeat split; intros ->; by vm_compute in Hc. }
  assert (∀ path outsz data,
    w_files w !! path = Some data →
    ∃ ws, take (outsz - 1) data = (read_text_file path outsz w).1 ++ ws
          ∧ Forall (fun c => c = SP ∨ c = TAB ∨ c = CR ∨ c = LF) ws) as Hcut.
  { intros path outsz data Hd. rewrite read_text_file_spec, Hd. cbn [fst record].
    destruct (rtrim_split is_trailing (take (outsz - 1) data)) as (ws & Hs & Hws).
    exists ws. split; [done|]. apply Forall_forall. intros c Hc.
    rewrite forallb_forall in Hws. apply list_elem_of_In, Hws in Hc.
    by apply is_trailing_spec. }
  unfold nro_record, argv_record.
  split; [rewrite read_text_file_spec; apply (record_length 512)|].
  split; [rewrite read_text_file_spec; apply (record_length 768)|].
  split; [apply Hlast|]. split; [apply Hlast|].
  split; [apply (Hcut NRO_FILE 512)|]. split; [apply (Hcut ARG_FILE 768)|].
  apply main_spec.
Qed.

End HandoffFacts.

(** * Further properties of the three programs *)

Module StringProps.
Import CStringFacts.

Lemma rtrim_all p s : forallb p s = true → rtrim p s = [].
Proof.
  induction s as [|c s IH]; simpl; [done|].
  intros [Hc Hs]%andb_true_iff. by rewrite IH, Hc.
Qed.

Lemma rtrim_nil p s : rtrim p s = [] → forallb p s = true.
Proof.
  intros H. destruct (rtrim_split p s) as (t & Hs & Ht).
  rewrite H in Hs. simpl in Hs. by subst t.
Qed.

Lemma rtrim_app p s t : forallb p t = true → rtrim p (s ++ t) = rtrim p s.
Proof.
  intros Ht. induction s as [|c s IH]; simpl.
  - by apply rtrim_all.
  - by rewrite IH.
Qed.

(** A run of accepted characters is read up to the width. *)
Lemma scanset_take ok width m :
  forallb ok m = true → scanset ok width m = (take width m, drop width m).
Proof.
  revert width. induction m as [|c m IH]; intros width Hm.
  - by destruct width.
  - destruct width as [|width]; [done|].
    simpl in *. apply andb_true_iff in Hm as [Hc Hm]. by rewrite Hc, IH.
Qed.

Lemma skip_space_app ws s :
  forallb isspace ws = true → skip_space (ws ++ s) = skip_space s.
Proof.
  induction ws as [|c ws IH]; simpl; [done|].
  intros [Hc Hs]%andb_true_iff. rewrite Hc. by apply IH.
Qed.

Lemma skip_space_id s :
  (∀ c, head s = Some c → isspace c = false) → skip_space s = s.
Proof. destruct s as [|c s]; [done|]. intros H. simpl. by rewrite (H c). Qed.

Lemma forallb_not_in (p : ascii → bool) c s :
  p c = false → forallb p s = true → c ∉ s.
Proof.
  intros Hc Hs Hin. rewrite forallb_forall in Hs.
  apply list_elem_of_In, Hs in Hin. congruence.
Qed.

Lemma not_in_forallb c s :
  c ∉ s → forallb (fun d => negb (Ascii.eqb d c)) s = true.
Proof.
  intros Hc. apply forallb_forall. intros d Hd. apply list_elem_of_In in Hd.
  apply negb_true_iff, Ascii.eqb_neq. by intros ->.
Qed.

End StringProps.

Module MkpathProps.
Import Libc LibcSpec LibcFacts CStringFacts.
Import MultiStub MultiStubSpec MkpathFacts ScenarioFacts.

(** Every path handed to [mkdir] is the part of the buffer before one of
    its slashes (the first character apart). *)
Lemma walk_targets_cut pre rest t :
  t ∈ walk_targets pre rest →
  ∃ r1 r2, rest = r1 ++ SLASH :: r2 ∧ t = pre ++ r1.
Proof.
  revert pre. induction rest as [|c rest IH]; intros pre; simpl.
  { by intros ?%elem_of_nil. }
  rewrite elem_of_app. intros [H|H].
  - destruct (Ascii.eqb_spec c SLASH) as [->|]; [|by apply elem_of_nil in H].
    apply list_elem_of_singleton in H as ->.
    exists [], rest. by rewrite app_nil_r.
  - apply IH in H as (r1 & r2 & -> & ->).
    exists (c :: r1), r2. by rewrite <- app_assoc.
Qed.

Lemma targets_cut tmp t :
  t ∈ targets tmp →
  t ≠ [] ∧ (t = tmp ∨ ∃ r, tmp = t ++ SLASH :: r).
Proof.
  destruct tmp as [|c0 rest]; [by intros ?%elem_of_nil|]. unfold targets.
  rewrite elem_of_app. intros [H|H].
  - apply walk_targets_cut in H as (r1 & r2 & -> & ->).
    split; [done|]. right. by exists r2.
  - apply list_elem_of_singleton in H as ->. split; [done|]. by left.
Qed.

Lemma mkpath_value path w : (mkpath path w).1 = 0%Z ∨ (mkpath path w).1 = (-1)%Z.
Proof.
  unfold mkpath. destruct (take 1023 path); [by left|].
  destruct (mkdir _ _) as [[e|] w2]; [|by left].
  destruct (errno_eqb e EEXIST); [by left|by right].
Qed.

Lemma mkpath_files path w : w_files (mkpath path w).2 = w_files w.
Proof. by rewrite mkpath_world, mkdirs_files. Qed.

Lemma mkpath_open path w : w_open (mkpath path w).2 = w_open w.
Proof. by rewrite mkpath_world, mkdirs_open. Qed.

Lemma mkdir_dirs_mono t w : w_dirs w ⊆ w_dirs (mkdir t w).2.
Proof.
  unfold mkdir. destruct (path_exists w t); [done|].
  destruct (negb (is_dir w (dirname t))); [done|].
  ask_medium w as (Hd & _ & _).
  destruct q as [[|?]|]; simpl; rewrite ?Hd; try done.
  all: apply union_subseteq_r.
Qed.

Lemma mkdirs_dirs_mono ts w : w_dirs w ⊆ w_dirs (mkdirs ts w).
Proof.
  revert w. induction ts as [|t ts IH]; intros w; simpl; [done|].
  etrans; [apply (mkdir_dirs_mono t)|apply IH].
Qed.

(** Property X1.  [mkpath] on any medium: files and open streams are left alone, no
    directory is removed, and a directory that was not there before is
    the path itself (cut to 1023 characters) or a part of it that ends
    just before a slash. *)
Theorem mkpath_adds_only_segments path w :
  w_files (mkpath path w).2 = w_files w
  ∧ w_open (mkpath path w).2 = w_open w
  ∧ w_dirs w ⊆ w_dirs (mkpath path w).2
  ∧ ∀ p, p ∈ w_dirs (mkpath path w).2 → p ∉ w_dirs w →
      p ≠ [] ∧ (p = take 1023 path ∨ ∃ r, take 1023 path = p ++ SLASH :: r).
Proof.
  split; [apply mkpath_files|]. split; [apply mkpath_open|]. split.
  - rewrite mkpath_world. apply mkdirs_dirs_mono.
  - intros p Hin Hnot. rewrite mkpath_world in Hin.
    apply mkdirs_dirs in Hin as [?|Hin]; [done|]. by apply targets_cut.
Qed.

(** On a medium without pending faults, with no regular file in the
    way, a chain of [mkdir] leaves every path of the chain a directory and
    adds nothing else. *)
Lemma mkdirs_all_made tmp w :
  clean w →
  Forall (fun t => is_file w t = false) (targets tmp) →
  Forall (fun t => is_dir (mkdirs (targets tmp) w) t = true) (targets tmp)
  ∧ w_dirs (mkdirs (targets tmp) w) = w_dirs w ∪ list_to_set (targets tmp).
Proof.
  intros Hc Hnf.
  assert (Forall (fun t => is_dir (mkdirs (targets tmp) w) t = true) (targets tmp))
    as Hall.
  { pose proof (mkdirs_settled (targets tmp) [] w Hc (linked_targets tmp)
                  (or_introl eq_refl)) as Hs.
    assert (Forall (fun t => ¬ stuck (mkdirs (targets tmp) w) t) (targets tmp)) as Hns.
    { apply (linked_not_stuck _ []); [apply linked_targets|apply root_not_stuck|].
      eapply Forall_impl; [exact Hnf|]. intros t Ht. simpl.
      rewrite <- Ht. apply is_file_ext, mkdirs_files. }
    rewrite Forall_forall in Hs, Hns. apply Forall_forall. intros t Ht.
    destruct (Hs t Ht) as [?|Hst]; [done|]. by destruct (Hns t Ht). }
  split; [done|].
  apply set_eq. intros p. rewrite elem_of_union, elem_of_list_to_set. split.
  - apply mkdirs_dirs.
  - intros [Hp|Hp].
    + by apply mkdirs_dirs_mono.
    + rewrite Forall_forall in Hall. specialize (Hall p Hp).
      apply is_dir_true in Hall as [->|?]; [|done].
      by apply targets_cut in Hp as [? _].
Qed.

(** Property X2.  [mkdir -p] proper.  On a medium without pending faults, when no
    regular file sits at the path or at one of its leading parts,
    [mkpath] answers [0] and afterwards the path and all its leading
    parts are directories: the directories are those there before and
    these, no others. *)
Theorem mkpath_makes_directories path w :
  clean w →
  Forall (fun t => is_file w t = false) (targets (take 1023 path)) →
  (mkpath path w).1 = 0%Z
  ∧ is_dir (mkpath path w).2 (take 1023 path) = true
  ∧ w_dirs (mkpath path w).2 = w_dirs w ∪ list_to_set (targets (take 1023 path)).
Proof.
  intros Hc Hnf.
  destruct (mkdirs_all_made (take 1023 path) w Hc Hnf) as [Hall Hdirs].
  rewrite <- (mkpath_world path w) in Hall, Hdirs.
  assert (is_dir (mkpath path w).2 (take 1023 path) = true) as Hdir.
  { destruct (decide (take 1023 path = [])) as [->|Hne]; [done|].
    apply last_targets, last_Some_elem_of in Hne.
    by eapply Forall_forall in Hall. }
  split; [|split; [done|done]].
  destruct (mkpath_value path w) as [?|Hneg]; [done|]. exfalso.
  destruct (mkpath path w) as [rc w1] eqn:E. simpl in Hneg. subst rc.
  apply mkpath_failed in E as [_ E]. simpl in Hdir. congruence.
Qed.

Lemma mkpath_makes_directories_witness :
  (mkpath (lit "/roms/snes") Demo.w_card).1 = 0%Z
  ∧ is_dir (mkpath (lit "/roms/snes") Demo.w_card).2 (take 1023 (lit "/roms/snes"))
    = true
  ∧ w_dirs (mkpath (lit "/roms/snes") Demo.w_card).2
    = w_dirs Demo.w_card ∪ list_to_set (targets (take 1023 (lit "/roms/snes"))).
Proof.
  apply (mkpath_makes_directories (lit "/roms/snes") Demo.w_card).
  - reflexivity.
  - repeat constructor.
Defined.

(** Property X3.  [EEXIST] is taken for success whatever sits at the path: when the
    path (cut to 1023 characters) is a regular file, [mkpath] answers [0]
    and the path is still not a directory. *)
Theorem mkpath_accepts_a_file path w :
  is_file w (take 1023 path) = true →
  is_dir w (take 1023 path) = false →
  (mkpath path w).1 = 0%Z
  ∧ is_dir (mkpath path w).2 (take 1023 path) = false.
Proof.
  intros Hf Hd. set (tmp := take 1023 path) in *.
  assert (stuck (mkpath path w).2 tmp) as Hs.
  { rewrite mkpath_world. apply (grows_stuck _ _ (mkdirs_grows _ w)).
    by apply stuck_file. }
  split; [|by apply stuck_not_dir].
  unfold mkpath. fold tmp. destruct tmp as [|c0 rest] eqn:E; [done|].
  rewrite mkpath_walk_mkdirs. unfold mkdir.
  assert (path_exists (mkdirs (walk_targets [c0] rest) w) (c0 :: rest) = true) as ->.
  { unfold path_exists. apply orb_true_iff. right.
    by apply (grows_files _ _ (mkdirs_grows _ w)). }
  done.
Qed.

Lemma mkpath_accepts_a_file_witness :
  (mkpath (lit "romfs:/game.sfc") Demo.w_card).1 = 0%Z
  ∧ is_dir (mkpath (lit "romfs:/game.sfc") Demo.w_card).2 (lit "romfs:/game.sfc")
    = false.
Proof.
  apply (mkpath_accepts_a_file (lit "romfs:/game.sfc") Demo.w_card);
    vm_compute; reflexivity.
Defined.

End MkpathProps.

Module CopyProps.
Import Libc LibcSpec LibcFacts CStringFacts StdioSpec.
Import MultiStub MultiStubSpec MkpathFacts ManifestSpec CopyFacts ManifestFacts.
Import EngineFacts RerunFacts RerunProof ScenarioFacts StubFacts MkpathProps.

Lemma IoError_nonzero : IoError ≠ 0%Z.
Proof. by vm_compute. Qed.

Lemma NotFound_codes : NotFound ≠ 0%Z ∧ NotFound ≠ IoError.
Proof. by vm_compute. Qed.

Lemma copy_loop_value chunks dst w :
  (copy_loop chunks dst w).1 = 0%Z ∨ (copy_loop chunks dst w).1 = IoError.
Proof.
  revert w. induction chunks as [|buf chunks IH]; intros w; simpl; [by left|].
  destruct (fwrite buf dst w) as [n w1].
  destruct (negb (n =? length buf)); [by right|apply IH].
Qed.

(** Property X4.  The value [0] of [copyFile] says that every call of
    [fwrite] returned the length of its chunk, not that the bytes are on
    the medium: the value of [fclose] is dropped, so what is lost when
    the buffer is flushed goes unnoticed.  For a manifest entry whose
    two files open, when every call of [fwrite] returns the length of
    its chunk, [copyFile] answers [0], the loop prints "Done.", and the
    destination holds what the medium took of each chunk: fewer bytes
    than the source has as soon as the medium took one chunk short. *)
Theorem copy_value_zero_hides_late_loss raw raws w platform filename src w0 dst w2 :
  parse_line raw = Entry platform filename →
  fopen_rb (srcPath_of filename) w = (Some src, w0) →
  fopen_wb (dstPath_of platform filename)
           (ensure_dir (dstPath_of platform filename) w0) = (Some dst, w2) →
  (∀ j b, fread_all 8192 src !! j = Some b →
          (fwrite b dst (fwrites (take j (fread_all 8192 src)) dst w2)).1
          = length b) →
  ∃ w3,
    copyFile (srcPath_of filename) (dstPath_of platform filename) w = (0%Z, w3)
    ∧ w_files w3 !! dstPath_of platform filename
      = Some (stored (w_quota w2) (fread_all 8192 src))
    ∧ (∀ i b q, fread_all 8192 src !! i = Some b → w_quota w2 !! i = Some q →
                q < length b →
                length (stored (w_quota w2) (fread_all 8192 src)) < length src)
    ∧ main_loop (raw :: raws) w =
        (EvCopying (srcPath_of filename) (dstPath_of platform filename)
           :: EvDone :: (main_loop raws w3).1,
         (main_loop raws w3).2).
Proof.
  intros Hparse Hsrc Hdst Hall.
  apply fopen_rb_some in Hsrc as [Hsrc ->].
  pose proof (copy_loop_through _ dst w2 Hall) as Hrun.
  pose proof Hdst as Hdst'.
  apply fopen_wb_some in Hdst' as (-> & _ & _ & Hf2 & _).
  set (d := dstPath_of platform filename) in *.
  set (w3 := fclose (fclose (fwrites (fread_all 8192 src) d w2))) in *.
  assert (copyFile (srcPath_of filename) d w = (0%Z, w3)) as Hcopy.
  { rewrite (copyFile_src_open _ _ _ src) by done. cbn zeta.
    rewrite Hdst. unfold d. by rewrite after_wb_entry. }
  exists w3. split; [done|]. split; [|split].
  - destruct (fwrites_store (fread_all 8192 src) d w2) as (_ & _ & _ & _ & Hold).
    cbn [w3 fclose set_open w_files]. rewrite (Hold []); [done|].
    by rewrite Hf2, lookup_insert_eq.
  - intros i b q Hi Hq Hlt.
    rewrite <- (fread_all_concat 8192 src) at 2 by apply chunk_pos.
    by apply (stored_short _ _ i b q).
  - by rewrite (main_loop_entry _ _ _ _ _ _ _ Hparse Hcopy).
Qed.

Lemma copy_value_zero_hides_late_loss_witness :
  ∃ w3,
    copyFile (lit "romfs:/game.sfc") (lit "/roms/snes/game.sfc") Chunks.w_late
    = (0%Z, w3)
    ∧ w_files w3 !! lit "/roms/snes/game.sfc" = Some (lit "ROM")
    ∧ main_loop [Demo.entry_line] Chunks.w_late =
        (EvCopying (lit "romfs:/game.sfc") (lit "/roms/snes/game.sfc")
           :: EvDone :: (main_loop [] w3).1,
         (main_loop [] w3).2).
Proof.
  destruct (copy_value_zero_hides_late_loss Demo.entry_line [] Chunks.w_late
              (lit "snes") (lit "game.sfc") (lit "ROMDATA")
              (set_open 1 Chunks.w_late) (lit "/roms/snes/game.sfc")
              (fopen_wb (lit "/roms/snes/game.sfc")
                 (ensure_dir (lit "/roms/snes/game.sfc")
                    (set_open 1 Chunks.w_late))).2)
    as (w3 & H1 & H2 & _ & H4).
  - vm_compute; reflexivity.
  - vm_compute; reflexivity.
  - vm_compute; reflexivity.
  - intros j b Hj. destruct j as [|j]; [|done].
    injection Hj as <-. vm_compute. reflexivity.
  - exists w3. split; [exact H1|]. split; [|exact H4].
    refine (eq_trans H2 _). vm_compute. reflexivity.
Defined.

Lemma copyFile_value_open srcPath dstPath w src :
  w_files w !! srcPath = Some src →
  (copyFile srcPath dstPath w).1 = 0%Z ∨ (copyFile srcPath dstPath w).1 = IoError.
Proof.
  intros Hsrc. rewrite (copyFile_src_open _ _ _ src) by done. cbn zeta.
  destruct (fopen_wb dstPath _) as [[dst|] w2]; [apply copy_loop_value|by right].
Qed.

(** Property X5.  The three values of [copyFile]: the not-found code when, and only
    when, the source does not open, in which case nothing at all is
    changed (no directory is made for the destination); otherwise [0] or
    the I/O error. *)
Theorem copy_not_found_iff_source_missing srcPath dstPath w :
  ((copyFile srcPath dstPath w).1 = NotFound ↔ w_files w !! srcPath = None)
  ∧ (w_files w !! srcPath = None → (copyFile srcPath dstPath w).2 = w)
  ∧ ((copyFile srcPath dstPath w).1 = NotFound
     ∨ (copyFile srcPath dstPath w).1 = IoError
     ∨ (copyFile srcPath dstPath w).1 = 0%Z).
Proof.
  destruct NotFound_codes as [H0 H1].
  destruct (w_files w !! srcPath) as [src|] eqn:Hsrc.
  - pose proof (copyFile_value_open srcPath dstPath w src Hsrc) as Hv.
    split; [|split; [done|]].
    + split; [|done]. intros Hnf. destruct Hv as [Hv|Hv]; congruence.
    + destruct Hv; auto.
  - rewrite copyFile_src_missing by done. split; [done|]. split; [done|]. by left.
Qed.

(** Property X6.  Every stream is closed again on every path, whatever the medium
    does: [copyFile] and [main] hand the store back with as many open
    streams as they found. *)
Theorem no_stream_left_open srcPath dstPath romfs_rc pad w :
  w_open (copyFile srcPath dstPath w).2 = w_open w
  ∧ w_open (main romfs_rc pad w).2 = w_open w.
Proof.
  split; [apply copyFile_frame|].
  destruct (R_FAILED romfs_rc) eqn:Hrc; [by rewrite main_unmounted|].
  destruct (w_files w !! lit "romfs:/filelist.txt") as [list|] eqn:Hl.
  - rewrite (main_mounted romfs_rc pad w list) by done. cbn [snd fclose set_open w_open].
    by rewrite (proj1 (proj2 (main_loop_frame _ _))).
  - by rewrite main_missing.
Qed.

End CopyProps.

Module EngineProps.
Import Libc LibcSpec LibcFacts CStringFacts.
Import MultiStub MultiStubSpec MkpathFacts ManifestSpec CopyFacts ManifestFacts.
Import EngineFacts RerunFacts RerunProof ScenarioFacts StubFacts MkpathProps CopyProps.

Lemma last_slash_lookup s i : last_slash s = Some i → s !! i = Some SLASH.
Proof.
  revert i. induction s as [|c s IH]; intros i; simpl; [done|].
  destruct (last_slash s) as [j|].
  - intros [= <-]. simpl. by apply IH.
  - destruct (Ascii.eqb_spec c SLASH) as [->|]; [|done]. by intros [= <-].
Qed.

(** A path is its directory part, a slash, and the rest. *)
Lemma dirname_split p i :
  last_slash p = Some i → p = dirname p ++ SLASH :: drop (S i) p.
Proof.
  intros Hi. unfold dirname. rewrite Hi.
  apply last_slash_lookup in Hi. by rewrite take_drop_middle.
Qed.

(** Property X8.  One entry on a medium without pending faults: when the source is in
    the RomFS, no regular file sits where a directory of the destination
    has to be and the destination is not a directory, the loop prints
    "Copying" and "Done.", the destination holds the bytes of the source,
    the directories of the destination are made (those and no others),
    and the loop goes on from there. *)
Theorem healthy_entry_is_copied raw raws w platform filename src :
  clean w →
  parse_line raw = Entry platform filename →
  w_files w !! srcPath_of filename = Some src →
  Forall (fun t => is_file w t = false)
         (targets (dirname (dstPath_of platform filename))) →
  is_dir w (dstPath_of platform filename) = false →
  ∃ w1,
    main_loop (raw :: raws) w
    = (EvCopying (srcPath_of filename) (dstPath_of platform filename)
         :: EvDone :: (main_loop raws w1).1,
       (main_loop raws w1).2)
    ∧ w_files w1 = <[dstPath_of platform filename := src]> (w_files w)
    ∧ w_dirs w1
      = w_dirs w ∪ list_to_set (targets (dirname (dstPath_of platform filename)))
    ∧ clean w1.
Proof.
  intros Hc Hparse Hsrc Hnf Hnd.
  set (s := srcPath_of filename) in *. set (d := dstPath_of platform filename) in *.
  destruct (parse_line_entry _ _ _ Hparse) as (_ & _ & _ & Hlp & Hlf).
  assert (length d ≤ 1023) as Hlen by (unfold d; rewrite dstPath_length; lia).
  destruct (copy_succeeds s d w src Hc Hsrc (srcPath_dstPath_ne _ _) Hlen Hnf Hnd)
    as [Hrc Hfiles].
  destruct (copyFile_clean s d w src Hc Hsrc) as (Hc1 & Hd1 & _).
  destruct (copyFile s d w) as [rc w1] eqn:Hcopy. cbn [fst snd] in *. subst rc.
  exists w1. split; [|split; [done|split; [|done]]].
  - by rewrite (main_loop_entry raw raws w _ _ 0%Z w1 Hparse Hcopy).
  - rewrite Hd1, ensure_dir_short by done.
    by apply (mkdirs_all_made (dirname d) (set_open (S (w_open w)) w)).
Qed.

Lemma healthy_entry_is_copied_witness :
  ∃ w1,
    main_loop [Demo.entry_line] Demo.w_card
    = (EvCopying (lit "romfs:/game.sfc") (lit "/roms/snes/game.sfc")
         :: EvDone :: (main_loop [] w1).1,
       (main_loop [] w1).2)
    ∧ w_files w1 = <[lit "/roms/snes/game.sfc" := lit "ROMDATA"]> (w_files Demo.w_card)
    ∧ w_dirs w1
      = w_dirs Demo.w_card ∪ list_to_set (targets (lit "/roms/snes"))
    ∧ clean w1.
Proof.
  apply (healthy_entry_is_copied Demo.entry_line [] Demo.w_card
           (lit "snes") (lit "game.sfc") (lit "ROMDATA")).
  - reflexivity.
  - vm_compute; reflexivity.
  - vm_compute; reflexivity.
  - repeat constructor.
  - vm_compute; reflexivity.
Defined.

Lemma summary_process_line raw w :
  attempted (summary (process_line raw w).1)
  = succeeded (summary (process_line raw w).1)
    + failed (summary (process_line raw w).1).
Proof.
  rewrite process_line_parse.
  destruct (parse_line raw) as [|line|platform filename]; try done.
  cbn zeta. destruct (copyFile _ _ w) as [rc w1]. cbn [fst].
  by destruct (R_FAILED rc).
Qed.

Lemma summary_main_loop raws w :
  attempted (summary (main_loop raws w).1)
  = succeeded (summary (main_loop raws w).1)
    + failed (summary (main_loop raws w).1).
Proof.
  revert w. induction raws as [|raw raws IH]; intros w; [done|].
  rewrite main_loop_cons. cbn [fst]. rewrite summary_app. cbn [attempted succeeded failed].
  rewrite summary_process_line, IH. lia.
Qed.

(** Property X9.  In what [main] prints, on any medium and for any manifest, every
    "Copying" line is answered by exactly one of "Done." and "Copy
    failed": the attempts are the successes plus the failures. *)
Theorem every_attempt_has_one_outcome romfs_rc pad w :
  attempted (summary (main romfs_rc pad w).1.2)
  = succeeded (summary (main romfs_rc pad w).1.2)
    + failed (summary (main romfs_rc pad w).1.2).
Proof.
  destruct (R_FAILED romfs_rc) eqn:Hrc.
  { rewrite main_unmounted by done. cbn [fst snd].
    by rewrite (summary_app [_; _]), summary_pad_loop. }
  destruct (w_files w !! lit "romfs:/filelist.txt") as [list|] eqn:Hl.
  - rewrite (main_mounted romfs_rc pad w list) by done. cbn [fst snd].
    pose proof (summary_main_loop (fgets_all 768 list) (set_open (S (w_open w)) w)).
    rewrite summary_app, (summary_app [EvPressPlus]), summary_pad_loop.
    change (summary [EvPressPlus]) with (mkSummary 0 0 0).
    cbn [attempted succeeded failed]. lia.
  - rewrite main_missing by done. cbn [fst snd].
    by rewrite (summary_app [_; _]), summary_pad_loop.
Qed.

End EngineProps.

Module ManifestProps.
Import Libc LibcSpec LibcFacts CStringFacts.
Import MultiStub MultiStubSpec MkpathFacts ManifestSpec CopyFacts ManifestFacts.
Import EngineFacts StringProps.

(** What the loop body makes of a line laid out as the manifest has it:
    a category, a tab, any white space, a file name, the end of line. *)
Lemma parse_line_layout platform ws filename eol :
  platform ≠ [] → TAB ∉ platform → NUL ∉ platform → length platform ≤ 159 →
  forallb isspace ws = true →
  filename ≠ [] → LF ∉ filename → NUL ∉ filename →
  (∀ c, head filename = Some c → isspace c = false) →
  (∀ c, last filename = Some c → c ≠ CR) →
  forallb is_crlf eol = true →
  parse_line (platform ++ TAB :: ws ++ filename ++ eol)
  = Entry platform (take 575 filename).
Proof.
  intros Hp Htab Hnul Hlp Hws Hf Hlf Hnulf Hhd Hlast Heol. unfold parse_line.
  replace (platform ++ TAB :: ws ++ filename ++ eol)
    with ((platform ++ TAB :: ws ++ filename) ++ eol)
    by (by rewrite <- app_assoc; simpl; rewrite <- app_assoc).
  rewrite cstr_id.
  2:{ rewrite !not_elem_of_app, not_elem_of_cons, not_elem_of_app.
      split; [split; [done|split; [done|split; [|done]]]|].
      - by apply (forallb_not_in isspace).
      - by apply (forallb_not_in is_crlf). }
  rewrite rtrim_app by done.
  destruct filename as [|f0 fs]; [done|].
  assert (∃ c, last (f0 :: fs) = Some c) as [cl Hcl].
  { destruct (last (f0 :: fs)) eqn:E; [by eexists|].
    by apply last_None in E. }
  rewrite (rtrim_id _ _ cl).
  2:{ rewrite last_app_cons.
      change (TAB :: ws ++ f0 :: fs) with ((TAB :: ws) ++ f0 :: fs).
      by rewrite last_app_cons. }
  2:{ unfold is_crlf. apply orb_false_iff. split; apply Ascii.eqb_neq.
      - intros ->. apply Hlf. by apply last_Some_elem_of.
      - by apply Hlast. }
  destruct (platform ++ TAB :: ws ++ f0 :: fs) eqn:E; [by destruct platform|].
  rewrite <- E. clear E. unfold sscanf_line.
  destruct (platform ++ TAB :: ws ++ f0 :: fs) eqn:E; [by destruct platform|].
  rewrite <- E. clear E.
  rewrite (scanset_exact _ 159 platform (TAB :: ws ++ f0 :: fs));
    [|by apply not_in_forallb|done|reflexivity].
  destruct platform as [|p0 ps]; [done|].
  cbn [skip_space]. change (isspace TAB) with true. cbn iota.
  rewrite skip_space_app, skip_space_id by done.
  rewrite scanset_take by (by apply not_in_forallb).
  done.
Qed.

(** Property X10.  A manifest line "category TAB file name" is read back as it was
    written: the end of line (LF, CR LF, or none) is dropped, and so is
    any white space that follows the tab, since the tab of the format is
    a white-space directive. *)
Theorem entry_line_round_trip platform ws filename eol :
  platform ≠ [] → TAB ∉ platform → NUL ∉ platform → length platform ≤ 159 →
  forallb isspace ws = true →
  filename ≠ [] → LF ∉ filename → NUL ∉ filename → length filename ≤ 575 →
  (∀ c, head filename = Some c → isspace c = false) →
  (∀ c, last filename = Some c → c ≠ CR) →
  forallb is_crlf eol = true →
  parse_line (platform ++ TAB :: ws ++ filename ++ eol) = Entry platform filename.
Proof.
  intros. rewrite parse_line_layout by done. by rewrite firstn_all2.
Qed.

Lemma entry_line_round_trip_witness :
  parse_line (lit "snes" ++ TAB :: [SP; TAB] ++ lit "Super Game.sfc" ++ [CR; LF])
  = Entry (lit "snes") (lit "Super Game.sfc").
Proof.
  apply (entry_line_round_trip (lit "snes") [SP; TAB] (lit "Super Game.sfc") [CR; LF]).
  - done.
  - by apply (forallb_not_in (fun c => negb (Ascii.eqb c TAB))).
  - by apply (forallb_not_in (fun c => negb (Ascii.eqb c NUL))).
  - simpl; lia.
  - reflexivity.
  - done.
  - by apply (forallb_not_in (fun c => negb (Ascii.eqb c LF))).
  - by apply (forallb_not_in (fun c => negb (Ascii.eqb c NUL))).
  - simpl; lia.
  - by intros c [= <-].
  - by intros c [= <-].
  - reflexivity.
Defined.

(** Property X11.  A file name of more than 575 bytes is not refused: the entry is
    processed with the first 575 bytes as the name, which is the source
    looked up in the RomFS and the name given to the copy. *)
Theorem long_filename_is_cut platform filename eol w :
  platform ≠ [] → TAB ∉ platform → NUL ∉ platform → length platform ≤ 159 →
  LF ∉ filename → NUL ∉ filename → 575 < length filename →
  (∀ c, head filename = Some c → isspace c = false) →
  (∀ c, last filename = Some c → c ≠ CR) →
  forallb is_crlf eol = true →
  head (process_line (platform ++ TAB :: filename ++ eol) w).1
  = Some (EvCopying (srcPath_of (take 575 filename))
                    (dstPath_of platform (take 575 filename))).
Proof.
  intros Hp Htab Hnul Hlp Hlf Hnulf Hlen Hhd Hlast Heol.
  rewrite process_line_parse.
  assert (filename ≠ []) as Hf by (intros ->; simpl in Hlen; lia).
  pose proof (parse_line_layout platform [] filename eol
                Hp Htab Hnul Hlp eq_refl Hf Hlf Hnulf Hhd Hlast Heol) as Hparse.
  change ([] ++ filename ++ eol) with (filename ++ eol) in Hparse.
  rewrite Hparse. cbn zeta. by destruct (copyFile _ _ w).
Qed.

Lemma long_filename_is_cut_witness :
  head (process_line (lit "gb" ++ TAB :: repeat "a"%char 600 ++ [LF]) Demo.w_card).1
  = Some (EvCopying (srcPath_of (repeat "a"%char 575))
                    (dstPath_of (lit "gb") (repeat "a"%char 575))).
Proof.
  apply (long_filename_is_cut (lit "gb") (repeat "a"%char 600) [LF] Demo.w_card).
  - done.
  - by apply (forallb_not_in (fun c => negb (Ascii.eqb c TAB))).
  - by apply (forallb_not_in (fun c => negb (Ascii.eqb c NUL))).
  - simpl; lia.
  - by apply (forallb_not_in (fun c => negb (Ascii.eqb c LF))).
  - by apply (forallb_not_in (fun c => negb (Ascii.eqb c NUL))).
  - apply Nat.ltb_lt. vm_compute. reflexivity.
  - by intros c [= <-].
  - intros c Hc. vm_compute in Hc. by injection Hc as <-.
  - reflexivity.
Defined.

(** Property X12.  The lines the loop passes over without a word are exactly those
    whose C string holds nothing but CR and LF: such a buffer prints
    nothing and changes nothing. *)
Theorem blank_lines_are_skipped raw w :
  (parse_line raw = Blank ↔ forallb is_crlf (cstr raw) = true)
  ∧ (process_line raw w = ([], w) ↔ forallb is_crlf (cstr raw) = true).
Proof.
  assert (parse_line raw = Blank ↔ forallb is_crlf (cstr raw) = true) as Hb.
  { unfold parse_line. split.
    - destruct (rtrim is_crlf (cstr raw)) as [|c l] eqn:E; [intros _; by apply rtrim_nil|].
      destruct (sscanf_line (c :: l)) as [[n p] f]. by destruct (negb _).
    - intros H. by rewrite rtrim_all. }
  split; [done|]. rewrite <- Hb, process_line_parse.
  destruct (parse_line raw); split; try done.
  cbn zeta. by destruct (copyFile _ _ w).
Qed.

(** Property X13.  Malformed lines.  A line that begins with a tab (no category), a
    line of at most 159 bytes without any tab (no file name), and a
    category followed by a tab and white space only, are each reported
    as a bad manifest line, with the line as read less its end of line,
    and leave the store as it was. *)
Theorem malformed_lines_are_reported raw w :
  let line := rtrim is_crlf (cstr raw) in
  line ≠ [] →
  head line = Some TAB
  ∨ ((TAB ∉ line) ∧ length line ≤ 159)
  ∨ (∃ platform ws, line = platform ++ TAB :: ws ∧ (TAB ∉ platform)
                    ∧ length platform ≤ 159 ∧ forallb isspace ws = true) →
  process_line raw w = ([EvBadLine line], w).
Proof.
  cbn zeta. intros Hne Hcase.
  assert (∃ n p f, sscanf_line (rtrim is_crlf (cstr raw)) = (n, p, f) ∧ n ≠ 2%Z)
    as (n & p & f & Hscan & Hn).
  { destruct (rtrim is_crlf (cstr raw)) as [|c l]; [done|].
    destruct Hcase as [Htab|[[Htab Hlen]|(platform & ws & Hl & Htab & Hlen & Hws)]].
    - injection Htab as ->. by exists 0%Z, [], [].
    - pose proof (scanset_exact (fun d => negb (Ascii.eqb d TAB)) 159 (c :: l) []
                    (not_in_forallb _ _ Htab) Hlen I) as Hs.
      rewrite app_nil_r in Hs. unfold sscanf_line. rewrite Hs.
      by exists 1%Z, (c :: l), [].
    - unfold sscanf_line. rewrite Hl.
      rewrite (scanset_exact _ 159 platform (TAB :: ws));
        [|by apply not_in_forallb|done|reflexivity].
      destruct platform as [|p0 ps]; [by exists 0%Z, [], []|].
      cbn [skip_space]. change (isspace TAB) with true. cbn iota.
      rewrite <- (app_nil_r ws), skip_space_app by done.
      by exists 1%Z, (p0 :: ps), []. }
  unfold process_line.
  destruct (rtrim is_crlf (cstr raw)) as [|c l]; [done|].
  rewrite Hscan. by destruct (Z.eqb_spec n 2).
Qed.

Lemma malformed_lines_are_reported_witness :
  process_line (lit "no tab here" ++ [CR; LF]) Demo.w_card
  = ([EvBadLine (lit "no tab here")], Demo.w_card).
Proof.
  apply (malformed_lines_are_reported (lit "no tab here" ++ [CR; LF]) Demo.w_card).
  - done.
  - right; left. split; [|simpl; lia].
    by apply (forallb_not_in (fun c => negb (Ascii.eqb c TAB))).
Defined.

Lemma fgets_take_line n line rest :
  LF ∉ line → length line < n →
  fgets_take n (line ++ LF :: rest) = (line ++ [LF], rest).
Proof.
  revert n. induction line as [|c line IH]; intros n Hlf Hlen.
  - destruct n; [simpl in Hlen; lia|done].
  - destruct n; [simpl in Hlen; lia|]. simpl in *.
    apply not_elem_of_cons in Hlf as [Hc Hlf].
    destruct (Ascii.eqb_spec c LF); [congruence|].
    rewrite IH; [done|done|lia].
Qed.

Lemma fgets_take_full n chunk rest :
  LF ∉ chunk → length chunk = n → fgets_take n (chunk ++ rest) = (chunk, rest).
Proof.
  revert n. induction chunk as [|c chunk IH]; intros n Hlf Hlen.
  - simpl in *. subst n. by destruct rest.
  - destruct n; [done|]. simpl in *.
    apply not_elem_of_cons in Hlf as [Hc Hlf].
    destruct (Ascii.eqb_spec c LF); [congruence|].
    rewrite IH; [done|done|lia].
Qed.

(** Property X14.  How [main] cuts the manifest into the buffers it processes.  A line
    of at most 766 bytes is processed with its newline, then the rest of
    the manifest.  A run of 767 bytes without a newline fills the buffer:
    it is processed as a line of its own and what follows it, the tail of
    the same manifest line included, as the next. *)
Theorem manifest_is_read_in_buffers line rest w :
  LF ∉ line →
  (length line ≤ 766 →
   main_loop (fgets_all 768 (line ++ LF :: rest)) w
   = main_loop ((line ++ [LF]) :: fgets_all 768 rest) w)
  ∧ (length line = 767 →
     main_loop (fgets_all 768 (line ++ rest)) w
     = main_loop (line :: fgets_all 768 rest) w).
Proof.
  intros Hlf. split; intros Hlen.
  - rewrite fgets_all_unfold by (apply Nat.leb_le; vm_compute; reflexivity).
    unfold fgets. destruct (line ++ LF :: rest) eqn:E; [by destruct line|].
    rewrite <- E. clear E.
    change (768 - 1) with 767.
    rewrite fgets_take_line; [done|done|].
    apply Nat.lt_succ_r in Hlen. exact Hlen.
  - rewrite fgets_all_unfold by (apply Nat.leb_le; vm_compute; reflexivity).
    unfold fgets. destruct (line ++ rest) eqn:E.
    { apply app_eq_nil in E as [-> _]. simpl in Hlen. exfalso.
      revert Hlen. apply Nat.lt_neq, Nat.ltb_lt. vm_compute. reflexivity. }
    rewrite <- E. clear E.
    change (768 - 1) with 767.
    by rewrite fgets_take_full.
Qed.

Lemma manifest_is_read_in_buffers_witness :
  main_loop (fgets_all 768 (lit "snes" ++ [TAB] ++ lit "game.sfc" ++ LF :: lit "x")) Demo.w_card
  = main_loop ((lit "snes" ++ [TAB] ++ lit "game.sfc" ++ [LF]) :: fgets_all 768 (lit "x"))
      Demo.w_card.
Proof.
  apply (manifest_is_read_in_buffers (lit "snes" ++ [TAB] ++ lit "game.sfc") (lit "x")
           Demo.w_card).
  - by apply (forallb_not_in (fun c => negb (Ascii.eqb c LF))).
  - apply Nat.leb_le. vm_compute. reflexivity.
Defined.

End ManifestProps.

Module FootprintProps.
Import Libc LibcSpec LibcFacts CStringFacts.
Import MultiStub MultiStubSpec MkpathFacts ManifestSpec CopyFacts ManifestFacts.
Import EngineFacts RerunFacts RerunProof ScenarioFacts StubFacts MkpathProps CopyProps.
Import EngineProps PathSpec.

Lemma segments_from_slash cur t r :
  segments_from cur (t ++ SLASH :: r) = segments_from cur t ++ segments_from [] r.
Proof.
  revert cur. induction t as [|c t IH]; intros cur; [done|].
  cbn [app segments_from]. destruct (Ascii.eqb c SLASH); [by rewrite IH|apply IH].
Qed.

Lemma segments_roms rest :
  segments (OUTPUT_BASE ++ rest) = [] :: lit "roms" :: segments rest.
Proof. done. Qed.

(** Without [..] a path never leaves the directory its first name
    leads to. *)
Lemma step_head dir r seg :
  head dir = Some r → seg ≠ lit ".." → head (step dir seg) = Some r.
Proof.
  intros Hd Hseg. unfold step. destruct (bool_decide _); [done|].
  rewrite bool_decide_eq_false_2 by done. by destruct dir.
Qed.

Lemma resolve_head dir r segs :
  head dir = Some r → lit ".." ∉ segs → head (foldl step dir segs) = Some r.
Proof.
  revert dir. induction segs as [|seg segs IH]; intros dir Hd Hno; [done|].
  apply not_elem_of_cons in Hno as [Hseg Hno]. cbn [foldl].
  apply IH; [|done]. apply step_head; [done|congruence].
Qed.

Lemma under_roms_base rest :
  lit ".." ∉ segments rest → under_roms (OUTPUT_BASE ++ rest).
Proof.
  intros Hno. unfold under_roms, resolve. rewrite segments_roms.
  change (foldl step [] ([] :: lit "roms" :: segments rest))
    with (foldl step [lit "roms"] (segments rest)).
  by apply resolve_head.
Qed.

(** The directories made for a destination: [/roms], or the destination
    cut before one of its later slashes. *)
Lemma targets_roms_cut rest t :
  t ∈ targets (dirname (OUTPUT_BASE ++ rest)) →
  t = lit "/roms" ∨ ∃ t' r, t = OUTPUT_BASE ++ t' ∧ rest = t' ++ SLASH :: r.
Proof.
  intros Ht. set (dst := OUTPUT_BASE ++ rest) in *.
  assert (∃ r, dst = t ++ SLASH :: r) as [r Hr].
  { destruct (last_slash dst) as [i|] eqn:Hi.
    - pose proof (dirname_split dst i Hi) as Hsplit.
      apply targets_cut in Ht as [_ [->|[r' Hr']]]; [by eexists|].
      rewrite Hr', <- app_assoc in Hsplit. by eexists.
    - unfold dirname in Ht. rewrite Hi in Ht. by apply elem_of_nil in Ht. }
  apply targets_cut in Ht as [Hne _]. unfold dst in Hr. clear dst.
  destruct t as [|c0 [|c1 [|c2 [|c3 [|c4 t]]]]]; simplify_eq/=.
  destruct t as [|c5 t]; [by left|]. simplify_eq/=. right. by exists t, r.
Qed.

Lemma targets_under_roms_resolved rest t :
  lit ".." ∉ segments rest →
  t ∈ targets (dirname (OUTPUT_BASE ++ rest)) → under_roms t.
Proof.
  intros Hno [->|(t' & r & -> & ->)]%targets_roms_cut; [done|].
  apply under_roms_base. unfold segments in Hno.
  rewrite segments_from_slash in Hno. by apply not_elem_of_app in Hno as [? _].
Qed.

(** What one line may change, on any medium. *)
Lemma process_line_resolved raw w :
  no_dotdot raw →
  (∀ p, w_files (process_line raw w).2 !! p ≠ w_files w !! p → under_roms p)
  ∧ (∀ p, p ∈ w_dirs (process_line raw w).2 → p ∉ w_dirs w → under_roms p).
Proof.
  intros Hno. rewrite process_line_parse.
  destruct (parse_line raw) as [|line|platform filename] eqn:Hparse; try done.
  specialize (Hno platform filename Hparse).
  assert (lit ".." ∉ segments (platform ++ lit "/" ++ filename)) as Hrest.
  { unfold dstPath_of in Hno. rewrite segments_roms in Hno.
    by apply not_elem_of_cons in Hno as [_ [_ ?]%not_elem_of_cons]. }
  cbn zeta. set (s := srcPath_of filename). set (d := dstPath_of platform filename).
  destruct (parse_line_entry _ _ _ Hparse) as (_ & _ & _ & Hlp & Hlf).
  assert (length d ≤ 1023) as Hlen by (unfold d; rewrite dstPath_length; lia).
  pose proof (copyFile_frame s d w) as (_ & _ & Hf).
  destruct (w_files w !! s) as [src|] eqn:Hsrc.
  - pose proof (copyFile_from_dir s d w src Hsrc) as (_ & Hd & _).
    destruct (copyFile s d w) as [rc w1]. cbn [fst snd] in *. split.
    + intros p Hp. destruct (decide (p = d)) as [->|Hne].
      * by apply under_roms_base.
      * by destruct Hp; apply Hf.
    + intros p Hin Hnot. rewrite Hd, ensure_dir_short in Hin by done.
      apply mkdirs_dirs in Hin as [?|Hin]; [done|].
      by apply (targets_under_roms_resolved (platform ++ lit "/" ++ filename)).
  - rewrite copyFile_src_missing by done. done.
Qed.

Lemma main_loop_resolved raws w :
  Forall no_dotdot raws →
  (∀ p, w_files (main_loop raws w).2 !! p ≠ w_files w !! p → under_roms p)
  ∧ (∀ p, p ∈ w_dirs (main_loop raws w).2 → p ∉ w_dirs w → under_roms p).
Proof.
  intros Hall. revert w. induction Hall as [|raw raws Hraw _ IH]; intros w; [done|].
  rewrite main_loop_cons. cbn [snd].
  destruct (process_line_resolved raw w Hraw) as [Hf Hd].
  destruct (IH (process_line raw w).2) as [Hf' Hd']. split.
  - intros p Hp.
    destruct (decide (w_files (process_line raw w).2 !! p = w_files w !! p)) as [E|E];
      [|by apply Hf].
    apply Hf'. by rewrite E.
  - intros p Hin Hnot.
    destruct (decide (p ∈ w_dirs (process_line raw w).2)); [by apply Hd|by apply Hd'].
Qed.

(** Property X7.  The footprint of the stub, on any medium, when no
    entry of the manifest has [..] among the segments of its
    destination: every file created or changed, and every directory
    made, is reached by a path that leads to [/roms] or below, and
    nothing that was there is removed.  (With [..] the destination can
    lead anywhere on the card: the paths are not checked.) *)
Theorem main_writes_only_under_roms romfs_rc pad w :
  (∀ list, w_files w !! lit "romfs:/filelist.txt" = Some list →
           Forall no_dotdot (fgets_all 768 list)) →
  (∀ p, w_files (main romfs_rc pad w).2 !! p ≠ w_files w !! p → under_roms p)
  ∧ (∀ p, p ∈ w_dirs (main romfs_rc pad w).2 → p ∉ w_dirs w → under_roms p)
  ∧ (∀ p, is_file w p = true → is_file (main romfs_rc pad w).2 p = true)
  ∧ (∀ p, is_dir w p = true → is_dir (main romfs_rc pad w).2 p = true).
Proof.
  intros Hno.
  destruct (R_FAILED romfs_rc) eqn:Hrc; [by rewrite main_unmounted|].
  destruct (w_files w !! lit "romfs:/filelist.txt") as [list|] eqn:Hl;
    [|by rewrite main_missing].
  rewrite (main_mounted romfs_rc pad w list) by done. cbn [snd].
  set (w0 := set_open (S (w_open w)) w).
  destruct (main_loop_resolved (fgets_all 768 list) w0 (Hno list eq_refl)) as [Hf Hd].
  destruct (main_loop_frame (fgets_all 768 list) w0) as (Hg & _).
  split; [exact Hf|]. split; [exact Hd|]. split.
  - intros p Hp. by apply (grows_files _ _ Hg).
  - intros p Hp. by apply (grows_dirs _ _ Hg).
Qed.

Lemma main_writes_only_under_roms_witness :
  (∀ p, w_files (main 0 [] Demo.w_card).2 !! p ≠ w_files Demo.w_card !! p →
        under_roms p)
  ∧ (∀ p, p ∈ w_dirs (main 0 [] Demo.w_card).2 → p ∉ w_dirs Demo.w_card →
          under_roms p)
  ∧ (∀ p, is_file Demo.w_card p = true → is_file (main 0 [] Demo.w_card).2 p = true)
  ∧ (∀ p, is_dir Demo.w_card p = true → is_dir (main 0 [] Demo.w_card).2 p = true).
Proof.
  apply (main_writes_only_under_roms 0 [] Demo.w_card).
  intros list Hlist. vm_compute in Hlist. injection Hlist as <-.
  match goal with
  | |- Forall _ ?l => let l' := eval vm_compute in l in change l with l'
  end.
  repeat match goal with
         | |- Forall _ (_ :: _) => constructor
         | |- Forall _ [] => constructor
         end.
  all: intros platform filename Hparse; vm_compute in Hparse; try done.
  all: injection Hparse as <- <-.
  all: refine (@bool_decide_unpack _ _ _); vm_compute; exact I.
Defined.



End FootprintProps.

Module StubProps.
Import Libc LibcSpec LibcFacts CStringFacts CopyFacts EngineFacts StubFacts.
Import ManifestSpec ForwarderFacts.
Import Stub.

Lemma stub_copy_loop_frame chunks dst w :
  w_dirs (copy_loop chunks dst w) = w_dirs w
  ∧ w_open (copy_loop chunks dst w) = w_open w
  ∧ ∀ p, p ≠ dst → w_files (copy_loop chunks dst w) !! p = w_files w !! p.
Proof.
  revert w. induction chunks as [|buf chunks IH]; intros w; [done|].
  cbn [copy_loop].
  destruct (fwrite_fields buf dst w) as (_ & Hf & _ & Hd & Ho). cbn zeta in Hf.
  destruct (IH (fwrite buf dst w).2) as (Hd' & Ho' & Hf').
  split; [congruence|]. split; [congruence|].
  intros p Hp. by rewrite Hf', Hf, lookup_insert_ne.
Qed.

Lemma stub_copy_loop_clean chunks dst w old :
  clean w → w_files w !! dst = Some old →
  copy_loop chunks dst w
  = set_files (<[dst := old ++ concat chunks]> (w_files w)) w.
Proof.
  revert w old. induction chunks as [|buf chunks IH]; intros w old Hc Ho.
  { cbn [copy_loop concat]. rewrite app_nil_r, insert_id by done. by destruct w. }
  cbn [copy_loop]. rewrite fwrite_clean_spec by done. cbn [snd].
  rewrite Ho. cbn [default].
  erewrite IH; [|done|by cbn; rewrite lookup_insert_eq].
  cbn. by rewrite insert_insert_eq, <- app_assoc.
Qed.

Lemma stub_paths :
  snprintf 64 (lit "romfs:/" ++ ROM_NAME) = lit "romfs:/rom.bin"
  ∧ snprintf 256 (OUTPUT_DIR ++ ROM_NAME) = lit "/switch/roms/rom.bin".
Proof. by vm_compute. Qed.

Lemma stub_main_mounted romfs_rc pad w :
  R_FAILED romfs_rc = false →
  main romfs_rc pad w
  = (0%Z,
     [EvMounted; EvCopying (lit "romfs:/rom.bin") (lit "/switch/roms/rom.bin");
      if R_FAILED (copyFile (lit "romfs:/rom.bin") (lit "/switch/roms/rom.bin") w).1
      then EvCopyFailed (copyFile (lit "romfs:/rom.bin") (lit "/switch/roms/rom.bin") w).1
      else EvCopyComplete]
       ++ [EvPressPlus] ++ pad_loop pad,
     (copyFile (lit "romfs:/rom.bin") (lit "/switch/roms/rom.bin") w).2).
Proof.
  intros Hrc. unfold main. rewrite Hrc.
  destruct stub_paths as [-> ->]. by destruct (copyFile _ _ w).
Qed.

Lemma stub_copyFile_frame srcPath dstPath w :
  w_dirs (copyFile srcPath dstPath w).2 = w_dirs w
  ∧ w_open (copyFile srcPath dstPath w).2 = w_open w
  ∧ (∀ p, p ≠ dstPath →
          w_files (copyFile srcPath dstPath w).2 !! p = w_files w !! p)
  ∧ ((copyFile srcPath dstPath w).1 ≠ 0%Z →
     w_files (copyFile srcPath dstPath w).2 = w_files w).
Proof.
  unfold copyFile, fopen_rb. destruct (w_files w !! srcPath) as [src|]; [|done].
  destruct (fopen_wb dstPath _) as [[dst|] w1] eqn:E.
  - apply fopen_wb_some in E as (-> & _ & _ & Hf & Hd & Ho & _).
    destruct (stub_copy_loop_frame (fread_all 8192 (after_wb srcPath dstPath src))
                dstPath w1) as (Hd' & Ho' & Hf').
    cbn [fst snd fclose set_open w_dirs w_open w_files].
    rewrite Hd', Ho', Hd, Ho. repeat split; try done.
    intros p Hp. by rewrite Hf', Hf, lookup_insert_ne.
  - apply fopen_wb_none in E as (Hf & Hd & Ho).
    cbn [fst snd fclose set_open w_dirs w_open w_files].
    rewrite Hf, Hd, Ho. done.
Qed.

(** Property X15.  The footprint of the single-ROM stub, on any medium: it makes no
    directory, leaves no stream open and touches no file but
    [/switch/roms/rom.bin]; and a copy that reports a failure has
    changed no file at all. *)
Theorem stub_touches_one_file romfs_rc pad w srcPath dstPath :
  w_dirs (main romfs_rc pad w).2 = w_dirs w
  ∧ w_open (main romfs_rc pad w).2 = w_open w
  ∧ (∀ p, p ≠ lit "/switch/roms/rom.bin" →
          w_files (main romfs_rc pad w).2 !! p = w_files w !! p)
  ∧ ((copyFile srcPath dstPath w).1 ≠ 0%Z →
     w_files (copyFile srcPath dstPath w).2 = w_files w
     ∧ w_dirs (copyFile srcPath dstPath w).2 = w_dirs w).
Proof.
  destruct (stub_copyFile_frame srcPath dstPath w) as (Hd0 & _ & _ & Hfail).
  assert ((copyFile srcPath dstPath w).1 ≠ 0%Z →
          w_files (copyFile srcPath dstPath w).2 = w_files w
          ∧ w_dirs (copyFile srcPath dstPath w).2 = w_dirs w) as Hlast by auto.
  destruct (R_FAILED romfs_rc) eqn:Hrc.
  - unfold main. rewrite Hrc. cbn [snd]. done.
  - rewrite stub_main_mounted by done. cbn [snd].
    destruct (stub_copyFile_frame (lit "romfs:/rom.bin") (lit "/switch/roms/rom.bin") w)
      as (Hd & Ho & Hf & _).
    done.
Qed.

(** Property X16.  The healthy run of the single-ROM stub: the RomFS is mounted, the
    ROM is in it, [/switch/roms] exists and the medium has no fault
    pending.  The stub reports the copy as complete and
    [/switch/roms/rom.bin] holds the bytes of the ROM, whatever was
    there before. *)
Theorem stub_copies_the_rom romfs_rc pad w rom :
  R_FAILED romfs_rc = false → clean w →
  w_files w !! lit "romfs:/rom.bin" = Some rom →
  is_dir w (lit "/switch/roms") = true →
  is_dir w (lit "/switch/roms/rom.bin") = false →
  (main romfs_rc pad w).1
  = (0%Z, [EvMounted;
           EvCopying (lit "romfs:/rom.bin") (lit "/switch/roms/rom.bin");
           EvCopyComplete; EvPressPlus] ++ pad_loop pad)
  ∧ w_files (main romfs_rc pad w).2
    = <[lit "/switch/roms/rom.bin" := rom]> (w_files w)
  ∧ w_dirs (main romfs_rc pad w).2 = w_dirs w.
Proof.
  intros Hrc Hc Hsrc Hdir Hnd. rewrite stub_main_mounted by done.
  unfold copyFile, fopen_rb. rewrite Hsrc.
  unfold fopen_wb. rewrite fopen_write_clean_spec by done.
  change (dirname (lit "/switch/roms/rom.bin")) with (lit "/switch/roms").
  rewrite !(is_dir_ext w (set_open (S (w_open w)) w)) by done.
  rewrite Hnd, Hdir.
  cbn [orb negb].
  rewrite (stub_copy_loop_clean _ _ _ []);
    [|done|by cbn; rewrite lookup_insert_eq].
  cbn [fst snd fclose set_open set_files w_files w_dirs app].
  rewrite fread_all_concat by apply chunk_pos.
  by rewrite insert_insert_eq.
Qed.

Lemma stub_copies_the_rom_witness :
  (main 0 [] (set_quota [] Demo.w_stub_short)).1
  = (0%Z, [EvMounted;
           EvCopying (lit "romfs:/rom.bin") (lit "/switch/roms/rom.bin");
           EvCopyComplete; EvPressPlus])
  ∧ w_files (main 0 [] (set_quota [] Demo.w_stub_short)).2
    = <[lit "/switch/roms/rom.bin" := lit "ROMDATA"]>
        (w_files (set_quota [] Demo.w_stub_short))
  ∧ w_dirs (main 0 [] (set_quota [] Demo.w_stub_short)).2
    = w_dirs (set_quota [] Demo.w_stub_short).
Proof.
  apply (stub_copies_the_rom 0 [] (set_quota [] Demo.w_stub_short) (lit "ROMDATA")).
  - reflexivity.
  - reflexivity.
  - vm_compute; reflexivity.
  - vm_compute; reflexivity.
  - vm_compute; reflexivity.
Defined.

(** Property X17.  The single-ROM stub does not make its output directory: when
    [/switch/roms] is not there, the run reports a failed copy (the
    I/O error when the ROM is in the RomFS, the not-found code when it is
    not) and hands back the store exactly as it found it. *)
Theorem stub_needs_its_output_directory romfs_rc pad w :
  R_FAILED romfs_rc = false →
  is_dir w (lit "/switch/roms") = false →
  main romfs_rc pad w
  = (0%Z,
     [EvMounted;
      EvCopying (lit "romfs:/rom.bin") (lit "/switch/roms/rom.bin");
      EvCopyFailed (match w_files w !! lit "romfs:/rom.bin" with
                    | Some _ => IoError
                    | None => NotFound
                    end);
      EvPressPlus] ++ pad_loop pad,
     w).
Proof.
  intros Hrc Hdir. rewrite stub_main_mounted by done.
  unfold copyFile, fopen_rb.
  destruct (w_files w !! lit "romfs:/rom.bin") as [rom|]; [|done].
  unfold fopen_wb, fopen_write.
  change (dirname (lit "/switch/roms/rom.bin")) with (lit "/switch/roms").
  rewrite !(is_dir_ext w (set_open (S (w_open w)) w)) by done.
  rewrite Hdir.
  destruct (is_dir _ (lit "/switch/roms/rom.bin"));
    cbn [negb]; by destruct w.
Qed.

Lemma stub_needs_its_output_directory_witness :
  main 0 [] Demo.w_card
  = (0%Z,
     [EvMounted;
      EvCopying (lit "romfs:/rom.bin") (lit "/switch/roms/rom.bin");
      EvCopyFailed NotFound; EvPressPlus],
     Demo.w_card).
Proof.
  apply (stub_needs_its_output_directory 0 [] Demo.w_card).
  - reflexivity.
  - vm_compute; reflexivity.
Defined.

End StubProps.

Module ForwarderProps.
Import Libc LibcSpec LibcFacts CStringFacts StubFacts.
Import Forwarder ForwarderSpec ForwarderFacts HandoffSpec HandoffFacts LogSpec.
Import StringProps.

Lemma appended_refl p w : appended p w w.
Proof. intros old H. exists []. by rewrite app_nil_r. Qed.

Lemma appended_trans p w1 w2 w3 :
  appended p w1 w2 → appended p w2 w3 → appended p w1 w3.
Proof.
  intros H12 H23 old H. destruct (H12 old H) as (m1 & H2).
  destruct (H23 _ H2) as (m2 & H3). exists (m1 ++ m2). by rewrite app_assoc.
Qed.

Lemma appended_same p w w' : w_files w' !! p = w_files w !! p → appended p w w'.
Proof. intros E old H. exists []. by rewrite app_nil_r, E. Qed.

(** Opening for appending, on any medium. *)
Lemma fopen_a_fields p w :
  w_dirs (fopen_a p w).2 = w_dirs w
  ∧ match (fopen_a p w).1 with
    | Some f =>
        f = p ∧ w_open (fopen_a p w).2 = S (w_open w)
        ∧ w_files (fopen_a p w).2 = <[p := default [] (w_files w !! p)]> (w_files w)
    | None =>
        w_open (fopen_a p w).2 = w_open w ∧ w_files (fopen_a p w).2 = w_files w
    end.
Proof.
  unfold fopen_a, fopen_write. destruct (is_dir w p); [done|].
  destruct (negb (is_dir w (dirname p))); [done|].
  unfold take_quota. by destruct (w_quota w) as [|[|q] qs].
Qed.

Lemma fprintf_fields text f w :
  w_dirs (fprintf text f w) = w_dirs w
  ∧ w_open (fprintf text f w) = w_open w
  ∧ ∃ k, w_files (fprintf text f w)
         = <[f := default [] (w_files w !! f) ++ take k text]> (w_files w).
Proof.
  unfold fprintf. destruct (fwrite_fields text f w) as (_ & Hf & _ & Hd & Ho).
  split; [done|]. split; [done|]. eexists. exact Hf.
Qed.

Lemma fprintf_appended text f w : appended f w (fprintf text f w).
Proof.
  destruct (fprintf_fields text f w) as (_ & _ & k & Hf).
  intros old Hold. exists (take k text). by rewrite Hf, lookup_insert_eq, Hold.
Qed.

Lemma fopen_a_appended p w : appended p w (fopen_a p w).2.
Proof.
  destruct (fopen_a_fields p w) as [_ H].
  destruct (fopen_a p w).1 as [f|].
  - destruct H as (_ & _ & Hf). intros old Hold. exists [].
    by rewrite Hf, lookup_insert_eq, Hold, app_nil_r.
  - destruct H as [_ Hf]. apply appended_same. by rewrite Hf.
Qed.

Lemma fclose_appended p w : appended p w (fclose w).
Proof. by apply appended_same. Qed.

Lemma ensure_log_dir_fields w :
  w_files (ensure_log_dir w) = w_files w
  ∧ w_open (ensure_log_dir w) = w_open w
  ∧ w_dirs w ⊆ w_dirs (ensure_log_dir w)
  ∧ ∀ p, p ∈ w_dirs (ensure_log_dir w) → p ∈ w_dirs w ∨ p = LOG_DIR.
Proof.
  unfold ensure_log_dir. split; [apply mkdir_files|]. split; [apply mkdir_open|].
  split; [apply MkpathProps.mkdir_dirs_mono|]. intros p. apply ScenarioFacts.mkdir_dirs.
Qed.

(** What one call of [log_msg] or [log_printf] may do, on any medium. *)
Lemma log_msg_fields s w :
  appended LOG_PATH w (log_msg s w)
  ∧ w_open (log_msg s w) = w_open w
  ∧ w_dirs w ⊆ w_dirs (log_msg s w)
  ∧ ∀ p, p ∈ w_dirs (log_msg s w) → p ∈ w_dirs w ∨ p = LOG_DIR.
Proof.
  unfold log_msg. destruct (ensure_log_dir_fields w) as (Hf0 & Ho0 & Hs0 & Hd0).
  set (w0 := ensure_log_dir w) in *.
  assert (appended LOG_PATH w w0) as Ha0 by (apply appended_same; by rewrite Hf0).
  pose proof (fopen_a_appended LOG_PATH w0) as Ha1.
  destruct (fopen_a_fields LOG_PATH w0) as [Hd1 H1].
  destruct (fopen_a LOG_PATH w0) as [[f|] w1]; cbn [fst snd] in *.
  - destruct H1 as (-> & Ho1 & _).
    destruct (fprintf_fields (s ++ [LF]) LOG_PATH w1) as (Hd2 & Ho2 & _).
    split.
    { eapply appended_trans; [exact Ha0|]. eapply appended_trans; [exact Ha1|].
      eapply appended_trans; [apply fprintf_appended|apply fclose_appended]. }
    cbn [fclose set_open w_open w_dirs]. rewrite Ho2, Ho1, Hd2, Hd1.
    split; [by rewrite Ho0|done].
  - destruct H1 as [Ho1 _]. split; [by eapply appended_trans|].
    rewrite Ho1, Hd1. done.
Qed.

Lemma log_printf_fields s w :
  appended LOG_PATH w (log_printf s w)
  ∧ w_open (log_printf s w) = w_open w
  ∧ w_dirs w ⊆ w_dirs (log_printf s w)
  ∧ ∀ p, p ∈ w_dirs (log_printf s w) → p ∈ w_dirs w ∨ p = LOG_DIR.
Proof.
  unfold log_printf. destruct (ensure_log_dir_fields w) as (Hf0 & Ho0 & Hs0 & Hd0).
  set (w0 := ensure_log_dir w) in *.
  assert (appended LOG_PATH w w0) as Ha0 by (apply appended_same; by rewrite Hf0).
  pose proof (fopen_a_appended LOG_PATH w0) as Ha1.
  destruct (fopen_a_fields LOG_PATH w0) as [Hd1 H1].
  destruct (fopen_a LOG_PATH w0) as [[f|] w1]; cbn [fst snd] in *.
  - destruct H1 as (-> & Ho1 & _).
    destruct (fprintf_fields s LOG_PATH w1) as (Hd2 & Ho2 & _).
    destruct (fprintf_fields [LF] LOG_PATH (fprintf s LOG_PATH w1)) as (Hd3 & Ho3 & _).
    split.
    { eapply appended_trans; [exact Ha0|]. eapply appended_trans; [exact Ha1|].
      eapply appended_trans; [apply fprintf_appended|].
      eapply appended_trans; [apply fprintf_appended|apply fclose_appended]. }
    cbn [fclose set_open w_open w_dirs]. rewrite Ho3, Ho2, Ho1, Hd3, Hd2, Hd1.
    split; [by rewrite Ho0|done].
  - destruct H1 as [Ho1 _]. split; [by eapply appended_trans|].
    rewrite Ho1, Hd1. done.
Qed.

Lemma log_step_refl w : log_step w w.
Proof. split; [apply appended_refl|]. split; [done|]. split; [done|auto]. Qed.

Lemma log_step_trans w1 w2 w3 : log_step w1 w2 → log_step w2 w3 → log_step w1 w3.
Proof.
  intros (Ha & Ho & Hs & Hd) (Ha' & Ho' & Hs' & Hd').
  split; [by eapply appended_trans|]. split; [congruence|].
  split; [by etrans|]. intros p [Hp|Hp]%Hd'; [by apply Hd|by right].
Qed.

Lemma handoff_step nroPath argvLine w : log_step w (handoff nroPath argvLine w).2.
Proof.
  unfold handoff. destruct nroPath as [|c p]; [apply log_msg_fields|].
  destruct (R_FAILED _); [apply log_printf_fields|apply log_step_refl].
Qed.

Lemma logged_records_step w : log_step w (logged_records w).
Proof.
  unfold logged_records.
  eapply log_step_trans; [apply log_msg_fields|].
  eapply log_step_trans; apply log_printf_fields.
Qed.

Lemma handoff_frame nroPath argvLine w p :
  p ≠ LOG_PATH → w_files (handoff nroPath argvLine w).2 !! p = w_files w !! p.
Proof.
  intros Hp. unfold handoff. destruct nroPath as [|c q]; [by apply log_msg_frame|].
  destruct (R_FAILED _); [by apply log_printf_frame|done].
Qed.

(** Property X18.  The footprint of the forwarder, on any medium: the log is only ever
    added to (what it held is still there, at the front), no other file
    is created or changed, the only directory that may appear is the
    log's, none disappears, and no stream is left open. *)
Theorem forwarder_only_appends_to_its_log pad w :
  appended LOG_PATH w (main pad w).2
  ∧ (∀ p, p ≠ LOG_PATH → w_files (main pad w).2 !! p = w_files w !! p)
  ∧ w_dirs w ⊆ w_dirs (main pad w).2
  ∧ (∀ p, p ∈ w_dirs (main pad w).2 → p ∈ w_dirs w ∨ p = LOG_DIR)
  ∧ w_open (main pad w).2 = w_open w.
Proof.
  rewrite main_spec. cbn [snd].
  destruct (log_step_trans _ _ _ (logged_records_step w)
              (handoff_step (cstr (nro_record w)) (cstr (argv_record w))
                 (logged_records w))) as (Ha & Ho & Hs & Hd).
  split; [done|]. split; [|done].
  intros p Hp. rewrite handoff_frame by done. unfold logged_records.
  by rewrite !log_printf_frame, log_msg_frame.
Qed.

Lemma log_msg_unwritable s w :
  is_dir w LOG_DIR = false →
  is_file w LOG_DIR = true ∨ is_dir w (lit "sdmc:") = false →
  log_msg s w = w ∧ log_printf s w = w.
Proof.
  intros Hd Hcase.
  assert (ensure_log_dir w = w) as Hm.
  { unfold ensure_log_dir, mkdir, path_exists. rewrite Hd.
    destruct Hcase as [->| Hp]; [done|].
    destruct (is_file w LOG_DIR); [done|]. cbn [orb].
    change (dirname LOG_DIR) with (lit "sdmc:"). by rewrite Hp. }
  assert (fopen_a LOG_PATH w = (None, w)) as Hopen.
  { unfold fopen_a, fopen_write. destruct (is_dir w LOG_PATH); [done|].
    change (dirname LOG_PATH) with LOG_DIR. by rewrite Hd. }
  unfold log_msg, log_printf. by rewrite Hm, Hopen.
Qed.

(** Property X19.  When the log cannot be written because its directory is not there
    and cannot be made (a regular file has its name, or [sdmc:] is not
    mounted), [main] goes on without a word about it and hands back the
    store exactly as it found it. *)
Theorem unwritable_log_is_ignored pad w :
  is_dir w LOG_DIR = false →
  is_file w LOG_DIR = true ∨ is_dir w (lit "sdmc:") = false →
  (main pad w).2 = w
  ∧ (main pad w).1
    = (0%Z, [EvBanner]
              ++ (handoff (cstr (nro_record w)) (cstr (argv_record w)) w).1
              ++ [EvPressPlus] ++ pad_loop pad).
Proof.
  intros Hd Hcase. rewrite main_spec. cbn [fst snd].
  assert (∀ s, log_msg s w = w) as Hmsg by (intros s; by apply log_msg_unwritable).
  assert (∀ s, log_printf s w = w) as Hprintf by (intros s; by apply log_msg_unwritable).
  assert (logged_records w = w) as ->.
  { unfold logged_records. by rewrite Hmsg, !Hprintf. }
  split; [|done]. unfold handoff.
  destruct (cstr (nro_record w)); [apply Hmsg|].
  destruct (R_FAILED _); [apply Hprintf|done].
Qed.

Lemma unwritable_log_is_ignored_witness :
  (main [] Demo.w_bare).2 = Demo.w_bare
  ∧ (main [] Demo.w_bare).1 = (0%Z, [EvBanner; EvTargetMissing; EvPressPlus]).
Proof.
  apply (unwritable_log_is_ignored [] Demo.w_bare).
  - vm_compute; reflexivity.
  - right. vm_compute; reflexivity.
Defined.

Lemma handoff_out nroPath argvLine w w' :
  (handoff nroPath argvLine w).1 = (handoff nroPath argvLine w').1.
Proof.
  unfold handoff. destruct nroPath; [done|]. by destruct (R_FAILED _).
Qed.

(** Property X20.  What [main] shows and returns depends on the two records only: not
    on the log, on the medium, or on any other file, the target the
    record names included. *)
Theorem console_depends_on_records_only pad w w' :
  w_files w !! NRO_FILE = w_files w' !! NRO_FILE →
  w_files w !! ARG_FILE = w_files w' !! ARG_FILE →
  (main pad w).1 = (main pad w').1.
Proof.
  intros Hn Ha. rewrite !main_spec. cbn [fst].
  unfold nro_record, argv_record. rewrite !read_text_file_spec. cbn [fst].
  rewrite Hn, Ha. f_equal. f_equal. f_equal. apply handoff_out.
Qed.

Lemma console_depends_on_records_only_witness :
  (main [] w_no_target).1 = (main [] w_with_target).1.
Proof.
  apply (console_depends_on_records_only [] w_no_target w_with_target).
  - vm_compute; reflexivity.
  - vm_compute; reflexivity.
Defined.

(** Property X21.  The log of one run, when the log can be written: four lines are
    added to whatever the log held, namely the start line, the target
    record, the argument record (each as "(missing)" when empty), and
    the verdict. *)
Theorem log_of_a_run pad w :
  log_usable w →
  w_files (main pad w).2 !! LOG_PATH
  = Some (default [] (w_files w !! LOG_PATH)
          ++ (lit "SRP forwarder start" ++ [LF])
          ++ (lit "nextNroPath=" ++ or_missing (cstr (nro_record w)) ++ [LF])
          ++ (lit "nextArgv=" ++ or_missing (cstr (argv_record w)) ++ [LF])
          ++ (verdict (cstr (nro_record w)) ++ [LF])).
Proof.
  intros Hu. rewrite main_spec. cbn [snd].
  destruct (log_msg_append (lit "SRP forwarder start") w Hu) as [Hu1 H1].
  destruct (log_printf_append (lit "nextNroPath=" ++ or_missing (cstr (nro_record w)))
              _ Hu1) as [Hu2 H2].
  destruct (log_printf_append (lit "nextArgv=" ++ or_missing (cstr (argv_record w)))
              _ Hu2) as [Hu3 H3].
  rewrite H2, H1 in H3. cbn [default] in H3.
  unfold logged_records.
  set (w3 := log_printf _ (log_printf _ (log_msg _ w))) in *.
  assert (w_files (handoff (cstr (nro_record w)) (cstr (argv_record w)) w3).2
            !! LOG_PATH
          = Some (default [] (w_files w3 !! LOG_PATH)
                  ++ verdict (cstr (nro_record w)) ++ [LF])) as ->.
  { unfold handoff, verdict. destruct (cstr (nro_record w)) as [|c p].
    - by apply log_msg_append.
    - change (R_FAILED (chainload_nro (c :: p) (cstr (argv_record w)))) with true.
      cbn iota. by apply log_printf_append. }
  rewrite H3. cbn [default]. f_equal.
  unfold id. by rewrite <- !app_assoc.
Qed.

Lemma log_of_a_run_witness :
  w_files (main [] Demo.w_blank_target).2 !! LOG_PATH
  = Some (lit "SRP forwarder start" ++ [LF]
          ++ lit "nextNroPath=(missing)" ++ [LF]
          ++ lit "nextArgv=(missing)" ++ [LF]
          ++ lit "ERROR: nextNroPath missing" ++ [LF]).
Proof.
  apply (log_of_a_run [] Demo.w_blank_target), log_usable_blank_target.
Defined.

(** Property X22.  A record is read back as it was written: a text shorter than the
    buffer that does not end in a space, a tab, a CR or a LF, followed
    in the file by any run of such characters, is returned as it stands,
    and reading leaves the store as it was. *)
Theorem record_is_read_back path outsz w text ws :
  w_files w !! path = Some (text ++ ws) →
  length (text ++ ws) < outsz →
  forallb is_trailing ws = true →
  (∀ c, last text = Some c → is_trailing c = false) →
  read_text_file path outsz w = (text, w).
Proof.
  intros Hfile Hlen Hws Hlast. rewrite read_text_file_spec, Hfile. f_equal.
  unfold record. rewrite firstn_all2 by lia. rewrite rtrim_app by done.
  destruct (last text) as [c|] eqn:E.
  - by apply (rtrim_id _ _ c), Hlast.
  - by apply last_None in E as ->.
Qed.

Lemma record_is_read_back_witness :
  read_text_file NRO_FILE 512 w_no_target = (lit "sdmc:/switch/app.nro", w_no_target).
Proof.
  apply (record_is_read_back NRO_FILE 512 w_no_target (lit "sdmc:/switch/app.nro") [LF]).
  - vm_compute; reflexivity.
  - apply Nat.ltb_lt. vm_compute; reflexivity.
  - reflexivity.
  - intros c Hc. vm_compute in Hc. by injection Hc as <-.
Defined.

End ForwarderProps.

Module PadProps.
Import Libc.

Lemma plus_bit k :
  Z.land k HidNpadButton_Plus = 0%Z ↔ Z.testbit k 10 = false.
Proof.
  change HidNpadButton_Plus with (2 ^ 10)%Z. split.
  - intros H. pose proof (Z.land_spec k (2 ^ 10) 10) as Hs.
    rewrite H, Z.bits_0, Z.pow2_bits_true in Hs by done.
    by rewrite andb_true_r in Hs.
  - intros H. apply Z.bits_inj'. intros n Hn.
    rewrite Z.land_spec, Z.bits_0, Z.pow2_bits_eqb by done.
    destruct (Z.eqb_spec 10 n) as [<-|]; [by rewrite H|apply andb_false_r].
Qed.

(** Property X23.  The input loop of each of the three programs refreshes the console
    once for every frame in which bit 10 of the buttons (PLUS) is clear
    and stops at the first frame in which it is set: nothing is shown
    for that frame or any later one, whatever other buttons are held. *)
Theorem input_loop_stops_at_plus pre k post :
  Forall (fun b => Z.testbit b 10 = false) pre →
  Z.testbit k 10 = true →
  MultiStub.pad_loop (pre ++ k :: post)
  = repeat MultiStub.EvConsoleUpdate (length pre)
  ∧ Stub.pad_loop (pre ++ k :: post) = repeat Stub.EvConsoleUpdate (length pre)
  ∧ Forwarder.pad_loop (pre ++ k :: post)
    = repeat Forwarder.EvConsoleUpdate (length pre).
Proof.
  intros Hpre Hk.
  assert ((Z.land k HidNpadButton_Plus =? 0)%Z = false) as Hk'.
  { apply Z.eqb_neq. intros H%plus_bit. congruence. }
  induction Hpre as [|b pre Hb _ IH]; simpl.
  - by rewrite Hk'.
  - apply plus_bit in Hb. rewrite Hb. simpl.
    destruct IH as (-> & -> & ->). done.
Qed.

Lemma input_loop_stops_at_plus_witness :
  MultiStub.pad_loop ([0; 1] ++ 1025 :: [0; 0])%Z
  = repeat MultiStub.EvConsoleUpdate 2
  ∧ Stub.pad_loop ([0; 1] ++ 1025 :: [0; 0])%Z = repeat Stub.EvConsoleUpdate 2
  ∧ Forwarder.pad_loop ([0; 1] ++ 1025 :: [0; 0])%Z
    = repeat Forwarder.EvConsoleUpdate 2.
Proof.
  apply (input_loop_stops_at_plus [0; 1]%Z 1025%Z [0; 0]%Z).
  - repeat constructor.
  - reflexivity.
Defined.

End PadProps.
